(** * PD-TSP experiment pipeline: analysis scripts, embedded and verified

    A shallow embedding of the Python analysis layer of the PD-TSP solver
    repository: Pareto dominance ([report/analyze_and_plot.py]), the tour
    load-profile simulation ([scripts/visualize_solution.py]), the
    gap-to-exact computation ([analyze_results.py]), the benchmark runner
    ([scripts/run_benchmarks.py]), the best-per-alpha selection
    ([scripts/aggregate_quadratic_results.py]), the result normalisation of
    [scripts/aggregate_results.py] and the two algorithm-name
    canonicalisations ([scripts/compare_linear_quadratic.py] and
    [normalize_algo]).

    Conventions.  Python [int] is [Z]; Python [float] is the kernel's
    binary64 [float] (so NaN, the infinities and the two zeros behave as in
    the scripts); a Python [str] is a [string] of one-byte characters (the
    ASCII fragment: [lower], [strip] and [\d] act on ASCII only); a [dict] is
    a [gmap]; a pandas frame is the list of its rows, the row's position
    being its index label. *)

From Stdlib Require Import ZArith Lia Bool List String Ascii Floats Sorted.
From Stdlib Require OrderedTypeEx.
From Stdlib Require Import DecimalString.
From Stdlib Require DecimalNat DecimalPos DecimalZ.
From stdpp Require Import base option list gmap strings.

Local Open Scope Z_scope.

(** ** Order facts about binary64 comparisons

    The scripts compare floats with [<=], [<] and [>]; the facts below are
    what the dominance and maximum arguments need.  They are derived from
    the specification of the primitive comparisons ([SFcompare]). *)
Module FloatOrder.

Definition cmp_le (r : comparison) : bool :=
  match r with Gt => false | _ => true end.

Definition cmp_seq (r1 r2 : comparison) : comparison :=
  match r1 with Eq => r2 | _ => r1 end.

Ltac split_compares :=
  repeat match goal with
  | H : context [Pos.compare_cont Eq ?p ?q] |- _ =>
      change (Pos.compare_cont Eq p q) with (Pos.compare p q) in H
  | |- context [Pos.compare_cont Eq ?p ?q] =>
      change (Pos.compare_cont Eq p q) with (Pos.compare p q)
  end;
  repeat match goal with
  | H : context [Z.compare ?x ?y] |- _ => destruct (Z.compare_spec x y)
  | |- context [Z.compare ?x ?y] => destruct (Z.compare_spec x y)
  | H : context [Pos.compare ?x ?y] |- _ => destruct (Pos.compare_spec x y)
  | |- context [Pos.compare ?x ?y] => destruct (Pos.compare_spec x y)
  end.

Lemma SFcompare_trans (a b c : spec_float) (r1 r2 : comparison) :
  SFcompare a b = Some r1 -> SFcompare b c = Some r2 ->
  cmp_le r1 = true -> cmp_le r2 = true ->
  SFcompare a c = Some (cmp_seq r1 r2).
Proof.
  intros H1 H2 L1 L2.
  destruct r1, r2; try discriminate; clear L1 L2;
  destruct a as [sa|sa| |sa ma ea], b as [sb|sb| |sb mb eb], c as [sc|sc| |sc mc ec];
    try destruct sa; try destruct sb; try destruct sc; simpl in *;
    try discriminate; try reflexivity;
    f_equal; injection H1 as H1; try (injection H2 as H2);
    split_compares; simpl in *; subst; try congruence; try lia.
Qed.

Lemma SFcompare_sym (a b : spec_float) (r : comparison) :
  SFcompare a b = Some r -> SFcompare b a = Some (CompOpp r).
Proof.
  destruct a as [sa|sa| |sa ma ea], b as [sb|sb| |sb mb eb];
    try destruct sa; try destruct sb; simpl; intros H; try discriminate;
    injection H as <-; try reflexivity; f_equal;
    split_compares; simpl in *; subst; try congruence; try lia.
Qed.

Lemma SFcompare_total (a b : spec_float) :
  SFcompare a a <> None -> SFcompare b b <> None -> SFcompare a b <> None.
Proof.
  destruct a as [sa|sa| |sa ma ea], b as [sb|sb| |sb mb eb]; simpl; congruence.
Qed.

Lemma SFcompare_refl (a : spec_float) : SFcompare a a <> Some Lt.
Proof.
  destruct a as [sa|sa| |sa ma ea]; try destruct sa; simpl; try congruence;
  rewrite Z.compare_refl; change (Pos.compare_cont Eq ma ma) with (Pos.compare ma ma);
  rewrite Pos.compare_refl; simpl; congruence.
Qed.

Local Open Scope float_scope.

Ltac by_compare x y r E :=
  rewrite ?FloatAxioms.ltb_spec, ?FloatAxioms.leb_spec; unfold SFleb, SFltb;
  destruct (SFcompare (Prim2SF x) (Prim2SF y)) as [r|] eqn:E; [|discriminate].

Lemma leb_trans (x y z : float) :
  (x <=? y) = true -> (y <=? z) = true -> (x <=? z) = true.
Proof.
  by_compare x y r1 E1.
  destruct (SFcompare (Prim2SF y) (Prim2SF z)) as [r2|] eqn:E2; [|discriminate].
  intros L1 L2.
  rewrite (SFcompare_trans _ _ _ r1 r2 E1 E2); destruct r1, r2; done.
Qed.

Lemma ltb_leb_trans (x y z : float) :
  (x <? y) = true -> (y <=? z) = true -> (x <? z) = true.
Proof.
  by_compare x y r1 E1.
  destruct (SFcompare (Prim2SF y) (Prim2SF z)) as [r2|] eqn:E2; [|discriminate].
  intros L1 L2.
  rewrite (SFcompare_trans _ _ _ r1 r2 E1 E2); destruct r1, r2; done.
Qed.

Lemma leb_ltb_trans (x y z : float) :
  (x <=? y) = true -> (y <? z) = true -> (x <? z) = true.
Proof.
  by_compare x y r1 E1.
  destruct (SFcompare (Prim2SF y) (Prim2SF z)) as [r2|] eqn:E2; [|discriminate].
  intros L1 L2.
  rewrite (SFcompare_trans _ _ _ r1 r2 E1 E2); destruct r1, r2; done.
Qed.

Lemma ltb_irrefl (x : float) : (x <? x) = false.
Proof.
  rewrite FloatAxioms.ltb_spec. unfold SFltb.
  pose proof (SFcompare_refl (Prim2SF x)).
  destruct (SFcompare (Prim2SF x) (Prim2SF x)) as [[]|]; congruence.
Qed.

Lemma ltb_leb (x y : float) : (x <? y) = true -> (x <=? y) = true.
Proof.
  rewrite FloatAxioms.ltb_spec, FloatAxioms.leb_spec. unfold SFleb, SFltb.
  destruct (SFcompare (Prim2SF x) (Prim2SF y)) as [[]|]; congruence.
Qed.

Lemma is_nan_compare (x : float) :
  is_nan x = false <-> SFcompare (Prim2SF x) (Prim2SF x) <> None.
Proof.
  unfold is_nan. rewrite FloatAxioms.eqb_spec. unfold SFeqb.
  pose proof (SFcompare_refl (Prim2SF x)).
  destruct (SFcompare (Prim2SF x) (Prim2SF x)) as [r|] eqn:E; simpl.
  - pose proof (SFcompare_sym _ _ _ E) as E'. rewrite E in E'.
    destruct r; simpl in *; try congruence. split; congruence.
  - split; congruence.
Qed.

Lemma leb_total (x y : float) :
  is_nan x = false -> is_nan y = false -> (x <? y) = false -> (y <=? x) = true.
Proof.
  intros Nx%is_nan_compare Ny%is_nan_compare.
  pose proof (SFcompare_total _ _ Nx Ny) as T.
  rewrite FloatAxioms.ltb_spec, FloatAxioms.leb_spec. unfold SFleb, SFltb.
  destruct (SFcompare (Prim2SF x) (Prim2SF y)) as [r|] eqn:E; [|congruence].
  rewrite (SFcompare_sym _ _ _ E). destruct r; simpl; congruence.
Qed.

Lemma leb_not_nan (x y : float) :
  (x <=? y) = true -> is_nan x = false /\ is_nan y = false.
Proof.
  rewrite FloatAxioms.leb_spec. unfold SFleb. intros H.
  split; apply is_nan_compare; revert H;
  destruct (Prim2SF x) as [sa|sa| |sa ma ea], (Prim2SF y) as [sb|sb| |sb mb eb];
    simpl; try discriminate; intros _; congruence.
Qed.

Lemma leb_refl (x : float) : is_nan x = false -> (x <=? x) = true.
Proof.
  intros N. apply leb_total; auto using ltb_irrefl.
Qed.

Lemma ltb_trans (x y z : float) :
  (x <? y) = true -> (y <? z) = true -> (x <? z) = true.
Proof.
  intros H1 H2. eapply ltb_leb_trans; [exact H1|now apply ltb_leb].
Qed.

Lemma eqb_refl (x : float) : is_nan x = false -> (x =? x) = true.
Proof. unfold is_nan. now intros H%negb_false_iff. Qed.

Lemma eqb_sym (x y : float) : (x =? y) = true -> (y =? x) = true.
Proof.
  rewrite !FloatAxioms.eqb_spec. unfold SFeqb.
  destruct (SFcompare (Prim2SF x) (Prim2SF y)) as [r|] eqn:E; [|discriminate].
  rewrite (SFcompare_sym _ _ _ E). destruct r; simpl; congruence.
Qed.

Lemma eqb_trans (x y z : float) :
  (x =? y) = true -> (y =? z) = true -> (x =? z) = true.
Proof.
  rewrite !FloatAxioms.eqb_spec. unfold SFeqb.
  destruct (SFcompare (Prim2SF x) (Prim2SF y)) as [r1|] eqn:E1; [|discriminate].
  destruct (SFcompare (Prim2SF y) (Prim2SF z)) as [r2|] eqn:E2; [|discriminate].
  intros L1 L2.
  rewrite (SFcompare_trans _ _ _ r1 r2 E1 E2); destruct r1, r2; done.
Qed.

End FloatOrder.

(** ** Frames as lists of rows *)
Module Frame.

(** [enumerate(l)]: the elements of [l] paired with their positions. *)
Fixpoint enumerate_from {A} (i : nat) (l : list A) : list (nat * A) :=
  match l with
  | [] => []
  | x :: l' => (i, x) :: enumerate_from (S i) l'
  end.

Definition enumerate {A} (l : list A) : list (nat * A) := enumerate_from 0 l.

Lemma in_enumerate_from {A} (l : list A) (i k : nat) (x : A) :
  In (k, x) (enumerate_from i l) <-> (i <= k)%nat /\ nth_error l (k - i) = Some x.
Proof.
  revert i. induction l as [|y l IH]; intros i; simpl.
  - split; [tauto|]. intros [_ H]. destruct (k - i)%nat; discriminate.
  - rewrite IH. split.
    + intros [E | [Hle H]].
      * injection E as <- <-. split; [lia|]. now replace (i - i)%nat with 0%nat by lia.
      * split; [lia|]. replace (k - i)%nat with (S (k - S i)) by lia. exact H.
    + intros [Hle H]. destruct (k - i)%nat as [|d] eqn:D.
      * left. injection H as <-. f_equal. lia.
      * right. split; [lia|]. replace (k - S i)%nat with d by lia. exact H.
Qed.

Lemma in_enumerate {A} (l : list A) (k : nat) (x : A) :
  In (k, x) (enumerate l) <-> nth_error l k = Some x.
Proof.
  unfold enumerate. rewrite in_enumerate_from.
  replace (k - 0)%nat with k by lia. split; [tauto|]. split; [lia|auto].
Qed.

Lemma enumerate_from_fst_lt {A} (l : list A) (i k : nat) (x : A) :
  In (k, x) (enumerate_from i l) -> (i <= k)%nat.
Proof. rewrite in_enumerate_from. tauto. Qed.

End Frame.

(** ** Pareto dominance ([pareto_front], report/analyze_and_plot.py) *)
Module Pareto.
Import Frame.
Local Open Scope float_scope.

(** The [(x_col, y_col)] values of one row: (time, cost). *)
Definition point : Type := (float * float)%type.

Definition notna (x : float) : bool := negb (is_nan x).

(** [sub = df[[x_col, y_col]].dropna()]: the rows holding no NaN, each with
    its index label. *)
Definition dropna (df : list point) : list (nat * point) :=
  List.filter (fun r => notna (fst (snd r)) && notna (snd (snd r))) (enumerate df).

(** [x_j <= x_i and y_j <= y_i and (x_j < x_i or y_j < y_i)], with
    [q = (x_j, y_j)] and [p = (x_i, y_i)]. *)
Definition dominates (q p : point) : bool :=
  (fst q <=? fst p) && (snd q <=? snd p) && ((fst q <? fst p) || (snd q <? snd p)).

(** The inner loop for point number [i]: [dominated] becomes true as soon as
    some [j <> i] dominates it. *)
Definition dominated (pts : list point) (i : nat) (p : point) : bool :=
  List.existsb (fun jq => negb (Nat.eqb (fst jq) i) && dominates (snd jq) p)
               (enumerate pts).

(** The outer loop: [pareto_idxs] collects [orig_idxs[i]] of the points that
    are not dominated. *)
Definition pareto_idxs (pts : list point) (orig_idxs : list nat) : list nat :=
  flat_map (fun ip => if dominated pts (fst ip) (snd ip) then []
                      else [nth (fst ip) orig_idxs 0%nat])
           (enumerate pts).

(** [df.loc[idxs]]: the rows with these labels; a label the frame does not
    have is a [KeyError] ([None]). *)
Fixpoint loc (df : list point) (idxs : list nat) : option (list (nat * point)) :=
  match idxs with
  | [] => Some []
  | k :: ks =>
      match nth_error df k with
      | None => None
      | Some p =>
          match loc df ks with
          | None => None
          | Some rs => Some ((k, p) :: rs)
          end
      end
  end.

Definition pareto_front (df : list point) : option (list (nat * point)) :=
  let sub := dropna df in
  let pts := map snd sub in
  let orig_idxs := map fst sub in
  loc df (pareto_idxs pts orig_idxs).

(** *** Dominance is a strict order *)

Lemma dominates_irrefl (p : point) : dominates p p = false.
Proof.
  unfold dominates. rewrite !FloatOrder.ltb_irrefl. simpl. apply andb_false_r.
Qed.

Lemma dominates_trans (a b c : point) :
  dominates a b = true -> dominates b c = true -> dominates a c = true.
Proof.
  unfold dominates. rewrite !andb_true_iff, !orb_true_iff.
  intros [[X1 Y1] S1] [[X2 Y2] S2]. repeat split.
  - eapply FloatOrder.leb_trans; eauto.
  - eapply FloatOrder.leb_trans; eauto.
  - destruct S1 as [S1|S1].
    + left. eapply FloatOrder.ltb_leb_trans; eauto.
    + right. eapply FloatOrder.ltb_leb_trans; eauto.
Qed.

Lemma dominates_notna (q p : point) :
  dominates q p = true -> notna (fst q) = true /\ notna (snd q) = true.
Proof.
  unfold dominates, notna. rewrite !andb_true_iff. intros [[X Y] _].
  apply FloatOrder.leb_not_nan in X, Y. destruct X as [-> _], Y as [-> _]. auto.
Qed.

(** *** Counting argument: a dominated point has a non-dominated dominator *)

Lemma filter_length_le {A} (f g : A -> bool) (l : list A) :
  (forall x, In x l -> f x = true -> g x = true) ->
  (length (List.filter f l) <= length (List.filter g l))%nat.
Proof.
  induction l as [|x l IH]; intros H; simpl; [lia|].
  assert (IH' := IH (fun y Hy => H y (or_intror Hy))).
  destruct (f x) eqn:F.
  - rewrite (H x (or_introl eq_refl) F). simpl. lia.
  - destruct (g x); simpl; lia.
Qed.

Lemma filter_length_lt {A} (f g : A -> bool) (l : list A) (w : A) :
  (forall x, In x l -> f x = true -> g x = true) ->
  In w l -> g w = true -> f w = false ->
  (length (List.filter f l) < length (List.filter g l))%nat.
Proof.
  induction l as [|x l IH]; intros H Hw Gw Fw; simpl; [destruct Hw|].
  assert (Hl : forall y, In y l -> f y = true -> g y = true)
    by (intros y Hy; apply H; now right).
  destruct Hw as [->|Hw].
  - rewrite Fw, Gw. simpl. pose proof (filter_length_le f g l Hl). lia.
  - specialize (IH Hl Hw Gw Fw). destruct (f x) eqn:F.
    + rewrite (H x (or_introl eq_refl) F). simpl. lia.
    + destruct (g x); simpl; lia.
Qed.

Lemma minimal_dominator (pts : list point) (n : nat) (p : point) :
  (length (List.filter (fun q => dominates q p) pts) <= n)%nat ->
  List.existsb (fun q => dominates q p) pts = true ->
  exists q, In q pts /\ dominates q p = true /\
            List.existsb (fun r => dominates r q) pts = false.
Proof.
  revert p. induction n as [|n IH]; intros p Hn Hex.
  - apply existsb_exists in Hex as (q & Hq & D).
    assert (In q (List.filter (fun q => dominates q p) pts))
      by (apply filter_In; auto).
    destruct (List.filter (fun q => dominates q p) pts); simpl in *; [tauto|lia].
  - apply existsb_exists in Hex as (q & Hq & D).
    destruct (List.existsb (fun r => dominates r q) pts) eqn:Eq.
    + destruct (IH q) as (r & Hr & Drq & Min); auto.
      * assert ((length (List.filter (fun r => dominates r q) pts)
                 < length (List.filter (fun r => dominates r p) pts))%nat).
        { apply (filter_length_lt _ _ pts q); auto.
          - intros x _ Dx. eapply dominates_trans; eauto.
          - apply dominates_irrefl. }
        lia.
      * exists r. repeat split; auto. eapply dominates_trans; eauto.
    + exists q. auto.
Qed.

(** *** The loops, read as membership facts *)

Lemma in_dropna (df : list point) (k : nat) (p : point) :
  In (k, p) (dropna df) <->
  nth_error df k = Some p /\ notna (fst p) = true /\ notna (snd p) = true.
Proof.
  unfold dropna. rewrite filter_In, in_enumerate. simpl.
  rewrite andb_true_iff. tauto.
Qed.

Lemma dominated_spec (pts : list point) (i : nat) (p : point) :
  nth_error pts i = Some p ->
  dominated pts i p = List.existsb (fun q => dominates q p) pts.
Proof.
  intros Hi. unfold dominated. apply eq_iff_eq_true.
  rewrite !existsb_exists. split.
  - intros ([j q] & Hin & H). simpl in H. apply andb_true_iff in H as [_ D].
    apply in_enumerate, nth_error_In in Hin. eauto.
  - intros (q & Hin & D). apply In_nth_error in Hin as [j Hj].
    exists (j, q). split; [now apply in_enumerate|]. simpl.
    rewrite D, andb_true_r. apply negb_true_iff, Nat.eqb_neq. intros ->.
    rewrite Hi in Hj. injection Hj as ->. rewrite dominates_irrefl in D. discriminate.
Qed.

Lemma in_pareto_idxs (sub : list (nat * point)) (k : nat) :
  In k (pareto_idxs (map snd sub) (map fst sub)) <->
  exists p, In (k, p) sub /\
            List.existsb (fun q => dominates q p) (map snd sub) = false.
Proof.
  unfold pareto_idxs. rewrite in_flat_map. split.
  - intros ([i p] & Hin & H). simpl in H. apply in_enumerate in Hin.
    rewrite (dominated_spec _ _ _ Hin) in H.
    destruct (List.existsb _ _) eqn:E; [destruct H|].
    destruct H as [<-|[]]. exists p. split; [|exact E].
    rewrite nth_error_map in Hin.
    destruct (nth_error sub i) as [[k' p']|] eqn:Hs; [|discriminate].
    simpl in Hin. injection Hin as <-.
    rewrite (nth_error_nth _ _ _ (map_nth_error fst _ _ Hs)).
    now apply nth_error_In in Hs.
  - intros (p & Hin & E). apply In_nth_error in Hin as [i Hs].
    exists (i, p). simpl.
    assert (Hp : nth_error (map snd sub) i = Some p)
      by (apply (map_nth_error snd _ _ Hs)).
    split; [now apply in_enumerate|].
    rewrite (dominated_spec _ _ _ Hp), E.
    left. apply nth_error_nth, (map_nth_error fst _ _ Hs).
Qed.

Lemma loc_defined (df : list point) (idxs : list nat) :
  (forall k, In k idxs -> nth_error df k <> None) ->
  exists front, loc df idxs = Some front /\
    forall k p, In (k, p) front <-> In k idxs /\ nth_error df k = Some p.
Proof.
  induction idxs as [|k ks IH]; intros H; simpl.
  - exists []. split; [reflexivity|]. simpl. tauto.
  - assert (Hks : forall k', In k' ks -> nth_error df k' <> None)
      by (intros; apply H; now right).
    destruct (IH Hks) as (rs & -> & Hrs).
    destruct (nth_error df k) as [p|] eqn:Hk; [|exfalso; apply (H k); [now left|exact Hk]].
    exists ((k, p) :: rs). split; [reflexivity|]. intros k' p'. simpl.
    rewrite Hrs. split.
    + intros [E|[? ?]]; [injection E as <- <-|]; auto.
    + intros [[<-|?] Hk']; [left; congruence|right; auto].
Qed.

(** What [pareto_front] returns, as a membership fact: the rows without a
    NaN that no point of the cleaned frame dominates. *)
Lemma pareto_front_rows (df : list point) :
  exists front, pareto_front df = Some front /\
    forall k p, In (k, p) front <->
      In (k, p) (dropna df) /\
      List.existsb (fun q => dominates q p) (map snd (dropna df)) = false.
Proof.
  unfold pareto_front.
  destruct (loc_defined df (pareto_idxs (map snd (dropna df)) (map fst (dropna df))))
    as (front & E & Hfront).
  - intros k (p & Hin & _)%in_pareto_idxs. apply in_dropna in Hin as [-> _]. discriminate.
  - exists front. split; [exact E|]. intros k p. rewrite Hfront, in_pareto_idxs. split.
    + intros [(p' & Hin & Hd) Hk]. pose proof Hin as Hin'.
      apply in_dropna in Hin' as [Hk' _]. rewrite Hk in Hk'. injection Hk' as <-. auto.
    + intros [Hin Hd]. split; [eauto|]. now apply in_dropna in Hin as [? _].
Qed.

Lemma not_dominated_iff (df : list point) (k : nat) (p : point) :
  nth_error df k = Some p ->
  List.existsb (fun q => dominates q p) (map snd (dropna df)) = false <->
  forall j q, j <> k -> nth_error df j = Some q -> dominates q p = false.
Proof.
  intros Hk. split.
  - intros E j q _ Hj. destruct (dominates q p) eqn:D; [|reflexivity].
    assert (List.existsb (fun q => dominates q p) (map snd (dropna df)) = true);
      [|congruence].
    apply existsb_exists. exists q. split; [|exact D].
    apply in_map_iff. exists (j, q). split; [reflexivity|].
    apply in_dropna. apply dominates_notna in D. tauto.
  - intros H. apply not_true_is_false. intros E.
    apply existsb_exists in E as (q & Hin & D).
    apply in_map_iff in Hin as ([j q'] & Eq & Hin). simpl in Eq. subst q'.
    apply in_dropna in Hin as [Hj _].
    destruct (Nat.eq_dec j k) as [->|Hne].
    + rewrite Hk in Hj. injection Hj as ->. rewrite dominates_irrefl in D. discriminate.
    + rewrite (H j q Hne Hj) in D. discriminate.
Qed.

(** C1. [pareto_front] always returns; the returned rows are rows of the
    input; a point (a row holding no NaN) is kept exactly when no other
    input point [Q] has [Q.time <= P.time], [Q.cost <= P.cost] and one of the
    two strictly; no returned point is dominated by a returned point; every
    input point that is not returned is dominated by a returned one; and on
    {(1,10), (2,5), (3,5)} the front is {(1,10), (2,5)}. *)
Theorem pareto_front_correct :
  (forall df : list point,
    exists front, pareto_front df = Some front /\
      (forall k p, In (k, p) front -> nth_error df k = Some p) /\
      (forall k p, nth_error df k = Some p ->
         notna (fst p) = true -> notna (snd p) = true ->
         (In (k, p) front <->
          forall j q, j <> k -> nth_error df j = Some q -> dominates q p = false)) /\
      (forall k p j q, In (k, p) front -> In (j, q) front -> dominates q p = false) /\
      (forall k p, nth_error df k = Some p ->
         notna (fst p) = true -> notna (snd p) = true ->
         ~ In (k, p) front ->
         exists j q, In (j, q) front /\ dominates q p = true)) /\
  pareto_front [(1, 10); (2, 5); (3, 5)] = Some [(0%nat, (1, 10)); (1%nat, (2, 5))].
Proof.
  split; [|reflexivity].
  intros df. destruct (pareto_front_rows df) as (front & E & Hfront).
  exists front. split; [exact E|]. split; [|split; [|split]].
  - intros k p [Hin _]%Hfront. now apply in_dropna in Hin.
  - intros k p Hk Nx Ny. rewrite Hfront, in_dropna, (not_dominated_iff df k p Hk).
    tauto.
  - intros k p j q [_ Hd]%Hfront [Hq _]%Hfront.
    destruct (dominates q p) eqn:D; [|reflexivity].
    assert (List.existsb (fun q => dominates q p) (map snd (dropna df)) = true);
      [|congruence].
    apply existsb_exists. exists q. split; [|exact D].
    apply in_map_iff. exists (j, q). auto.
  - intros k p Hk Nx Ny Hout.
    destruct (List.existsb (fun q => dominates q p) (map snd (dropna df))) eqn:Ed.
    + destruct (minimal_dominator _ _ p (Nat.le_refl _) Ed) as (q & Hq & D & Min).
      apply in_map_iff in Hq as ([j q'] & Eq & Hin). simpl in Eq. subst q'.
      exists j, q. split; [|exact D]. apply Hfront. auto.
    + destruct Hout. apply Hfront. split; [apply in_dropna; auto|exact Ed].
Qed.

(** The theorem at the example: (3,5), row 2, is left out and a returned
    point dominates it. *)
Lemma pareto_front_correct_witness :
  nth_error [(1, 10); (2, 5); (3, 5)] 2 = Some (3, 5) /\
  exists front, pareto_front [(1, 10); (2, 5); (3, 5)] = Some front /\
    (~ In (2%nat, (3, 5)) front ->
     exists j q, In (j, q) front /\ dominates q (3, 5) = true).
Proof.
  split; [reflexivity|].
  destruct (proj1 pareto_front_correct [(1, 10); (2, 5); (3, 5)])
    as (front & E & _ & _ & _ & Hout).
  exists front. split; [exact E|].
  exact (Hout 2%nat (3, 5) eq_refl eq_refl eq_refl).
Defined.

End Pareto.

(** ** Tour load profile ([visualize_solution], scripts/visualize_solution.py) *)
Module LoadProfile.

(** [max(xs)] on integers; [None] is the [ValueError] Python raises on an
    empty sequence. *)
Fixpoint py_max (xs : list Z) : option Z :=
  match xs with
  | [] => None
  | x :: xs' =>
      match py_max xs' with
      | None => Some x
      | Some m => Some (Z.max x m)
      end
  end.

(** [demands.keys()] *)
Definition keys (demands : gmap Z Z) : list Z := map fst (map_to_list demands).

(** [demands.get(node, 0)] *)
Definition get0 (demands : gmap Z Z) (node : Z) : Z := default 0 (demands !! node).

(** The three-way case distinction on the signs of the two depot demands. *)
Definition starting_load (depot_demand return_depot_demand : Z) : Z :=
  if (0 <=? depot_demand) && (return_depot_demand <? 0) then
    Z.max 0 (depot_demand + return_depot_demand)
  else if (0 <=? return_depot_demand) && (depot_demand <? 0) then
    Z.max 0 (return_depot_demand + depot_demand)
  else depot_demand + return_depot_demand.

(** One turn of [for node in tour[1:]]; the state is [(load, load_profile)]. *)
Definition visit (demands : gmap Z Z) (st : Z * list Z) (node : Z) : Z * list Z :=
  let load := if node =? 0 then 0 else fst st + get0 demands node in
  (load, snd st ++ [load]).

(** The [else] branch of [visualize_solution] that computes [load_profile]
    (the solution carries none). *)
Definition load_profile (tour : list Z) (demands : gmap Z Z) : option (list Z) :=
  match py_max (keys demands) with
  | None => None
  | Some mk =>
      let n_nodes := mk + 1 in
      let depot_demand := get0 demands 0 in
      let return_depot_demand :=
        if decide (is_Some (demands !! (n_nodes - 1)))
        then get0 demands (n_nodes - 1) else 0 in
      let start := starting_load depot_demand return_depot_demand in
      let st := fold_left (visit demands) (tail tour) (start, [start]) in
      Some (snd st ++ [0])
  end.

(** *** The profile as the specification words it *)

(** Starting load: floored at zero when one depot demand is non-negative and
    the other negative, the plain sum otherwise. *)
Definition starting_load_spec (d r : Z) : Z :=
  if decide ((0 <= d /\ r < 0) \/ (0 <= r /\ d < 0)) then Z.max 0 (d + r) else d + r.

(** Loads after the start: node 0 resets to zero, any other node adds its
    signed demand; nothing is clamped. *)
Fixpoint loads_spec (demands : gmap Z Z) (load : Z) (nodes : list Z) : list Z :=
  match nodes with
  | [] => []
  | node :: rest =>
      let load' := if decide (node = 0) then 0 else load + get0 demands node in
      load' :: loads_spec demands load' rest
  end.

Definition profile_spec (tour : list Z) (demands : gmap Z Z) (d r : Z) : list Z :=
  let start := starting_load_spec d r in
  start :: loads_spec demands start (tail tour) ++ [0].

(** The demand table of the specification's example. *)
Definition example_demands : gmap Z Z :=
  list_to_map [(0, 5); (1, 3); (2, -3); (3, -5)].

(** *** Lemmas *)

Lemma py_max_spec (xs : list Z) :
  match py_max xs with
  | None => xs = []
  | Some m => In m xs /\ forall x, In x xs -> x <= m
  end.
Proof.
  induction xs as [|x xs IH]; simpl; [reflexivity|].
  destruct (py_max xs) as [m|].
  - destruct IH as [Hm Hle]. split.
    + destruct (Z.max_spec x m) as [[_ ->]|[_ ->]]; auto.
    + intros y [<-|Hy]; [lia|]. specialize (Hle y Hy). lia.
  - subst xs. split; [now left|]. intros y [<-|[]]. lia.
Qed.

Lemma in_keys (demands : gmap Z Z) (k : Z) :
  In k (keys demands) <-> is_Some (demands !! k).
Proof.
  unfold keys. rewrite in_map_iff. split.
  - intros ([k' v] & <- & Hin). apply list_elem_of_In, elem_of_map_to_list in Hin.
    simpl. eauto.
  - intros [v Hv]. exists (k, v). split; [reflexivity|].
    now apply list_elem_of_In, elem_of_map_to_list.
Qed.

Lemma keys_nonempty (demands : gmap Z Z) : demands <> ∅ -> keys demands <> [].
Proof.
  intros Hne Hk. apply Hne, map_empty. intros k.
  destruct (demands !! k) as [v|] eqn:E; [|reflexivity].
  assert (In k (keys demands)) by (apply in_keys; eauto).
  rewrite Hk in H. destruct H.
Qed.

Lemma starting_load_agrees (d r : Z) : starting_load d r = starting_load_spec d r.
Proof.
  unfold starting_load, starting_load_spec.
  destruct (0 <=? d) eqn:D, (r <? 0) eqn:R, (0 <=? r) eqn:R', (d <? 0) eqn:D';
    simpl; case_decide; try reflexivity; lia.
Qed.

Lemma visit_loop (demands : gmap Z Z) (nodes : list Z) (load : Z) (acc : list Z) :
  snd (fold_left (visit demands) nodes (load, acc)) =
  acc ++ loads_spec demands load nodes.
Proof.
  revert load acc. induction nodes as [|node rest IH]; intros load acc; simpl.
  - now rewrite app_nil_r.
  - unfold visit at 2. simpl. rewrite IH, <- app_assoc. simpl.
    destruct (Z.eqb_spec node 0); case_decide; try reflexivity; contradiction.
Qed.

Lemma loads_spec_step (demands : gmap Z Z) (nodes : list Z) (load : Z) (i : nat)
    (node prev : Z) :
  nodes !! i = Some node ->
  (load :: loads_spec demands load nodes) !! i = Some prev ->
  (load :: loads_spec demands load nodes) !! S i =
    Some (if decide (node = 0) then 0 else prev + get0 demands node).
Proof.
  revert load i. induction nodes as [|n rest IH]; intros load i Hn Hp.
  - destruct i; discriminate.
  - destruct i as [|i]; simpl in *.
    + injection Hn as ->. injection Hp as ->. reflexivity.
    + apply (IH _ i Hn Hp).
Qed.

Lemma load_profile_unfold (tour : list Z) (demands : gmap Z Z) (mk : Z) :
  py_max (keys demands) = Some mk ->
  load_profile tour demands =
    Some (profile_spec tour demands (get0 demands 0) (get0 demands mk)).
Proof.
  intros Hmk. unfold load_profile, profile_spec. rewrite Hmk. cbv zeta.
  replace (mk + 1 - 1) with mk by lia.
  pose proof (py_max_spec (keys demands)) as Hspec. rewrite Hmk in Hspec.
  destruct Hspec as [Hin _]. apply in_keys in Hin.
  rewrite decide_True by exact Hin.
  rewrite visit_loop, starting_load_agrees. reflexivity.
Qed.

(** C2 (amended to demand tables that hold at least one node).  The
    simulation returns the profile the specification describes: with [d] the
    demand of node 0 (0 when it has none) and [r] the demand of the
    highest-numbered node, the starting load is [max(0, d + r)] when one of [d], [r]
    is non-negative and the other negative, and [d + r] otherwise; every
    later node adds its signed demand to the previous entry, node 0 resets
    it to zero, nothing is clamped; a final zero entry is appended; and the
    example gives [0, 3, 0, -5] followed by the final 0. *)
Theorem load_profile_correct :
  (forall (tour : list Z) (demands : gmap Z Z), demands <> ∅ ->
     exists last_node,
       py_max (keys demands) = Some last_node /\
       is_Some (demands !! last_node) /\
       (forall k, is_Some (demands !! k) -> k <= last_node) /\
       load_profile tour demands =
         Some (profile_spec tour demands (get0 demands 0) (get0 demands last_node))) /\
  (forall (tour : list Z) (demands : gmap Z Z) (profile : list Z),
     load_profile tour demands = Some profile ->
     length profile = S (S (length (tail tour))) /\
     profile !! S (length (tail tour)) = Some 0 /\
     forall (i : nat) (node prev : Z),
       tour !! S i = Some node -> profile !! i = Some prev ->
       profile !! S i = Some (if decide (node = 0) then 0 else prev + get0 demands node)) /\
  load_profile [0; 1; 2; 3] example_demands = Some [0; 3; 0; -5; 0].
Proof.
  split; [|split; [|reflexivity]].
  - intros tour demands Hne.
    pose proof (py_max_spec (keys demands)) as Hspec.
    destruct (py_max (keys demands)) as [mk|] eqn:Hmk.
    + destruct Hspec as [Hin Hmax]. exists mk. repeat split.
      * now apply in_keys.
      * intros k Hk. now apply Hmax, in_keys.
      * now apply load_profile_unfold.
    + now apply keys_nonempty in Hne.
  - intros tour demands profile Hp.
    destruct (py_max (keys demands)) as [mk|] eqn:Hmk;
      [|unfold load_profile in Hp; rewrite Hmk in Hp; discriminate].
    rewrite (load_profile_unfold _ _ _ Hmk) in Hp. injection Hp as <-.
    unfold profile_spec.
    set (start := starting_load_spec _ _).
    assert (Hlen : forall load nodes,
               length (loads_spec demands load nodes) = length nodes).
    { intros load nodes. revert load.
      induction nodes; intros; simpl; [|rewrite IHnodes]; reflexivity. }
    repeat split.
    + simpl. rewrite length_app, Hlen. simpl. lia.
    + change (start :: loads_spec demands start (tail tour) ++ [0])
        with ((start :: loads_spec demands start (tail tour)) ++ [0]).
      rewrite lookup_app_r; simpl; rewrite Hlen; [|lia].
      now rewrite Nat.sub_diag.
    + intros i node prev Hn Hprev.
      assert (Htl : tail tour !! i = Some node) by (destruct tour; [destruct i|]; done).
      assert (Hi : (i < length (tail tour))%nat) by (eapply lookup_lt_Some; eauto).
      change (start :: loads_spec demands start (tail tour) ++ [0])
        with ((start :: loads_spec demands start (tail tour)) ++ [0]) in *.
      rewrite lookup_app_l in Hprev by (simpl; rewrite Hlen; lia).
      rewrite lookup_app_l by (simpl; rewrite Hlen; lia).
      now apply loads_spec_step.
Qed.

(** The theorem at the example of the specification. *)
Lemma load_profile_correct_witness :
  example_demands <> ∅ /\
  exists last_node,
    py_max (keys example_demands) = Some last_node /\
    is_Some (example_demands !! last_node) /\
    (forall k, is_Some (example_demands !! k) -> k <= last_node) /\
    load_profile [0; 1; 2; 3] example_demands =
      Some (profile_spec [0; 1; 2; 3] example_demands
              (get0 example_demands 0) (get0 example_demands last_node)).
Proof.
  assert (H : example_demands <> ∅) by (intros E; discriminate (f_equal (lookup 0) E)).
  split; [exact H|].
  exact (proj1 load_profile_correct [0; 1; 2; 3] example_demands H).
Defined.

(** The claim as first stated (every demand table) fails on the empty
    table, where the script raises instead of returning a profile. *)
Lemma load_profile_every_table_fails :
  load_profile [0; 1; 2; 3] ∅ = None /\
  profile_spec [0; 1; 2; 3] ∅ (get0 ∅ 0) (get0 ∅ 0) = [0; 0; 0; 0; 0].
Proof. split; reflexivity. Qed.

End LoadProfile.

(** ** Gap to the exact solver ([plot_exact_vs_best_heuristic], analyze_results.py) *)
Module Gap.
Local Open Scope float_scope.

(** A row of [exact_df] (columns Instance, CostFunction, Cost) and a row of
    [heuristic_df] (columns Instance, CostFunction, MinCost).  A missing
    number is NaN, as [read_csv] leaves it. *)
Record exact_row := { eInstance : string; eCostFunction : string; Cost : float }.
Record heuristic_row := { hInstance : string; hCostFunction : string; MinCost : float }.

(** What one turn of the loop appends to the four lists [instances],
    [gaps], [exact_costs] and [heuristic_costs]. *)
Record gap_entry := {
  g_instance : string;
  g_gap : float;
  g_exact_cost : float;
  g_heuristic_cost : float
}.

(** [pd.notna(x)] on a float. *)
Definition notna (x : float) : bool := negb (is_nan x).

(** [Series.min()]: the least value, NaN skipped; NaN when nothing is left. *)
Definition series_min (xs : list float) : float :=
  fold_left (fun m x => if is_nan x then m
                        else if is_nan m then x
                        else if x <? m then x else m) xs nan.

(** [sorted(set(...))] on strings. *)
Fixpoint insert_sorted (x : string) (l : list string) : list string :=
  match l with
  | [] => [x]
  | y :: l' =>
      match String.compare x y with
      | Lt => x :: y :: l'
      | Eq => y :: l'
      | Gt => y :: insert_sorted x l'
      end
  end.

Definition sorted_set (l : list string) : list string :=
  fold_right insert_sorted [] l.

(** [exact_df[exact_df['CostFunction'] == cost_func]] and its counterpart. *)
Definition exact_data (cost_func : string) (exact_df : list exact_row) :=
  List.filter (fun r => String.eqb (eCostFunction r) cost_func) exact_df.

Definition heuristic_data (cost_func : string) (heuristic_df : list heuristic_row) :=
  List.filter (fun r => String.eqb (hCostFunction r) cost_func) heuristic_df.

(** [sorted(set(exact_data['Instance']) & set(heuristic_data['Instance']))] *)
Definition common_instances (ed : list exact_row) (hd : list heuristic_row) : list string :=
  sorted_set (List.filter (fun i => List.existsb (fun r => String.eqb (hInstance r) i) hd)
                          (map eInstance ed)).

(** [exact_data[exact_data['Instance'] == inst]['Cost'].iloc[0]]; [None] is
    the [IndexError] of [iloc[0]] on an empty selection. *)
Definition exact_cost_of (ed : list exact_row) (inst : string) : option float :=
  head (map Cost (List.filter (fun r => String.eqb (eInstance r) inst) ed)).

(** [heuristic_data[heuristic_data['Instance'] == inst]['MinCost'].min()] *)
Definition heuristic_cost_of (hd : list heuristic_row) (inst : string) : float :=
  series_min (map MinCost (List.filter (fun r => String.eqb (hInstance r) inst) hd)).

(** The guard of the loop body. *)
Definition gap_defined (exact_cost heuristic_cost : float) : bool :=
  notna exact_cost && notna heuristic_cost && (0 <? exact_cost).

(** [for inst in sorted(common_instances): ...] *)
Fixpoint gap_loop (ed : list exact_row) (hd : list heuristic_row) (insts : list string)
  : option (list gap_entry) :=
  match insts with
  | [] => Some []
  | inst :: rest =>
      match exact_cost_of ed inst with
      | None => None
      | Some exact_cost =>
          let heuristic_cost := heuristic_cost_of hd inst in
          let here :=
            if gap_defined exact_cost heuristic_cost then
              [ {| g_instance := inst;
                   g_gap := ((heuristic_cost - exact_cost) / exact_cost) * 100;
                   g_exact_cost := exact_cost;
                   g_heuristic_cost := heuristic_cost |} ]
            else [] in
          match gap_loop ed hd rest with
          | None => None
          | Some more => Some (here ++ more)
          end
      end
  end.

(** [plt.subplot(nrows, ncols, index)]: as matplotlib documents it, [index]
    counts the cells of the grid from 1 to [nrows * ncols]; any other index
    raises [ValueError] ([None]). *)
Definition subplot (nrows ncols index : Z) : option unit :=
  if ((1 <=? index) && (index <=? nrows * ncols))%Z then Some tt else None.

(** The body of [for idx, cost_func in enumerate(cost_funcs, 1)], drawing
    left out: the cell of the figure is selected first, then the gap list
    of the cost function is built. *)
Definition gaps_of (idx : Z) (cost_func : string) (exact_df : list exact_row)
    (heuristic_df : list heuristic_row) : option (list gap_entry) :=
  match subplot 2 2 idx with
  | None => None
  | Some _ =>
      let ed := exact_data cost_func exact_df in
      let hd := heuristic_data cost_func heuristic_df in
      gap_loop ed hd (common_instances ed hd)
  end.

(** [exact_df['CostFunction'].unique()]: the distinct values, in the order
    of their first appearance. *)
Fixpoint unique (l : list string) : list string :=
  match l with
  | [] => []
  | x :: l' => x :: List.filter (fun y => negb (String.eqb y x)) (unique l')
  end.

(** [for idx, cost_func in enumerate(cost_funcs, 1)]: the gap list of each
    cost function, in order; [None] as soon as one turn raises. *)
Fixpoint cost_func_loop (idx : Z) (cost_funcs : list string)
    (exact_df : list exact_row) (heuristic_df : list heuristic_row)
  : option (list (string * list gap_entry)) :=
  match cost_funcs with
  | [] => Some []
  | cost_func :: rest =>
      match gaps_of idx cost_func exact_df heuristic_df with
      | None => None
      | Some entries =>
          match cost_func_loop (idx + 1)%Z rest exact_df heuristic_df with
          | None => None
          | Some more => Some ((cost_func, entries) :: more)
          end
      end
  end.

(** [plot_exact_vs_best_heuristic], drawing left out: with an empty frame it
    returns at once; otherwise it runs the loop over the cost functions of
    [exact_df]. *)
Definition plot_exact_vs_best_heuristic (exact_df : list exact_row)
    (heuristic_df : list heuristic_row) : option (list (string * list gap_entry)) :=
  match exact_df, heuristic_df with
  | [], _ => Some []
  | _, [] => Some []
  | _, _ => cost_func_loop 1 (unique (map eCostFunction exact_df)) exact_df heuristic_df
  end.

(** *** The pair (cost function, instance) in the two frames *)

(** The rows of [exact_df] and of [heuristic_df] that belong to a pair. *)
Definition exact_match (cost_func inst : string) (r : exact_row) : bool :=
  String.eqb (eCostFunction r) cost_func && String.eqb (eInstance r) inst.

Definition heuristic_match (cost_func inst : string) (r : heuristic_row) : bool :=
  String.eqb (hCostFunction r) cost_func && String.eqb (hInstance r) inst.

(** [r] is the first row of [exact_df] for the pair. *)
Definition first_exact (cost_func inst : string) (exact_df : list exact_row)
    (r : exact_row) : Prop :=
  exists pre post, exact_df = pre ++ r :: post /\
    exact_match cost_func inst r = true /\
    forall r', In r' pre -> exact_match cost_func inst r' = false.

(** [m] is the best heuristic cost of the pair: the [MinCost] of one of its
    rows, and at most the [MinCost] of each of its rows that has one. *)
Definition best_heuristic (cost_func inst : string) (heuristic_df : list heuristic_row)
    (m : float) : Prop :=
  (exists h, In h heuristic_df /\ heuristic_match cost_func inst h = true /\
             MinCost h = m) /\
  forall h, In h heuristic_df -> heuristic_match cost_func inst h = true ->
            is_nan (MinCost h) = false -> (m <=? MinCost h) = true.

(** [series_min] is NaN only when every value is, and otherwise a value of
    the series below all its other numbers. *)
Definition is_min_of (m : float) (l : list float) : Prop :=
  (is_nan m = true /\ forall x, In x l -> is_nan x = true) \/
  (is_nan m = false /\ In m l /\
   forall x, In x l -> is_nan x = false -> (m <=? x) = true).

(** The heuristic rows of the example. *)
Definition example_heuristic_rows : list heuristic_row :=
  [ {| hInstance := "n50mosA"; hCostFunction := "distance"; MinCost := 120 |};
    {| hInstance := "n50mosA"; hCostFunction := "distance"; MinCost := 115 |} ].

(** One instance solved under five cost functions: exact cost 100 and
    heuristic cost 115 under each. *)
Definition five_cost_functions : list string :=
  ["distance"; "quadratic"; "linear-load"; "cubic"; "time"]%string.

Definition five_exact_rows : list exact_row :=
  map (fun cf => {| eInstance := "n50mosA"; eCostFunction := cf; Cost := 100 |})
      five_cost_functions.

Definition five_heuristic_rows : list heuristic_row :=
  map (fun cf => {| hInstance := "n50mosA"; hCostFunction := cf; MinCost := 115 |})
      five_cost_functions.

(** *** Lemmas *)

Lemma in_insert_sorted (x y : string) (l : list string) :
  In x (insert_sorted y l) <-> x = y \/ In x l.
Proof.
  induction l as [|z l IH]; simpl.
  - split; intros [H|[]]; subst; auto.
  - destruct (String.compare y z) eqn:C; simpl.
    + apply String.compare_eq_iff in C. subst z.
      split; [auto|]. intros [H|H]; subst; auto.
    + split; intros H; repeat destruct H as [H|H]; subst; auto.
    + rewrite IH. split; intros H; repeat destruct H as [H|H]; subst; auto.
Qed.

Lemma in_sorted_set (x : string) (l : list string) : In x (sorted_set l) <-> In x l.
Proof.
  induction l as [|y l IH]; simpl; [tauto|].
  rewrite in_insert_sorted, IH.
  split; intros [H|H]; subst; auto.
Qed.

Lemma in_common_instances (ed : list exact_row) (hd : list heuristic_row) (inst : string) :
  In inst (common_instances ed hd) <->
  (exists r, In r ed /\ eInstance r = inst) /\ (exists r, In r hd /\ hInstance r = inst).
Proof.
  unfold common_instances. rewrite in_sorted_set, filter_In, in_map_iff, existsb_exists.
  split.
  - intros [(r & <- & Hr) (h & Hh & E)]. apply String.eqb_eq in E.
    split; [exists r|exists h]; auto.
  - intros [(r & Hr & <-) (h & Hh & E)]. split; [eauto|].
    exists h. split; [exact Hh|]. now apply String.eqb_eq.
Qed.

Lemma exact_cost_defined (ed : list exact_row) (inst : string) :
  (exists r, In r ed /\ eInstance r = inst) -> exists e, exact_cost_of ed inst = Some e.
Proof.
  intros (r & Hr & E). unfold exact_cost_of.
  assert (Hin : In r (List.filter (fun r => String.eqb (eInstance r) inst) ed))
    by (apply filter_In; split; [exact Hr|now apply String.eqb_eq]).
  destruct (List.filter _ ed) as [|r0 l]; [destruct Hin|]. simpl. eauto.
Qed.

Lemma gap_loop_spec (ed : list exact_row) (hd : list heuristic_row) (insts : list string) :
  (forall inst, In inst insts -> exists e, exact_cost_of ed inst = Some e) ->
  exists entries, gap_loop ed hd insts = Some entries /\
    forall g, In g entries <->
      In (g_instance g) insts /\
      exact_cost_of ed (g_instance g) = Some (g_exact_cost g) /\
      g_heuristic_cost g = heuristic_cost_of hd (g_instance g) /\
      gap_defined (g_exact_cost g) (g_heuristic_cost g) = true /\
      g_gap g = ((g_heuristic_cost g - g_exact_cost g) / g_exact_cost g) * 100.
Proof.
  induction insts as [|inst rest IH]; intros Hdef; simpl.
  - exists []. split; [reflexivity|]. simpl. tauto.
  - destruct (Hdef inst (or_introl eq_refl)) as [e He]. rewrite He.
    destruct IH as (more & -> & Hmore); [intros; apply Hdef; now right|].
    eexists. split; [reflexivity|]. intros g. rewrite in_app_iff, Hmore. split.
    + intros [Hhere|H]; [|tauto].
      destruct (gap_defined e (heuristic_cost_of hd inst)) eqn:D; [|destruct Hhere].
      destruct Hhere as [<-|[]]. simpl. auto.
    + intros (Hin & He' & Hh & D & Hg). destruct Hin as [E|Hin]; [left|right; auto].
      destruct g as [gi gg ge gh]; simpl in *. subst gi.
      rewrite He in He'. injection He' as <-. subst gh gg. rewrite D.
      now left.
Qed.

Lemma series_min_step (m x : float) (l : list float) :
  is_min_of m l ->
  is_min_of (if is_nan x then m else if is_nan m then x else if x <? m then x else m)
            (l ++ [x]).
Proof.
  intros [[Nm Hall]|(Nm & Hin & Hle)]; destruct (is_nan x) eqn:Nx; rewrite ?Nm.
  - left. split; [exact Nm|]. intros y [Hy|[<-|[]]]%in_app_iff; auto.
  - right. split; [exact Nx|]. split; [apply in_app_iff; right; now left|].
    intros y [Hy|[<-|[]]]%in_app_iff Ny.
    + rewrite (Hall y Hy) in Ny. discriminate.
    + now apply FloatOrder.leb_refl.
  - right. split; [exact Nm|]. split; [apply in_app_iff; now left|].
    intros y [Hy|[<-|[]]]%in_app_iff Ny; [auto|congruence].
  - destruct (x <? m) eqn:L; right.
    + split; [exact Nx|]. split; [apply in_app_iff; right; now left|].
      intros y [Hy|[<-|[]]]%in_app_iff Ny.
      * apply FloatOrder.ltb_leb. eapply FloatOrder.ltb_leb_trans; eauto.
      * now apply FloatOrder.leb_refl.
    + split; [exact Nm|]. split; [apply in_app_iff; now left|].
      intros y [Hy|[<-|[]]]%in_app_iff Ny; [auto|].
      now apply FloatOrder.leb_total.
Qed.

Lemma series_min_spec (xs : list float) : is_min_of (series_min xs) xs.
Proof.
  unfold series_min.
  assert (G : forall xs m l, is_min_of m l ->
            is_min_of (fold_left (fun m x => if is_nan x then m
                                  else if is_nan m then x
                                  else if x <? m then x else m) xs m) (l ++ xs)).
  { clear xs. induction xs as [|x xs IH]; intros m l Hm; simpl.
    - now rewrite app_nil_r.
    - replace (l ++ x :: xs) with ((l ++ [x]) ++ xs) by (rewrite <- app_assoc; reflexivity).
      apply IH. now apply series_min_step. }
  apply (G xs nan []). left. split; [reflexivity|]. intros x [].
Qed.

(** *** Rows of a pair in the raw frames *)

Lemma head_filter_first {A : Type} (p : A -> bool) (l : list A) (r : A) :
  head (List.filter p l) = Some r <->
  exists pre post, l = pre ++ r :: post /\ p r = true /\
                   forall x, In x pre -> p x = false.
Proof.
  induction l as [|a l IH]; simpl.
  - split; [discriminate|]. intros (pre & post & E & _). destruct pre; discriminate.
  - destruct (p a) eqn:P; simpl.
    + split.
      * intros [= <-]. exists [], l. split; [reflexivity|]. split; [exact P|intros x []].
      * intros (pre & post & E & Pr & Hpre). destruct pre as [|b pre]; simpl in E.
        -- now injection E as -> _.
        -- injection E as -> _. rewrite (Hpre b (or_introl eq_refl)) in P. discriminate.
    + rewrite IH. split.
      * intros (pre & post & -> & Pr & Hpre). exists (a :: pre), post.
        split; [reflexivity|]. split; [exact Pr|]. intros x [<-|Hx]; auto.
      * intros (pre & post & E & Pr & Hpre). destruct pre as [|b pre]; simpl in E.
        -- injection E as -> _. congruence.
        -- injection E as -> ->. exists pre, post. split; [reflexivity|].
           split; [exact Pr|]. intros x Hx. apply Hpre. now right.
Qed.

Lemma filter_filter {A : Type} (p q : A -> bool) (l : list A) :
  List.filter q (List.filter p l) = List.filter (fun x => p x && q x) l.
Proof.
  induction l as [|a l IH]; simpl; [reflexivity|].
  destruct (p a); simpl; [destruct (q a)|]; now rewrite IH.
Qed.

Lemma head_map {A B : Type} (f : A -> B) (l : list A) :
  head (map f l) = option_map f (head l).
Proof. now destruct l. Qed.

Lemma gap_loop_common (ed : list exact_row) (hd : list heuristic_row) :
  exists entries, gap_loop ed hd (common_instances ed hd) = Some entries /\
    forall g, In g entries <->
      In (g_instance g) (common_instances ed hd) /\
      exact_cost_of ed (g_instance g) = Some (g_exact_cost g) /\
      g_heuristic_cost g = heuristic_cost_of hd (g_instance g) /\
      gap_defined (g_exact_cost g) (g_heuristic_cost g) = true /\
      g_gap g = ((g_heuristic_cost g - g_exact_cost g) / g_exact_cost g) * 100.
Proof.
  apply gap_loop_spec. intros inst [He _]%in_common_instances.
  now apply exact_cost_defined.
Qed.

Lemma subplot_spec (idx : Z) : subplot 2 2 idx = None <-> ~ (1 <= idx <= 4)%Z.
Proof.
  unfold subplot.
  destruct (Z.leb_spec 1 idx), (Z.leb_spec idx (2 * 2)); simpl; split;
    try discriminate; try reflexivity; lia.
Qed.

Lemma gaps_of_none (idx : Z) (cost_func : string) (exact_df : list exact_row)
    (heuristic_df : list heuristic_row) :
  gaps_of idx cost_func exact_df heuristic_df = None <-> ~ (1 <= idx <= 4)%Z.
Proof.
  unfold gaps_of. destruct (subplot 2 2 idx) eqn:S.
  - destruct (gap_loop_common (exact_data cost_func exact_df)
                (heuristic_data cost_func heuristic_df)) as (entries & -> & _).
    split; [discriminate|]. intros H. apply subplot_spec in H. congruence.
  - split; [intros _; now apply subplot_spec|reflexivity].
Qed.

Lemma first_exact_unique (cost_func inst : string) (exact_df : list exact_row)
    (r r' : exact_row) :
  first_exact cost_func inst exact_df r -> first_exact cost_func inst exact_df r' ->
  r = r'.
Proof.
  unfold first_exact. intros H H'. apply head_filter_first in H, H'. congruence.
Qed.

Lemma exact_cost_first (cost_func inst : string) (exact_df : list exact_row) (e : float) :
  exact_cost_of (exact_data cost_func exact_df) inst = Some e <->
  exists r, first_exact cost_func inst exact_df r /\ Cost r = e.
Proof.
  unfold exact_cost_of, exact_data, first_exact. rewrite filter_filter, head_map.
  change (fun x : exact_row => String.eqb (eCostFunction x) cost_func
                               && String.eqb (eInstance x) inst)
    with (exact_match cost_func inst).
  destruct (head (List.filter (exact_match cost_func inst) exact_df)) as [r|] eqn:Hr;
    simpl.
  - split.
    + intros [= <-]. exists r. split; [now apply head_filter_first|reflexivity].
    + intros (r' & F & <-). apply head_filter_first in F. congruence.
  - split; [discriminate|]. intros (r' & F & _). apply head_filter_first in F.
    congruence.
Qed.

Lemma heuristic_cost_rows (cost_func inst : string) (heuristic_df : list heuristic_row) :
  heuristic_cost_of (heuristic_data cost_func heuristic_df) inst =
  series_min (map MinCost (List.filter (heuristic_match cost_func inst) heuristic_df)).
Proof.
  unfold heuristic_cost_of, heuristic_data. now rewrite filter_filter.
Qed.

Lemma best_heuristic_spec (cost_func inst : string) (heuristic_df : list heuristic_row) :
  is_nan (heuristic_cost_of (heuristic_data cost_func heuristic_df) inst) = false ->
  best_heuristic cost_func inst heuristic_df
    (heuristic_cost_of (heuristic_data cost_func heuristic_df) inst).
Proof.
  rewrite heuristic_cost_rows. intros N.
  destruct (series_min_spec
              (map MinCost (List.filter (heuristic_match cost_func inst) heuristic_df)))
    as [[N' _]|(_ & Hin & Hle)]; [congruence|]. split.
  - apply in_map_iff in Hin as (h & E & Hh). apply filter_In in Hh as [Hh M].
    exists h. auto.
  - intros h Hh M Nh. apply Hle; [|exact Nh]. apply in_map, filter_In. auto.
Qed.

Lemma heuristic_cost_present (cost_func inst : string)
    (heuristic_df : list heuristic_row) (h : heuristic_row) :
  In h heuristic_df -> heuristic_match cost_func inst h = true ->
  is_nan (MinCost h) = false ->
  is_nan (heuristic_cost_of (heuristic_data cost_func heuristic_df) inst) = false.
Proof.
  intros Hh M Nh. rewrite heuristic_cost_rows.
  destruct (series_min_spec
              (map MinCost (List.filter (heuristic_match cost_func inst) heuristic_df)))
    as [[_ Hall]|(N & _)]; [|exact N].
  rewrite (Hall (MinCost h)) in Nh; [discriminate|]. apply in_map, filter_In. auto.
Qed.

Lemma in_common_pairs (cost_func inst : string) (exact_df : list exact_row)
    (heuristic_df : list heuristic_row) :
  In inst (common_instances (exact_data cost_func exact_df)
                            (heuristic_data cost_func heuristic_df)) <->
  (exists r, In r exact_df /\ exact_match cost_func inst r = true) /\
  (exists h, In h heuristic_df /\ heuristic_match cost_func inst h = true).
Proof.
  rewrite in_common_instances.
  unfold exact_data, heuristic_data, exact_match, heuristic_match. split.
  - intros [(r & Hr & <-) (h & Hh & E)].
    apply filter_In in Hr as [Hr C], Hh as [Hh C'].
    split; [exists r|exists h]; (split; [assumption|]).
    + now rewrite C, String.eqb_refl.
    + now rewrite C', E, String.eqb_refl.
  - intros [(r & Hr & M) (h & Hh & M')].
    apply andb_true_iff in M as [C E], M' as [C' E'].
    apply String.eqb_eq in E, E'. split; [exists r|exists h];
      (split; [apply filter_In; auto|assumption]).
Qed.

Lemma positive_not_nan (e : float) : (0 <? e) = true -> is_nan e = false.
Proof.
  intros H. apply FloatOrder.ltb_leb in H.
  now apply FloatOrder.leb_not_nan in H as [_ H].
Qed.

Lemma in_unique (x : string) (l : list string) : In x (unique l) <-> In x l.
Proof.
  induction l as [|a l IH]; simpl; [reflexivity|]. split.
  - intros [->|[H _]%filter_In]; [now left|]. right. now apply IH.
  - intros [->|H]; [now left|]. destruct (String.eqb_spec x a) as [->|Hne].
    + now left.
    + right. apply filter_In. split; [now apply IH|].
      apply negb_true_iff. now apply String.eqb_neq.
Qed.

Lemma cost_func_loop_spec (cost_funcs : list string) (idx : Z)
    (exact_df : list exact_row) (heuristic_df : list heuristic_row) :
  (1 <= idx <= 5)%Z ->
  (cost_func_loop idx cost_funcs exact_df heuristic_df = None <->
   (4 < idx + Z.of_nat (length cost_funcs) - 1)%Z) /\
  forall figures, cost_func_loop idx cost_funcs exact_df heuristic_df = Some figures ->
    map fst figures = cost_funcs /\
    forall k cost_func entries, nth_error figures k = Some (cost_func, entries) ->
      gaps_of (idx + Z.of_nat k) cost_func exact_df heuristic_df = Some entries.
Proof.
  revert idx. induction cost_funcs as [|cf rest IH]; intros idx Hidx.
  - simpl. split; [split; [discriminate|lia]|]. intros figures [= <-].
    split; [reflexivity|]. intros [|k] ? ? H; discriminate.
  - cbn [cost_func_loop length].
    destruct (gaps_of idx cf exact_df heuristic_df) as [entries|] eqn:G.
    + assert (Hr : (1 <= idx <= 4)%Z).
      { destruct (Z.le_gt_cases idx 4) as [?|Hgt]; [lia|].
        assert (Hn : gaps_of idx cf exact_df heuristic_df = None)
          by (apply gaps_of_none; lia).
        congruence. }
      destruct (IH (idx + 1)%Z ltac:(lia)) as [IHn IHs].
      destruct (cost_func_loop (idx + 1) rest exact_df heuristic_df) as [more|].
      * split.
        -- split; [discriminate|]. intros Hgt.
           assert (Hn : Some more = None) by (apply IHn; lia). discriminate.
        -- intros figures [= <-]. destruct (IHs more eq_refl) as [Hm Hk].
           split; [simpl; now rewrite Hm|]. intros [|k] cf' e' H; simpl in H.
           ++ injection H as <- <-. now rewrite Z.add_0_r.
           ++ replace (idx + Z.of_nat (S k))%Z with (idx + 1 + Z.of_nat k)%Z by lia.
              now apply Hk.
      * split; [|discriminate]. split; [intros _|reflexivity].
        assert (4 < idx + 1 + Z.of_nat (length rest) - 1)%Z by now apply IHn. lia.
    + split; [|discriminate]. split; [intros _|reflexivity].
      apply gaps_of_none in G. lia.
Qed.

(** The claim as first stated fails from the fifth cost function on: the
    pair has an exact cost of 100 and a best heuristic cost of 115, yet no
    gap is reported for it; selecting the fifth cell of the 2 x 2 figure
    raises, and the whole function with it. *)
Lemma fifth_cost_function_raises :
  first_exact "time" "n50mosA" five_exact_rows
    {| eInstance := "n50mosA"; eCostFunction := "time"; Cost := 100 |} /\
  best_heuristic "time" "n50mosA" five_heuristic_rows 115 /\
  nth_error (unique (map eCostFunction five_exact_rows)) 4 = Some "time"%string /\
  gaps_of 5 "time" five_exact_rows five_heuristic_rows = None /\
  plot_exact_vs_best_heuristic five_exact_rows five_heuristic_rows = None.
Proof.
  split; [|split; [|repeat split]].
  - exists (firstn 4 five_exact_rows), []. split; [reflexivity|]. split; [reflexivity|].
    intros r' H. simpl in H. repeat (destruct H as [<-|H]; [reflexivity|]). destruct H.
  - split.
    + eexists. split; [do 4 right; left; reflexivity|]. split; reflexivity.
    + intros h H M N. simpl in H.
      repeat (destruct H as [<-|H]; [first [discriminate M|reflexivity]|]). destruct H.
Qed.

(** C3 (amended to at most four cost functions).  The gap list of a cost
    function is built exactly when the cost function has a cell in the 2 x 2
    figure, that is when it is one of the first four distinct cost functions
    of the exact table; the function fails as a whole as soon as there are
    more, and otherwise builds one list for every cost function of the exact
    table.  When the list is built, a pair (instance, cost function) has an entry exactly
    when it has an exact row and a heuristic row with a cost and its exact
    cost is [> 0]; the exact cost is that of the pair's first exact row, the
    best heuristic cost is the [MinCost] of one of the pair's heuristic rows
    and at most every present [MinCost] of the pair, and the gap is
    [(best_heuristic_cost - exact_cost) / exact_cost * 100]; a pair whose
    exact cost is not [> 0] has no entry (it is omitted, not given a zero
    gap, and nothing is raised); exact cost 100 and best heuristic cost 115
    give gap 15.0, and exact cost 0 gives no entry. *)
Theorem gap_correct :
  (forall (idx : Z) (cost_func : string) (exact_df : list exact_row)
          (heuristic_df : list heuristic_row),
     (gaps_of idx cost_func exact_df heuristic_df = None <-> ~ (1 <= idx <= 4)%Z) /\
     forall entries, gaps_of idx cost_func exact_df heuristic_df = Some entries ->
       (forall g, In g entries ->
          (exists r, first_exact cost_func (g_instance g) exact_df r /\
                     g_exact_cost g = Cost r) /\
          best_heuristic cost_func (g_instance g) heuristic_df (g_heuristic_cost g) /\
          is_nan (g_heuristic_cost g) = false /\
          (0 <? g_exact_cost g) = true /\
          g_gap g = ((g_heuristic_cost g - g_exact_cost g) / g_exact_cost g) * 100) /\
       (forall inst r h,
          first_exact cost_func inst exact_df r -> (0 <? Cost r) = true ->
          In h heuristic_df -> heuristic_match cost_func inst h = true ->
          is_nan (MinCost h) = false ->
          exists g, In g entries /\ g_instance g = inst) /\
       (forall inst r,
          first_exact cost_func inst exact_df r -> (0 <? Cost r) = false ->
          forall g, In g entries -> g_instance g <> inst)) /\
  (forall (exact_df : list exact_row) (heuristic_df : list heuristic_row),
     exact_df <> [] -> heuristic_df <> [] ->
     (plot_exact_vs_best_heuristic exact_df heuristic_df = None <->
      (4 < length (unique (map eCostFunction exact_df)))%nat) /\
     forall figures, plot_exact_vs_best_heuristic exact_df heuristic_df = Some figures ->
       map fst figures = unique (map eCostFunction exact_df) /\
       (forall r, In r exact_df ->
          exists k entries, nth_error figures k = Some (eCostFunction r, entries)) /\
       forall k cost_func entries, nth_error figures k = Some (cost_func, entries) ->
         gaps_of (Z.of_nat k + 1) cost_func exact_df heuristic_df = Some entries) /\
  gaps_of 1 "distance"
    [ {| eInstance := "n50mosA"; eCostFunction := "distance"; Cost := 100 |} ]
    [ {| hInstance := "n50mosA"; hCostFunction := "distance"; MinCost := 120 |};
      {| hInstance := "n50mosA"; hCostFunction := "distance"; MinCost := 115 |} ]
  = Some [ {| g_instance := "n50mosA"; g_gap := 15;
              g_exact_cost := 100; g_heuristic_cost := 115 |} ] /\
  gaps_of 1 "distance"
    [ {| eInstance := "n50mosA"; eCostFunction := "distance"; Cost := 0 |} ]
    [ {| hInstance := "n50mosA"; hCostFunction := "distance"; MinCost := 115 |} ]
  = Some [].
Proof.
  split; [|split; [|split; reflexivity]].
  - intros idx cost_func exact_df heuristic_df. split; [apply gaps_of_none|].
    intros entries H. unfold gaps_of in H.
    destruct (subplot 2 2 idx); [|discriminate].
    set (ed := exact_data cost_func exact_df) in *.
    set (hd := heuristic_data cost_func heuristic_df) in *.
    destruct (gap_loop_common ed hd) as (entries' & E & Hent).
    rewrite E in H. injection H as ->. split; [|split].
    + intros g (_ & He & Hh & D & Hgap)%Hent.
      unfold gap_defined, notna in D.
      apply andb_true_iff in D as [D Hpos]. apply andb_true_iff in D as [_ Nh].
      apply negb_true_iff in Nh.
      apply exact_cost_first in He as (r & F & Er).
      split; [exists r; auto|]. split; [|auto].
      rewrite Hh. apply best_heuristic_spec. fold hd. now rewrite <- Hh.
    + intros inst r h F Hpos Hh M Nh.
      exists {| g_instance := inst;
                g_gap := ((heuristic_cost_of hd inst - Cost r) / Cost r) * 100;
                g_exact_cost := Cost r;
                g_heuristic_cost := heuristic_cost_of hd inst |}.
      split; [|reflexivity]. apply Hent. simpl. split; [|split; [|split; [|split]]].
      * apply in_common_pairs. split; [|eauto].
        destruct F as (pre & post & -> & Mr & _). exists r.
        split; [apply in_app_iff; right; now left|exact Mr].
      * apply exact_cost_first. eauto.
      * reflexivity.
      * unfold gap_defined, notna.
        rewrite (positive_not_nan _ Hpos), Hpos.
        unfold hd. now rewrite (heuristic_cost_present _ _ _ h Hh M Nh).
      * reflexivity.
    + intros inst r F Hnot g (_ & He & _ & D & _)%Hent <-.
      apply exact_cost_first in He as (r' & F' & Er).
      rewrite (first_exact_unique _ _ _ _ _ F F') in Hnot.
      unfold gap_defined in D. rewrite <- Er, Hnot, andb_false_r in D. discriminate.
  - intros exact_df heuristic_df He Hh. unfold plot_exact_vs_best_heuristic.
    destruct exact_df as [|r0 exact_df]; [contradiction|].
    destruct heuristic_df as [|h0 heuristic_df]; [contradiction|].
    cbv beta iota.
    destruct (cost_func_loop_spec (unique (map eCostFunction (r0 :: exact_df))) 1
                (r0 :: exact_df) (h0 :: heuristic_df)) as [Hn Hs]; [lia|].
    split; [rewrite Hn; lia|]. intros figures H.
    destruct (Hs figures H) as [Hm Hk]. split; [exact Hm|]. split.
    + intros r Hr.
      assert (Hin : In (eCostFunction r) (map fst figures))
        by (rewrite Hm; apply in_unique; now apply in_map).
      apply in_map_iff in Hin as ([cf entries] & Ecf & Hin). simpl in Ecf. subst cf.
      apply In_nth_error in Hin as [k Hk']. eauto.
    + intros k cost_func entries Hnth. rewrite Z.add_comm. now apply Hk.
Qed.

(** The theorem at the rows of the example: the entry's best heuristic cost,
    115, is the cost of a heuristic row of the pair and at most 120. *)
Lemma gap_correct_witness :
  gaps_of 1 "distance"
    [ {| eInstance := "n50mosA"; eCostFunction := "distance"; Cost := 100 |} ]
    example_heuristic_rows
  = Some [ {| g_instance := "n50mosA"; g_gap := 15;
              g_exact_cost := 100; g_heuristic_cost := 115 |} ] /\
  best_heuristic "distance" "n50mosA" example_heuristic_rows 115 /\
  (0 <? 100) = true.
Proof.
  assert (H : gaps_of 1 "distance"
                [ {| eInstance := "n50mosA"; eCostFunction := "distance"; Cost := 100 |} ]
                example_heuristic_rows
              = Some [ {| g_instance := "n50mosA"; g_gap := 15;
                          g_exact_cost := 100; g_heuristic_cost := 115 |} ])
    by reflexivity.
  split; [exact H|].
  pose proof (proj1 (proj2 (proj1 gap_correct 1%Z "distance"%string _ _) _ H)
                {| g_instance := "n50mosA"; g_gap := 15;
                   g_exact_cost := 100; g_heuristic_cost := 115 |}
                (or_introl eq_refl)) as (_ & Hb & _ & Hp & _).
  split; [exact Hb|exact Hp].
Defined.

End Gap.

(** ** The benchmark runner ([run] and the job loop of [main],
       scripts/run_benchmarks.py) *)
Module Runner.

(** An element of the command line: a string, or [str(n)] of a number. *)
Inductive arg :=
  | ArgStr (s : string)
  | ArgInt (n : Z)
  | ArgFloat (x : float).

(** What [run] hands to [subprocess.check_call]: the command, the two
    redirections, the environment (left abstract) and the [timeout] keyword,
    [None] when the keyword is not given. *)
Record check_call_args := {
  cc_cmd : list arg;
  cc_stdout : option string;
  cc_stderr : option string;
  cc_timeout : option Z
}.

(** [run(cmd, stdout_path, stderr_path, env)]: the call it makes.  No
    [timeout=] is passed. *)
Definition run (cmd : list arg) (stdout_path stderr_path : option string)
  : check_call_args :=
  {| cc_cmd := cmd; cc_stdout := stdout_path; cc_stderr := stderr_path;
     cc_timeout := None |}.

(** One job of the loop and the options it reads. *)
Record job := {
  exe : string;
  inst : string;
  alg : string;
  mode : string;
  time_limit : Z;
  alpha : float;
  json_out : string;
  log_out : string
}.

(** The command line [main] builds for a job. *)
Definition cmd_of (j : job) : list arg :=
  [ArgStr (exe j); ArgStr "solve"; ArgStr "-i"; ArgStr (inst j);
   ArgStr "-a"; ArgStr (alg j); ArgStr "-t"; ArgInt (time_limit j);
   ArgStr "--max-profit"; ArgStr "100"]
  ++ (if String.eqb (mode j) "quadratic" then
        [ArgStr "--cost-function"; ArgStr "quadratic"; ArgStr "--alpha"; ArgFloat (alpha j)]
      else if String.eqb (mode j) "linear-load" then
        [ArgStr "--cost-function"; ArgStr "linear-load"; ArgStr "--alpha"; ArgFloat (alpha j)]
      else [ArgStr "--cost-function"; ArgStr "distance"])
  ++ [ArgStr "--output"; ArgStr (json_out j)].











End Runner.

(** ** Best algorithm per alpha ([best_per_alpha],
       scripts/aggregate_quadratic_results.py) *)
Module Sensitivity.
Import Frame.
Local Open Scope float_scope.

(** A row of [df].  [objective] is NaN when the artifact has none (the
    frame turns [None] into NaN). *)
Record row := {
  alpha : float;
  algorithm : string;
  cost : float;
  profit : float;
  objective : float;
  time : float
}.

(** The group keys of [df.groupby('alpha')]: the distinct values, ascending,
    NaN left out. *)
Fixpoint insert_key (a : float) (l : list float) : list float :=
  match l with
  | [] => [a]
  | b :: l' =>
      if a =? b then b :: l'
      else if a <? b then a :: b :: l'
      else b :: insert_key a l'
  end.

Definition group_keys (df : list row) : list float :=
  fold_right insert_key []
    (List.filter (fun a => negb (is_nan a)) (map alpha df)).

(** The group of key [a]: its rows in frame order, with their labels. *)
Definition group (df : list row) (a : float) : list (nat * row) :=
  List.filter (fun kr => alpha (snd kr) =? a) (enumerate df).

(** [g['objective'].idxmax()]: the label of the first row holding the
    greatest objective, NaN skipped; the state is the best (label, value)
    seen so far.  [None] at the end: every objective is NaN and pandas
    raises. *)
Definition idxmax_step (best : option (nat * float)) (kr : nat * row)
  : option (nat * float) :=
  let x := objective (snd kr) in
  if is_nan x then best
  else match best with
       | None => Some (fst kr, x)
       | Some (kb, xb) => if xb <? x then Some (fst kr, x) else best
       end.

Definition idxmax (g : list (nat * row)) : option nat :=
  match fold_left idxmax_step g None with
  | None => None
  | Some (k, _) => Some k
  end.

(** [g.loc[g['objective'].idxmax()]] for the group of [a]. *)
Definition select (df : list row) (a : float) : option row :=
  match idxmax (group df a) with
  | None => None
  | Some k => nth_error df k
  end.

(** [df.groupby('alpha').apply(...)], then [reset_index(drop=True)]: one
    row per key, in key order. *)
Fixpoint select_all (df : list row) (ks : list float) : option (list row) :=
  match ks with
  | [] => Some []
  | a :: ks' =>
      match select df a with
      | None => None
      | Some r =>
          match select_all df ks' with
          | None => None
          | Some rs => Some (r :: rs)
          end
      end
  end.

Definition best_per_alpha (df : list row) : option (list row) :=
  select_all df (group_keys df).

(** The rows of the specification's sweep example (cost, profit and time do
    not matter to the selection). *)
Definition sweep_row (a : float) (name : string) (obj : float) : row :=
  {| alpha := a; algorithm := name; cost := 0; profit := obj;
     objective := obj; time := 1 |}.

(** The grid value 0.1, as the binary64 number Python reads it. *)
#[warnings="-inexact-float"]
Definition one_tenth : float := 0.1.

Definition example_sweep : list row :=
  [sweep_row 0 "A" 50; sweep_row 0 "B" 48;
   sweep_row one_tenth "A" 42; sweep_row one_tenth "B" 45].

(** Order of two labelled rows by their labels. *)
Definition label_lt (x y : nat * row) : Prop := (fst x < fst y)%nat.

(** What the running state of [idxmax] knows about the rows seen so far:
    nothing but NaN, or a first greatest objective. *)
Definition best_of (best : option (nat * float)) (seen : list (nat * row)) : Prop :=
  match best with
  | None => forall kr, In kr seen -> is_nan (objective (snd kr)) = true
  | Some (k, x) =>
      is_nan x = false /\
      exists pre r post,
        seen = pre ++ (k, r) :: post /\ objective r = x /\
        (forall kr, In kr pre -> is_nan (objective (snd kr)) = false ->
                    (objective (snd kr) <? x) = true) /\
        (forall kr, In kr post -> is_nan (objective (snd kr)) = false ->
                    (objective (snd kr) <=? x) = true)
  end.

Example best_per_alpha_example :
  map algorithm <$> best_per_alpha example_sweep = Some ["A"; "B"]%string.
Proof. reflexivity. Qed.

(** *** Labels of a group are increasing *)

Lemma enumerate_from_sorted (l : list row) (i : nat) :
  StronglySorted label_lt (enumerate_from i l).
Proof.
  revert i. induction l as [|x l IH]; intros i; simpl; constructor; auto.
  apply List.Forall_forall. intros [k y] Hin.
  apply enumerate_from_fst_lt in Hin. unfold label_lt. simpl. lia.
Qed.

Lemma filter_sorted (f : nat * row -> bool) (l : list (nat * row)) :
  StronglySorted label_lt l -> StronglySorted label_lt (List.filter f l).
Proof.
  induction 1 as [|x l Hl IH Hx]; simpl; [constructor|].
  destruct (f x); auto. constructor; auto.
  apply List.Forall_forall. intros y [Hy _]%filter_In.
  now apply (proj1 (List.Forall_forall _ _) Hx).
Qed.

Lemma sorted_split (pre post : list (nat * row)) (x : nat * row) :
  StronglySorted label_lt (pre ++ x :: post) ->
  (forall y, In y pre -> label_lt y x) /\ (forall y, In y post -> label_lt x y).
Proof.
  induction pre as [|z pre IH]; simpl; intros H; inversion H as [|? ? Hs Hall]; subst.
  - split; [intros y []|]. intros y Hy. now apply (proj1 (List.Forall_forall _ _) Hall).
  - destruct (IH Hs) as [Hpre Hpost]. split; [|exact Hpost].
    intros y [<-|Hy]; [|auto].
    apply (proj1 (List.Forall_forall _ _) Hall), in_app_iff. right. now left.
Qed.

Lemma in_group (df : list row) (a : float) (k : nat) (r : row) :
  In (k, r) (group df a) <-> nth_error df k = Some r /\ (alpha r =? a) = true.
Proof. unfold group. rewrite filter_In, in_enumerate. reflexivity. Qed.

(** *** The running maximum *)

Lemma idxmax_step_inv (best : option (nat * float)) (seen : list (nat * row))
    (kr : nat * row) :
  best_of best seen -> best_of (idxmax_step best kr) (seen ++ [kr]).
Proof.
  intros Hb. unfold idxmax_step. destruct (is_nan (objective (snd kr))) eqn:N.
  - destruct best as [[k x]|]; simpl in *.
    + destruct Hb as (Nx & pre & r & post & -> & Hr & Hpre & Hpost).
      split; [exact Nx|]. exists pre, r, (post ++ [kr]).
      rewrite <- app_assoc. simpl. repeat split; auto.
      intros y [Hy|[<-|[]]]%in_app_iff Ny; [auto|congruence].
    + intros y [Hy|[<-|[]]]%in_app_iff; auto.
  - destruct best as [[k x]|]; simpl in *.
    + destruct Hb as (Nx & pre & r & post & -> & Hr & Hpre & Hpost).
      destruct (x <? objective (snd kr)) eqn:L; simpl.
      * split; [exact N|]. exists (pre ++ (k, r) :: post), (snd kr), [].
        destruct kr as [j r']. simpl in *.
        repeat split; auto; try (intros y []; fail).
        intros y [Hy|[<-|Hy]]%in_app_iff Ny; simpl.
        -- eapply FloatOrder.ltb_trans; eauto.
        -- now rewrite Hr.
        -- eapply FloatOrder.leb_ltb_trans; eauto.
      * split; [exact Nx|]. exists pre, r, (post ++ [kr]).
        rewrite <- app_assoc. simpl. repeat split; auto.
        intros y [Hy|[<-|[]]]%in_app_iff Ny; [auto|].
        now apply FloatOrder.leb_total.
    + split; [exact N|]. exists seen, (snd kr), [].
      destruct kr as [j r']. simpl in *.
      repeat split; auto; try (intros y []; fail).
      intros y Hy Ny. rewrite (Hb y Hy) in Ny. discriminate.
Qed.

Lemma idxmax_fold_inv (g seen : list (nat * row)) (best : option (nat * float)) :
  best_of best seen -> best_of (fold_left idxmax_step g best) (seen ++ g).
Proof.
  revert seen best. induction g as [|kr g IH]; intros seen best Hb; simpl.
  - now rewrite app_nil_r.
  - replace (seen ++ kr :: g) with ((seen ++ [kr]) ++ g)
      by (rewrite <- app_assoc; reflexivity).
    apply IH. now apply idxmax_step_inv.
Qed.

Lemma group_sorted (df : list row) (a : float) :
  StronglySorted label_lt (group df a).
Proof. apply filter_sorted, enumerate_from_sorted. Qed.

Lemma fold_idxmax (df : list row) (a : float) :
  best_of (fold_left idxmax_step (group df a) None) (group df a).
Proof. apply (idxmax_fold_inv (group df a) [] None). intros kr []. Qed.

Lemma select_spec (df : list row) (a : float) (r : row) :
  select df a = Some r ->
  exists k, nth_error df k = Some r /\ (alpha r =? a) = true /\
    is_nan (objective r) = false /\
    forall j r', nth_error df j = Some r' -> (alpha r' =? a) = true ->
      is_nan (objective r') = false ->
      (objective r' <=? objective r) = true /\
      ((j < k)%nat -> (objective r' <? objective r) = true).
Proof.
  unfold select, idxmax. pose proof (fold_idxmax df a) as Hb.
  pose proof (group_sorted df a) as Hs.
  destruct (fold_left idxmax_step (group df a) None) as [[k x]|]; [|discriminate].
  simpl in Hb. destruct Hb as (Nx & pre & r0 & post & Hg & Hr0 & Hpre & Hpost).
  intros Hk. exists k.
  assert (Hin : In (k, r0) (group df a)) by (rewrite Hg; apply in_app_iff; right; now left).
  apply in_group in Hin as [Hk0 Ha]. rewrite Hk in Hk0. injection Hk0 as <-.
  subst x. repeat split; auto.
  - assert (Hj : In (j, r') (group df a)) by (apply in_group; auto).
    rewrite Hg in Hj. apply in_app_iff in Hj as [Hj|[Hj|Hj]].
    + apply FloatOrder.ltb_leb, (Hpre _ Hj). assumption.
    + injection Hj as <- <-. now apply FloatOrder.leb_refl.
    + apply (Hpost _ Hj). assumption.
  - intros Hlt. assert (Hj : In (j, r') (group df a)) by (apply in_group; auto).
    rewrite Hg in Hj, Hs. destruct (sorted_split _ _ _ Hs) as [_ Hafter].
    apply in_app_iff in Hj as [Hj|[Hj|Hj]].
    + apply (Hpre _ Hj). assumption.
    + injection Hj as <- <-. lia.
    + specialize (Hafter _ Hj). unfold label_lt in Hafter. simpl in Hafter. lia.
Qed.

Lemma select_defined (df : list row) (a : float) (j : nat) (r' : row) :
  nth_error df j = Some r' -> (alpha r' =? a) = true ->
  is_nan (objective r') = false -> exists r, select df a = Some r.
Proof.
  intros Hj Ha Hn. unfold select, idxmax. pose proof (fold_idxmax df a) as Hb.
  destruct (fold_left idxmax_step (group df a) None) as [[k x]|]; simpl in Hb.
  - destruct Hb as (_ & pre & r0 & post & Hg & _).
    assert (Hin : In (k, r0) (group df a)) by (rewrite Hg; apply in_app_iff; right; now left).
    apply in_group in Hin as [Hk _]. eauto.
  - assert (Hin : In (j, r') (group df a)) by (apply in_group; auto).
    apply Hb in Hin. simpl in Hin. congruence.
Qed.

(** *** Group keys *)

Lemma in_insert_key (x a : float) (l : list float) :
  In x (insert_key a l) -> x = a \/ In x l.
Proof.
  induction l as [|b l IH]; simpl.
  - intros [<-|[]]. now left.
  - destruct (a =? b); [auto|]. destruct (a <? b); simpl.
    + intros [<-|H]; auto.
    + intros [<-|H]; [auto|]. destruct (IH H); auto.
Qed.

Lemma insert_key_keeps (b a : float) (l : list float) :
  In b l -> In b (insert_key a l).
Proof.
  induction l as [|c l IH]; simpl; [tauto|].
  destruct (a =? c); [auto|]. destruct (a <? c); simpl; [auto|].
  intros [->|H]; auto.
Qed.

Lemma insert_key_covers (a : float) (l : list float) :
  is_nan a = false -> exists b, In b (insert_key a l) /\ (a =? b) = true.
Proof.
  intros N. induction l as [|c l IH]; simpl.
  - exists a. split; [now left|now apply FloatOrder.eqb_refl].
  - destruct (a =? c) eqn:E; [exists c; split; [now left|exact E]|].
    destruct (a <? c).
    + exists a. split; [now left|now apply FloatOrder.eqb_refl].
    + destruct IH as (b & Hb & Eb). exists b. split; [now right|exact Eb].
Qed.

Lemma group_keys_in (df : list row) (a : float) :
  In a (group_keys df) -> exists r, In r df /\ alpha r = a.
Proof.
  unfold group_keys.
  assert (G : forall xs, In a (fold_right insert_key [] xs) -> In a xs).
  { induction xs as [|x xs IH]; simpl; [tauto|].
    intros [->|H]%in_insert_key; auto. }
  intros [Hin _]%G%filter_In. apply in_map_iff in Hin as (r & <- & Hr). eauto.
Qed.

Lemma group_keys_cover (df : list row) (r : row) :
  In r df -> is_nan (alpha r) = false ->
  exists a, In a (group_keys df) /\ (alpha r =? a) = true.
Proof.
  intros Hr N. unfold group_keys.
  assert (Hin : In (alpha r) (List.filter (fun a => negb (is_nan a)) (map alpha df))).
  { apply filter_In. split; [now apply in_map|]. now rewrite N. }
  revert Hin. generalize (List.filter (fun a => negb (is_nan a)) (map alpha df)).
  induction l as [|x xs IH]; simpl; [tauto|]. intros [->|Hin].
  - now apply insert_key_covers.
  - destruct (IH Hin) as (b & Hb & Eb). exists b. split; [|exact Eb].
    now apply insert_key_keeps.
Qed.

Lemma select_all_spec (df : list row) (ks : list float) (rs : list row) :
  select_all df ks = Some rs ->
  (forall r, In r rs -> exists a, In a ks /\ select df a = Some r) /\
  (forall a, In a ks -> exists r, In r rs /\ select df a = Some r).
Proof.
  revert rs. induction ks as [|a ks IH]; simpl; intros rs H.
  - injection H as <-. split; [intros r []|intros a []].
  - destruct (select df a) as [r|] eqn:Ea; [|discriminate].
    destruct (select_all df ks) as [rs'|]; [|discriminate]. injection H as <-.
    destruct (IH rs' eq_refl) as [IH1 IH2]. split.
    + intros r' [<-|Hr']; [exists a; auto|].
      destruct (IH1 r' Hr') as (a' & Ha' & E). exists a'. auto.
    + intros a' [<-|Ha']; [exists r; split; [now left|exact Ea]|].
      destruct (IH2 a' Ha') as (r' & Hr' & E). exists r'. split; [now right|exact E].
Qed.

Lemma select_all_defined (df : list row) (ks : list float) :
  (forall a, In a ks -> exists r, select df a = Some r) ->
  exists rs, select_all df ks = Some rs.
Proof.
  induction ks as [|a ks IH]; simpl; intros H; [eauto|].
  destruct (H a (or_introl eq_refl)) as [r ->].
  destruct IH as [rs ->]; [intros; apply H; now right|]. eauto.
Qed.

(** A tie on the maximum goes to the row that comes first in the frame, not
    to the lexicographically smallest algorithm name. *)
Lemma tie_goes_to_first_row :
  map algorithm <$> best_per_alpha [sweep_row 0 "B" 50; sweep_row 0 "A" 50]
    = Some ["B"%string] /\
  String.ltb "A" "B" = true.
Proof. split; reflexivity. Qed.

(** C5 (amended in the tie-break).  When [best_per_alpha] returns, every
    selected row is a row of the frame whose objective is present and is the
    greatest present objective of its alpha group; among the rows tying on
    that maximum it is the first in frame order (every earlier row of the
    group has a strictly smaller objective); every alpha value of the frame
    has a selected row; the selection is returned whenever every group holds
    a present objective; and on the example grid it is {0.0: A, 0.1: B}. *)
Theorem best_per_alpha_first_max :
  (forall (df best : list row), best_per_alpha df = Some best ->
     (forall r, In r best ->
        exists k, nth_error df k = Some r /\ is_nan (objective r) = false /\
          forall j r', nth_error df j = Some r' -> (alpha r' =? alpha r) = true ->
            is_nan (objective r') = false ->
            (objective r' <=? objective r) = true /\
            ((j < k)%nat -> (objective r' <? objective r) = true)) /\
     (forall r0, In r0 df -> is_nan (alpha r0) = false ->
        exists r, In r best /\ (alpha r0 =? alpha r) = true)) /\
  (forall df : list row,
     (forall r0, In r0 df -> is_nan (alpha r0) = false ->
        exists r', In r' df /\ (alpha r' =? alpha r0) = true /\
                   is_nan (objective r') = false) ->
     exists best, best_per_alpha df = Some best) /\
  map algorithm <$> best_per_alpha example_sweep = Some ["A"; "B"]%string.
Proof.
  split; [|split; [|reflexivity]].
  - intros df best Hbest. unfold best_per_alpha in Hbest.
    destruct (select_all_spec _ _ _ Hbest) as [Hin Hcover]. split.
    + intros r Hr. destruct (Hin r Hr) as (a & _ & Ha).
      destruct (select_spec _ _ _ Ha) as (k & Hk & Era & Nr & Hmax).
      exists k. repeat split; auto; intros;
        apply (Hmax j r'); auto; eapply FloatOrder.eqb_trans; eauto.
    + intros r0 Hr0 N0. destruct (group_keys_cover df r0 Hr0 N0) as (a & Ha & E0).
      destruct (Hcover a Ha) as (r & Hr & Es). exists r. split; [exact Hr|].
      destruct (select_spec _ _ _ Es) as (_ & _ & Era & _).
      eapply FloatOrder.eqb_trans; [exact E0|now apply FloatOrder.eqb_sym].
  - intros df Hall. apply select_all_defined. intros a Ha.
    destruct (group_keys_in df a Ha) as (r0 & Hr0 & <-).
    assert (N0 : is_nan (alpha r0) = false).
    { unfold group_keys in Ha.
      assert (G : forall xs x, In x (fold_right insert_key [] xs) -> In x xs).
      { induction xs as [|y xs IH]; simpl; [tauto|].
        intros x [->|H]%in_insert_key; auto. }
      apply G, filter_In in Ha as [_ Ha]. now apply negb_true_iff in Ha. }
    destruct (Hall r0 Hr0 N0) as (r' & Hr' & E & N').
    apply In_nth_error in Hr' as [j Hj]. eapply select_defined; eauto.
Qed.

(** The theorem at the example of the specification. *)
Lemma best_per_alpha_first_max_witness :
  best_per_alpha example_sweep = Some [sweep_row 0 "A" 50; sweep_row one_tenth "B" 45] /\
  forall r0, In r0 example_sweep -> is_nan (alpha r0) = false ->
    exists r, In r [sweep_row 0 "A" 50; sweep_row one_tenth "B" 45] /\
              (alpha r0 =? alpha r) = true.
Proof.
  assert (H : best_per_alpha example_sweep
              = Some [sweep_row 0 "A" 50; sweep_row one_tenth "B" 45]) by reflexivity.
  split; [exact H|].
  exact (proj2 (proj1 best_per_alpha_first_max example_sweep _ H)).
Defined.

End Sensitivity.

(** ** Python string operations (ASCII strings) *)
Module PyStr.
Local Open Scope string_scope.

(** [sub in s] *)
Fixpoint contains (sub s : string) : bool :=
  String.prefix sub s ||
  match s with
  | EmptyString => false
  | String _ s' => contains sub s'
  end.

(** [s.startswith(p)] and [s.endswith(p)] *)
Definition startswith (s p : string) : bool := String.prefix p s.

Fixpoint endswith (s p : string) : bool :=
  String.eqb s p ||
  match s with
  | EmptyString => false
  | String _ s' => endswith s' p
  end.

(** [s.split(c)] for a one-character separator. *)
Fixpoint split_on (c : ascii) (s : string) : list string :=
  match s with
  | EmptyString => [EmptyString]
  | String a s' =>
      if Ascii.eqb a c then EmptyString :: split_on c s'
      else match split_on c s' with
           | [] => [String a EmptyString]
           | w :: ws => String a w :: ws
           end
  end.

(** [s.rfind(c)] for a character; [None] stands for -1. *)
Fixpoint rfind (c : ascii) (s : string) : option nat :=
  match s with
  | EmptyString => None
  | String a s' =>
      match rfind c s' with
      | Some i => Some (S i)
      | None => if Ascii.eqb a c then Some 0%nat else None
      end
  end.

(** [PurePath.stem] of a file name: the name without its last suffix; a
    leading or trailing dot starts no suffix. *)
Definition path_stem (name : string) : string :=
  match rfind "." name with
  | Some i =>
      if (0 <? i)%nat && (i <? String.length name - 1)%nat
      then String.substring 0 i name else name
  | None => name
  end.

(** [s.lower()] *)
Definition lower_char (c : ascii) : ascii :=
  let n := nat_of_ascii c in
  if (65 <=? n)%nat && (n <=? 90)%nat then ascii_of_nat (n + 32) else c.

Fixpoint lower (s : string) : string :=
  match s with
  | EmptyString => EmptyString
  | String c s' => String (lower_char c) (lower s')
  end.

(** Whitespace as [str.strip()] sees it, within ASCII. *)
Definition is_space (c : ascii) : bool :=
  let n := nat_of_ascii c in
  ((9 <=? n)%nat && (n <=? 13)%nat) || ((28 <=? n)%nat && (n <=? 32)%nat).

Fixpoint lstrip (s : string) : string :=
  match s with
  | EmptyString => EmptyString
  | String c s' => if is_space c then lstrip s' else s
  end.

Fixpoint rstrip (s : string) : string :=
  match s with
  | EmptyString => EmptyString
  | String c s' =>
      match rstrip s' with
      | EmptyString => if is_space c then EmptyString else String c EmptyString
      | r => String c r
      end
  end.

Definition strip (s : string) : string := rstrip (lstrip s).

Example path_stem_json : path_stem "n100q45A_nn_run0.json" = "n100q45A_nn_run0".
Proof. reflexivity. Qed.

Example path_stem_hidden : path_stem ".json" = ".json".
Proof. reflexivity. Qed.

Example split_on_example :
  split_on "_" "n100q45A_nn_run0" = ["n100q45A"; "nn"; "run0"].
Proof. reflexivity. Qed.

Example split_on_edges : split_on "_" "_a_" = [""; "a"; ""] /\ split_on "_" "" = [""].
Proof. split; reflexivity. Qed.

Example strip_example : strip "  ILS 2 " = "ILS 2" /\ lower "Two-Opt" = "two-opt".
Proof. split; reflexivity. Qed.

Lemma split_on_nonempty (c : ascii) (s : string) : split_on c s <> [].
Proof.
  destruct s as [|a s]; simpl; [discriminate|].
  destruct (Ascii.eqb a c); [discriminate|].
  destruct (split_on c s); discriminate.
Qed.

(** When the separator occurs, [split] yields at least two pieces, so index
    1 exists. *)
Lemma split_on_second (c : ascii) (s : string) :
  contains (String c EmptyString) s = true ->
  exists w, nth_error (split_on c s) 1 = Some w.
Proof.
  induction s as [|a s IH]; simpl; [discriminate|].
  destruct (ascii_dec c a) as [->|Hne].
  - intros _. rewrite Ascii.eqb_refl. simpl.
    pose proof (split_on_nonempty a s). destruct (split_on a s); [contradiction|eauto].
  - simpl. intros H. destruct (Ascii.eqb_spec a c) as [->|_]; [contradiction|].
    destruct (IH H) as [w Hw].
    destruct (split_on c s) as [|w0 [|w1 ws]]; simpl in *; try discriminate. eauto.
Qed.

End PyStr.

(** ** Result normalisation (the artifact loop of scripts/aggregate_results.py) *)
Module Normalizer.
Import PyStr.
Local Open Scope string_scope.

(** A value read by [json.load]. *)
#[warnings="-register-all"]
Inductive json :=
  | JNull
  | JBool (b : bool)
  | JInt (n : Z)
  | JFloat (x : float)
  | JStr (s : string)
  | JList (l : list json)
  | JObj (l : list (string * json)).

(** Python truth value: [None], [False], zero, the empty string and the
    empty containers are false. *)
Definition truthy (v : json) : bool :=
  match v with
  | JNull => false
  | JBool b => b
  | JInt n => negb (Z.eqb n 0)
  | JFloat x => negb (PrimFloat.eqb x 0%float)
  | JStr s => negb (String.eqb s "")
  | JList l => match l with [] => false | _ => true end
  | JObj l => match l with [] => false | _ => true end
  end.

(** [j.get(k)]: [None] when the key is missing. *)
Definition get (j : gmap string json) (k : string) : json := default JNull (j !! k).

(** [a or b] *)
Definition py_or (a b : json) : json := if truthy a then a else b.

(** [jf.name] and [jf.stem] of a path given by its parts. *)
Definition name_of (parts : list string) : string := List.last parts "".
Definition stem_of (parts : list string) : string := path_stem (name_of parts).

(** [alg = j.get('algorithm') or j.get('Algorithm') or jf.stem.split('_')[1]
            if '_' in jf.stem else jf.stem]:
    the conditional expression is the outermost operator.  The index is
    evaluated only when both fields are false; [None] is its [IndexError]. *)
Definition alg (j : gmap string json) (stem : string) : option json :=
  if contains "_" stem then
    let a := py_or (get j "algorithm") (get j "Algorithm") in
    if truthy a then Some a
    else match nth_error (split_on "_" stem) 1 with
         | Some w => Some (JStr w)
         | None => None
         end
  else Some (JStr stem).

(** [cost = j.get('cost') or j.get('travel_cost') or j.get('Cost')] *)
Definition cost (j : gmap string json) : json :=
  py_or (py_or (get j "cost") (get j "travel_cost")) (get j "Cost").

(** [time = j.get('computation_time') or j.get('time') or j.get('computationTime')] *)
Definition time (j : gmap string json) : json :=
  py_or (py_or (get j "computation_time") (get j "time")) (get j "computationTime").

(** [feasible = 1 if j.get('feasible') else 0] *)
Definition feasible (j : gmap string json) : Z :=
  if truthy (get j "feasible") then 1 else 0.

(** [iterations = j.get('iterations') if j.get('iterations') is not None else ''] *)
Definition iterations (j : gmap string json) : json :=
  match get j "iterations" with
  | JNull => JStr ""
  | v => v
  end.

(** The test of the folder loop: ['_' in p and p.startswith('n')]. *)
Definition qualifies (p : string) : bool := contains "_" p && startswith p "n".

(** [for p in parts[::-1]: if ...: cf = p.split('_')[-1]; break] *)
Definition folder_guess (parts : list string) : option string :=
  match List.find qualifies (rev parts) with
  | Some p => Some (List.last (split_on "_" p) "")
  | None => None
  end.

(** The last step: the suffix of the stem, else [distance]. *)
Definition suffix_guess (stem : string) : json :=
  if endswith stem "_quadratic" then JStr "quadratic"
  else if endswith stem "_linear-load" || endswith stem "_linear_load"
       then JStr "linear-load"
  else JStr "distance".

(** The three steps that set [cf]. *)
Definition cost_function (parts : list string) (j : gmap string json) : json :=
  let cf := py_or (get j "cost_function") (get j "costFunction") in
  let cf := if truthy cf then cf
            else match folder_guess parts with
                 | Some s => JStr s
                 | None => cf
                 end in
  if truthy cf then cf else suffix_guess (stem_of parts).

(** One row of [rows]. *)
Record result_row := {
  r_instance : string;
  r_algorithm : json;
  r_cost : json;
  r_time : json;
  r_feasible : Z;
  r_iterations : json;
  r_cost_function : json
}.

(** The body of the artifact loop for a payload that is a JSON object. *)
Definition normalize (parts : list string) (j : gmap string json) : option result_row :=
  match alg j (stem_of parts), head (split_on "_" (stem_of parts)) with
  | Some a, Some instance =>
      Some {| r_instance := instance; r_algorithm := a; r_cost := cost j;
              r_time := time j; r_feasible := feasible j;
              r_iterations := iterations j;
              r_cost_function := cost_function parts j |}
  | _, _ => None
  end.

(** *** Alias resolution as the specification words it *)

(** The first alias, in priority order, that is present in the artifact. *)
Fixpoint first_present (aliases : list string) (j : gmap string json) : option json :=
  match aliases with
  | [] => None
  | k :: rest =>
      match j !! k with
      | Some v => Some v
      | None => first_present rest j
      end
  end.

(** The cost function as the specification orders it: explicit field, then
    the suffix of the run tag, then [distance]. *)
Definition cost_function_spec (parts : list string) (j : gmap string json) : json :=
  let cf := py_or (get j "cost_function") (get j "costFunction") in
  if truthy cf then cf else suffix_guess (stem_of parts).

(** A payload with a zero cost and a travel cost, and one whose computation
    time is 0.0. *)
Definition zero_cost_payload : gmap string json :=
  list_to_map [("cost", JInt 0); ("travel_cost", JInt 5)].

Definition zero_time_payload : gmap string json :=
  list_to_map [("computation_time", JFloat 0); ("computationTime", JFloat 3)].

Example normalize_example :
  normalize ["results"; "x"; "n100q45A_nn_run0.json"]
    (list_to_map [("algorithm", JStr "NearestNeighbor"); ("cost", JFloat 1250.5);
                  ("computation_time", JFloat 0.25); ("feasible", JBool true);
                  ("cost_function", JStr "distance")])
  = Some {| r_instance := "n100q45A"; r_algorithm := JStr "NearestNeighbor";
            r_cost := JFloat 1250.5; r_time := JFloat 0.25; r_feasible := 1;
            r_iterations := JStr ""; r_cost_function := JStr "distance" |}.
Proof. reflexivity. Qed.

(** *** Lemmas *)

Lemma py_or_chain (a b c : json) :
  py_or (py_or a b) c = default c (List.find truthy [a; b]).
Proof.
  unfold py_or. simpl. destruct (truthy a) eqn:A; [now rewrite A|].
  now destruct (truthy b).
Qed.

Lemma name_of_snoc (dirs : list string) (name : string) :
  name_of (dirs ++ [name]) = name.
Proof. unfold name_of. apply last_last. Qed.

Lemma folder_guess_snoc (dirs : list string) (name : string) :
  qualifies name = false ->
  folder_guess (dirs ++ [name]) = folder_guess dirs.
Proof.
  intros Hq. unfold folder_guess. rewrite rev_app_distr. simpl. now rewrite Hq.
Qed.

(** **** C6 *)

(** The claim as first stated fails: a zero stored under the first alias is
    present but does not win; the chain moves on to a later alias. *)
Lemma falsy_alias_is_skipped :
  first_present ["cost"; "travel_cost"; "Cost"] zero_cost_payload = Some (JInt 0) /\
  cost zero_cost_payload = JInt 5 /\
  first_present ["computation_time"; "time"; "computationTime"] zero_time_payload
    = Some (JFloat 0) /\
  time zero_time_payload = JFloat 3.
Proof. repeat split. Qed.

(** C6 (amended): each aliased field is resolved by its fixed alias list in
    priority order, taking the first alias whose value is true in Python's
    sense (present and not null, zero, false or empty), and the value of the
    last alias (null when missing) when none is; so a true value under a
    higher-priority alias wins over every lower-priority one, while a
    missing, null, 0, 0.0, false or empty one is passed over.  For the
    algorithm name the chain is the two payload fields and then the second
    piece of the file stem, and it applies when the stem holds an
    underscore. *)
Theorem alias_chain_first_truthy :
  forall j : gmap string json,
    cost j = default (get j "Cost")
               (List.find truthy [get j "cost"; get j "travel_cost"]) /\
    time j = default (get j "computationTime")
               (List.find truthy [get j "computation_time"; get j "time"]) /\
    (forall stem, contains "_" stem = true ->
       exists w, nth_error (split_on "_" stem) 1 = Some w /\
         alg j stem = Some (default (JStr w)
                              (List.find truthy [get j "algorithm"; get j "Algorithm"]))) /\
    (forall v, j !! "cost" = Some v -> truthy v = true -> cost j = v) /\
    (forall v, j !! "cost" = Some v -> truthy v = false ->
       cost j = py_or (get j "travel_cost") (get j "Cost")).
Proof.
  intros j. split; [apply py_or_chain|]. split; [apply py_or_chain|]. split; [|split].
  - intros stem Hc. destruct (split_on_second "_" stem Hc) as [w Hw].
    exists w. split; [exact Hw|]. unfold alg. rewrite Hc, Hw. unfold py_or. simpl.
    destruct (truthy (get j "algorithm")) eqn:A; [now rewrite A|].
    now destruct (truthy (get j "Algorithm")).
  - intros v Hv Ht. unfold cost, py_or, get. rewrite Hv. simpl. now rewrite Ht, Ht.
  - intros v Hv Ht. unfold cost, py_or, get. rewrite Hv. simpl. now rewrite Ht.
Qed.

(** The theorem at the zero-cost payload. *)
Lemma alias_chain_first_truthy_witness :
  zero_cost_payload !! "cost" = Some (JInt 0) /\ truthy (JInt 0) = false /\
  cost zero_cost_payload
    = py_or (get zero_cost_payload "travel_cost") (get zero_cost_payload "Cost").
Proof.
  assert (H : zero_cost_payload !! "cost" = Some (JInt 0)) by reflexivity.
  split; [exact H|]. split; [reflexivity|].
  exact (proj2 (proj2 (proj2 (proj2 (alias_chain_first_truthy zero_cost_payload))))
           (JInt 0) H eq_refl).
Defined.

(** **** C10 *)

(** C10: when the file stem holds no underscore, the whole stem is the
    algorithm name, whatever the payload says under [algorithm] or
    [Algorithm]; the row is then built with that name. *)
Theorem alg_is_stem_without_underscore :
  forall (parts : list string) (j : gmap string json),
    contains "_" (stem_of parts) = false ->
    alg j (stem_of parts) = Some (JStr (stem_of parts)) /\
    exists row, normalize parts j = Some row /\
                r_algorithm row = JStr (stem_of parts).
Proof.
  intros parts j Hc. assert (Ha : alg j (stem_of parts) = Some (JStr (stem_of parts)))
    by (unfold alg; now rewrite Hc).
  split; [exact Ha|]. unfold normalize. rewrite Ha.
  pose proof (split_on_nonempty "_" (stem_of parts)) as Hne.
  destruct (split_on "_" (stem_of parts)) as [|w ws]; [contradiction|]. simpl. eauto.
Qed.

(** The theorem at an artifact [results/ILS.json] that names another
    algorithm in its payload. *)
Lemma alg_is_stem_without_underscore_witness :
  contains "_" (stem_of ["results"; "ILS.json"]) = false /\
  alg (list_to_map [("algorithm", JStr "TabuSearch")]) (stem_of ["results"; "ILS.json"])
    = Some (JStr "ILS").
Proof.
  split; [reflexivity|].
  exact (proj1 (alg_is_stem_without_underscore ["results"; "ILS.json"]
                  (list_to_map [("algorithm", JStr "TabuSearch")]) eq_refl)).
Defined.

(** **** C7 *)

(** The claim as first stated fails: between the explicit field and the
    suffix of the stem the code looks at the enclosing folders, so an
    artifact without a label under [results/n50_single/] gets [single],
    where the stated order gives [distance]. *)
Lemma folder_name_comes_before_suffix :
  cost_function ["results"; "n50_single"; "tour.json"] ∅ = JStr "single" /\
  cost_function_spec ["results"; "n50_single"; "tour.json"] ∅ = JStr "distance".
Proof. split; reflexivity. Qed.

(** C7 (amended).  For an artifact whose own file name is not taken for a
    folder (it holds no underscore or does not start with [n]), the cost
    function is, in this order: (a) the explicit field ([cost_function],
    then [costFunction]) when it is true in Python's sense; (a') otherwise
    the part after the last underscore of the nearest enclosing folder whose
    name holds an underscore and starts with [n], when that part is not
    empty; (b) otherwise [quadratic] for a stem ending in [_quadratic] and
    [linear-load] for one ending in [_linear-load] or [_linear_load];
    (c) otherwise [distance]. *)
Theorem cost_function_order :
  forall (dirs : list string) (name : string) (j : gmap string json),
    let explicit := py_or (get j "cost_function") (get j "costFunction") in
    let stem := path_stem name in
    (truthy explicit = true -> cost_function (dirs ++ [name]) j = explicit) /\
    (truthy explicit = false -> qualifies name = false ->
       (forall p, List.find qualifies (rev dirs) = Some p ->
          List.last (split_on "_" p) "" <> "" ->
          cost_function (dirs ++ [name]) j = JStr (List.last (split_on "_" p) "")) /\
       ((List.find qualifies (rev dirs) = None \/
         exists p, List.find qualifies (rev dirs) = Some p /\
                   List.last (split_on "_" p) "" = "") ->
        cost_function (dirs ++ [name]) j =
          if endswith stem "_quadratic" then JStr "quadratic"
          else if endswith stem "_linear-load" || endswith stem "_linear_load"
               then JStr "linear-load"
          else JStr "distance")).
Proof.
  intros dirs name j explicit stem. split.
  - intros Ht. unfold cost_function. fold explicit. now rewrite Ht, Ht.
  - intros Hf Hq. unfold cost_function. fold explicit. rewrite Hf.
    rewrite (folder_guess_snoc _ _ Hq). unfold folder_guess, stem_of.
    rewrite name_of_snoc. fold stem. split.
    + intros p Hp Hlast. rewrite Hp. simpl.
      destruct (String.eqb_spec (List.last (split_on "_" p) "") ""); [contradiction|].
      reflexivity.
    + intros [Hnone|(p & Hp & Hlast)].
      * rewrite Hnone, Hf. reflexivity.
      * rewrite Hp, Hlast. reflexivity.
Qed.

(** The theorem at an unlabelled artifact of a quadratic run folder. *)
Lemma cost_function_order_witness :
  truthy (py_or (get (∅ : gmap string json) "cost_function") (get ∅ "costFunction")) = false /\
  qualifies "tour.json" = false /\
  List.find qualifies (rev ["results"; "n100q45_quadratic"]) = Some "n100q45_quadratic" /\
  cost_function (["results"; "n100q45_quadratic"] ++ ["tour.json"]) ∅ = JStr "quadratic".
Proof.
  split; [reflexivity|]. split; [reflexivity|]. split; [reflexivity|].
  refine (proj1 (proj2 (cost_function_order ["results"; "n100q45_quadratic"]
                          "tour.json" ∅) eq_refl eq_refl) "n100q45_quadratic" eq_refl _).
  discriminate.
Defined.

End Normalizer.

(** ** Algorithm-name canonicalisation ([alg_short],
       scripts/compare_linear_quadratic.py, and [normalize_algo],
       report/analyze_and_plot.py) *)
Module Canon.
Import PyStr.
Local Open Scope string_scope.

(** *** [alg_short]: [.str.replace('-run\d+','',regex=True)], then
    [.str.replace] of the double-quote character by nothing, then
    [.str.strip()] *)

Definition is_digit (c : ascii) : bool :=
  let n := nat_of_ascii c in (48 <=? n)%nat && (n <=? 57)%nat.

(** The pattern [-run\d+] matches at the start of [s]. *)
Definition run_tag_here (s : string) : bool :=
  match s with
  | String "-" (String "r" (String "u" (String "n" (String d _)))) => is_digit d
  | _ => false
  end.

(** The pattern matches somewhere in [s]. *)
Fixpoint has_run_tag (s : string) : bool :=
  run_tag_here s ||
  match s with
  | EmptyString => false
  | String _ s' => has_run_tag s'
  end.

(** [re.sub('-run\d+', '', s)] as one left-to-right pass.  [Scan]: looking
    for a match; [Skip n]: inside the literal part of a match, [n]
    characters of it still to drop; [Digits]: dropping the digits of a
    match, as many as follow. *)
Inductive mode := Scan | Skip (n : nat) | Digits.

Fixpoint sub_run_tags (m : mode) (s : string) : string :=
  match s with
  | EmptyString => EmptyString
  | String c s' =>
      let scan := if run_tag_here s then sub_run_tags (Skip 3) s'
                  else String c (sub_run_tags Scan s') in
      match m with
      | Scan => scan
      | Skip (S (S n)) => sub_run_tags (Skip (S n)) s'
      | Skip _ => sub_run_tags Digits s'
      | Digits => if is_digit c then sub_run_tags Digits s' else scan
      end
  end.

(** [s.replace(q, '')] with [q] the double-quote character (code 34). *)
Fixpoint remove_quotes (s : string) : string :=
  match s with
  | EmptyString => EmptyString
  | String c s' =>
      if Ascii.eqb c "034"%char then remove_quotes s' else String c (remove_quotes s')
  end.

Definition alg_short (algorithm : string) : string :=
  strip (remove_quotes (sub_run_tags Scan algorithm)).

(** *** [normalize_algo] *)

Definition normalize_str (name : string) : string :=
  let s := lower name in
  if contains "exact" s || contains "gurobi" s then "Exact"
  else if contains "memetic" s then "Memetic"
  else if contains "genetic" s || String.eqb s "ga"
          || (contains "ga" s && negb (contains "m" s)) then "GA"
  else if contains "mmas" s then "MMAS"
  else if contains "aco" s && negb (contains "mmas" s) then "ACO"
  else if contains "hybrid" s then "Hybrid"
  else if String.eqb s "nn" || String.eqb s "nnheuristic"
          || String.eqb s "nearestneighbor" then "NN"
  else name.

(** [None] is a missing name ([pd.isna(name)]), returned as it is. *)
Definition normalize_algo (name : option string) : option string :=
  match name with
  | None => None
  | Some n => Some (normalize_str n)
  end.

(** The digits a match swallows. *)
Fixpoint drop_digits (s : string) : string :=
  match s with
  | EmptyString => EmptyString
  | String c s' => if is_digit c then drop_digits s' else s
  end.

(** No double-quote character in [s]. *)
Fixpoint quote_free (s : string) : bool :=
  match s with
  | EmptyString => true
  | String c s' => negb (Ascii.eqb c "034"%char) && quote_free s'
  end.

(** [s] begins with a blank. *)
Definition starts_blank (s : string) : bool :=
  match s with
  | EmptyString => false
  | String c _ => is_space c
  end.

Example alg_short_examples :
  alg_short "ILS-run0" = "ILS" /\ alg_short "two-opt-run12" = "two-opt" /\
  alg_short " ACO-run3 " = "ACO" /\ alg_short "GreedyInsertion" = "GreedyInsertion" /\
  alg_short "A-run1B-run22-runX" = "AB-runX".
Proof. repeat split. Qed.

Example normalize_algo_examples :
  normalize_algo (Some "Gurobi-Exact") = Some "Exact" /\
  normalize_algo (Some "GeneticAlgorithm") = Some "GA" /\
  normalize_algo (Some "MMAS-run0") = Some "MMAS" /\
  normalize_algo (Some "TabuSearch") = Some "TabuSearch" /\
  normalize_algo None = None.
Proof. repeat split. Qed.

(** *** The pass is [re.sub]: after a match it resumes behind the digits *)

Lemma sub_run_tags_digits (s : string) :
  sub_run_tags Digits s = sub_run_tags Scan (drop_digits s).
Proof.
  induction s as [|c s IH]; [reflexivity|].
  simpl. destruct (is_digit c); [exact IH|reflexivity].
Qed.

Lemma sub_run_tags_match (d : ascii) (rest : string) :
  is_digit d = true ->
  sub_run_tags Scan (String "-" (String "r" (String "u" (String "n" (String d rest)))))
  = sub_run_tags Scan (drop_digits rest).
Proof.
  intros Hd. simpl. rewrite Hd. apply sub_run_tags_digits.
Qed.

Lemma sub_run_tags_scan (c : ascii) (s : string) :
  sub_run_tags Scan (String c s) =
  if run_tag_here (String c s) then sub_run_tags (Skip 3) s
  else String c (sub_run_tags Scan s).
Proof. reflexivity. Qed.

Lemma sub_run_tags_no_match (c : ascii) (s : string) :
  run_tag_here (String c s) = false ->
  sub_run_tags Scan (String c s) = String c (sub_run_tags Scan s).
Proof. intros H. now rewrite sub_run_tags_scan, H. Qed.

(** *** Lengths *)

Lemma sub_run_tags_length (m : mode) (s : string) :
  (String.length (sub_run_tags m s) <= String.length s)%nat.
Proof.
  revert m. induction s as [|c s IH]; intros m; [simpl; lia|].
  assert (Hscan : (String.length (if run_tag_here (String c s)
                                  then sub_run_tags (Skip 3) s
                                  else String c (sub_run_tags Scan s))
                   <= S (String.length s))%nat).
  { destruct (run_tag_here (String c s)); simpl;
      [specialize (IH (Skip 3))|specialize (IH Scan)]; lia. }
  change (sub_run_tags m (String c s)) with
    (match m with
     | Scan => if run_tag_here (String c s) then sub_run_tags (Skip 3) s
               else String c (sub_run_tags Scan s)
     | Skip (S (S n)) => sub_run_tags (Skip (S n)) s
     | Skip _ => sub_run_tags Digits s
     | Digits => if is_digit c then sub_run_tags Digits s
                 else if run_tag_here (String c s) then sub_run_tags (Skip 3) s
                      else String c (sub_run_tags Scan s)
     end).
  simpl String.length.
  destruct m as [|[|[|n]]|]; try exact Hscan;
    try (destruct (is_digit c); [|exact Hscan]);
    match goal with |- context [sub_run_tags ?m' s] => specialize (IH m') end; lia.
Qed.

Lemma sub_run_tags_shrinks (s : string) :
  has_run_tag s = true ->
  (String.length (sub_run_tags Scan s) < String.length s)%nat.
Proof.
  induction s as [|c s IH]; [discriminate|].
  change (has_run_tag (String c s)) with (run_tag_here (String c s) || has_run_tag s).
  destruct (run_tag_here (String c s)) eqn:Hr.
  - intros _. rewrite sub_run_tags_scan, Hr. pose proof (sub_run_tags_length (Skip 3) s). simpl String.length. lia.
  - simpl orb. intros H. rewrite (sub_run_tags_no_match _ _ Hr).
    specialize (IH H). simpl. lia.
Qed.

Lemma sub_run_tags_id (s : string) :
  has_run_tag s = false -> sub_run_tags Scan s = s.
Proof.
  induction s as [|c s IH]; [reflexivity|].
  change (has_run_tag (String c s)) with (run_tag_here (String c s) || has_run_tag s).
  intros [Hr Hs]%orb_false_iff.
  rewrite (sub_run_tags_no_match _ _ Hr). now rewrite IH.
Qed.

Lemma remove_quotes_length (s : string) :
  (String.length (remove_quotes s) <= String.length s)%nat.
Proof.
  induction s as [|c s IH]; simpl; [lia|].
  destruct (Ascii.eqb c "034"); simpl; lia.
Qed.

Lemma lstrip_length (s : string) : (String.length (lstrip s) <= String.length s)%nat.
Proof.
  induction s as [|c s IH]; simpl; [lia|]. destruct (is_space c); simpl; lia.
Qed.

Lemma rstrip_length (s : string) : (String.length (rstrip s) <= String.length s)%nat.
Proof.
  induction s as [|c s IH]; simpl; [lia|].
  destruct (rstrip s); [destruct (is_space c)|]; simpl in *; lia.
Qed.

Lemma strip_length (s : string) : (String.length (strip s) <= String.length s)%nat.
Proof.
  unfold strip. pose proof (rstrip_length (lstrip s)). pose proof (lstrip_length s). lia.
Qed.

(** *** Quotes and blanks *)

Lemma remove_quotes_free (s : string) : quote_free (remove_quotes s) = true.
Proof.
  induction s as [|c s IH]; simpl; [reflexivity|].
  destruct (Ascii.eqb c "034") eqn:E; simpl; [exact IH|]. now rewrite E, IH.
Qed.

Lemma remove_quotes_id (s : string) : quote_free s = true -> remove_quotes s = s.
Proof.
  induction s as [|c s IH]; simpl; [reflexivity|].
  intros [Hc Hs]%andb_true_iff. apply negb_true_iff in Hc. rewrite Hc. now rewrite IH.
Qed.

Lemma lstrip_quote_free (s : string) : quote_free s = true -> quote_free (lstrip s) = true.
Proof.
  induction s as [|c s IH]; simpl; [reflexivity|].
  intros H. destruct (is_space c); [|exact H].
  apply andb_true_iff in H as [_ H]. auto.
Qed.

Lemma rstrip_quote_free (s : string) : quote_free s = true -> quote_free (rstrip s) = true.
Proof.
  induction s as [|c s IH]; simpl; [reflexivity|].
  intros [Hc Hs]%andb_true_iff. specialize (IH Hs).
  destruct (rstrip s); [destruct (is_space c)|]; simpl in *; now rewrite ?Hc, ?IH.
Qed.

Lemma lstrip_starts (s : string) : starts_blank (lstrip s) = false.
Proof.
  induction s as [|c s IH]; simpl; [reflexivity|].
  destruct (is_space c) eqn:E; [exact IH|]. simpl. exact E.
Qed.

Lemma lstrip_id (s : string) : starts_blank s = false -> lstrip s = s.
Proof. destruct s as [|c s]; simpl; [reflexivity|]. now intros ->. Qed.

Lemma rstrip_starts (s : string) : starts_blank s = false -> starts_blank (rstrip s) = false.
Proof.
  destruct s as [|c s]; simpl; [reflexivity|]. intros H.
  destruct (rstrip s); [rewrite H|]; simpl; auto.
Qed.

Lemma rstrip_idem (s : string) : rstrip (rstrip s) = rstrip s.
Proof.
  induction s as [|c s IH]; simpl; [reflexivity|].
  destruct (rstrip s) as [|c' r] eqn:E.
  - destruct (is_space c) eqn:Hc; simpl; [reflexivity|]. now rewrite Hc.
  - change (rstrip (String c (String c' r))) with
      (match rstrip (String c' r) with
       | EmptyString => if is_space c then EmptyString else String c EmptyString
       | r' => String c r'
       end).
    now rewrite IH.
Qed.

Lemma strip_idem (s : string) : strip (strip s) = strip s.
Proof.
  unfold strip. rewrite (lstrip_id (rstrip (lstrip s))).
  - apply rstrip_idem.
  - apply rstrip_starts, lstrip_starts.
Qed.

(** *** Fixed points of [alg_short] *)

Lemma alg_short_quote_free (s : string) : quote_free (alg_short s) = true.
Proof.
  unfold alg_short, strip.
  apply rstrip_quote_free, lstrip_quote_free, remove_quotes_free.
Qed.

Lemma alg_short_fixed (t : string) :
  has_run_tag t = false -> quote_free t = true -> strip t = t -> alg_short t = t.
Proof.
  intros Ht Hq Hs. unfold alg_short.
  now rewrite (sub_run_tags_id _ Ht), (remove_quotes_id _ Hq).
Qed.

Lemma alg_short_shrinks (t : string) :
  has_run_tag t = true -> (String.length (alg_short t) < String.length t)%nat.
Proof.
  intros Ht. unfold alg_short.
  pose proof (sub_run_tags_shrinks _ Ht).
  pose proof (remove_quotes_length (sub_run_tags Scan t)).
  pose proof (strip_length (remove_quotes (sub_run_tags Scan t))). lia.
Qed.

Lemma normalize_str_idem (n : string) :
  normalize_str (normalize_str n) = normalize_str n.
Proof.
  remember (normalize_str n) as r eqn:Hr. unfold normalize_str in Hr. cbv zeta in Hr.
  destruct (contains "exact" (lower n) || contains "gurobi" (lower n)) eqn:E1;
    [subst r; reflexivity|].
  destruct (contains "memetic" (lower n)) eqn:E2; [subst r; reflexivity|].
  destruct (contains "genetic" (lower n) || String.eqb (lower n) "ga"
            || (contains "ga" (lower n) && negb (contains "m" (lower n)))) eqn:E3;
    [subst r; reflexivity|].
  destruct (contains "mmas" (lower n)) eqn:E4; [subst r; reflexivity|].
  destruct (contains "aco" (lower n)) eqn:E5; [subst r; reflexivity|].
  simpl in Hr.
  destruct (contains "hybrid" (lower n)) eqn:E6; [subst r; reflexivity|].
  destruct (String.eqb (lower n) "nn" || String.eqb (lower n) "nnheuristic"
            || String.eqb (lower n) "nearestneighbor") eqn:E7;
    [subst r; reflexivity|].
  subst r. unfold normalize_str. cbv zeta.
  now rewrite E1, E2, E3, E4, E5, E6, E7.
Qed.

(** The claim as first stated fails for the run-tag stripping: removing one
    tag can bring a new one together, which a second application removes. *)
Lemma alg_short_not_idempotent :
  alg_short "-r-run0un1" = "-run1" /\
  alg_short (alg_short "-r-run0un1") = "".
Proof. split; reflexivity. Qed.

(** C8 (amended).  The label mapping [normalize_algo] is idempotent on every
    name (missing names included).  The run-tag stripping [alg_short] is
    idempotent at a name exactly when its result holds no further run tag
    [-run] followed by digits; this is so for names like [ILS-run0], but not
    for every string. *)
Theorem canonicalisation_idempotence :
  (forall name : option string,
     normalize_algo (normalize_algo name) = normalize_algo name) /\
  (forall s : string,
     alg_short (alg_short s) = alg_short s <-> has_run_tag (alg_short s) = false) /\
  alg_short (alg_short "ILS-run0") = alg_short "ILS-run0".
Proof.
  split; [|split; [|reflexivity]].
  - intros [n|]; simpl; [|reflexivity]. now rewrite normalize_str_idem.
  - intros s. split.
    + intros Heq. destruct (has_run_tag (alg_short s)) eqn:Ht; [|reflexivity].
      pose proof (alg_short_shrinks _ Ht) as Hlt. rewrite Heq in Hlt. lia.
    + intros Ht. apply alg_short_fixed; [exact Ht|apply alg_short_quote_free|].
      unfold alg_short. apply strip_idem.
Qed.

(** The theorem at [ILS-run0]: its stripped form [ILS] holds no run tag. *)
Lemma canonicalisation_idempotence_witness :
  has_run_tag (alg_short "ILS-run0") = false /\
  alg_short (alg_short "ILS-run0") = alg_short "ILS-run0".
Proof.
  split; [reflexivity|].
  exact (proj2 (proj1 (proj2 canonicalisation_idempotence) "ILS-run0") eq_refl).
Defined.

End Canon.

(** ** Per-algorithm statistics ([stats], scripts/aggregate_results.py and
       scripts/prepare_results_for_plots.py)

    [df.groupby('algorithm').agg(avg_cost=('cost','mean'),
    avg_time=('time','mean'), feasible=('feasible','sum'),
    total=('instance','count'))].  The two integer columns are modelled
    here, and the values each mean is taken over; the means themselves are
    binary64 sums formed inside pandas and are not modelled. *)
Module Aggregation.

Record row := {
  instance : string;
  algorithm : string;
  cost : float;
  time : float;
  feasible : Z
}.

(** The rows of one group. *)
Definition group (alg : string) (rows : list row) : list row :=
  List.filter (fun r => String.eqb (algorithm r) alg) rows.

(** [feasible=('feasible','sum')] *)
Definition feasible_sum (alg : string) (rows : list row) : Z :=
  fold_right Z.add 0 (map feasible (group alg rows)).

(** [total=('instance','count')] *)
Definition total (alg : string) (rows : list row) : nat :=
  length (map instance (group alg rows)).

(** The values [avg_cost] and [avg_time] are the means of. *)
Definition costs (alg : string) (rows : list row) : list float :=
  map cost (group alg rows).

Definition times (alg : string) (rows : list row) : list float :=
  map time (group alg rows).

Lemma group_perm (alg : string) (rows rows' : list row) :
  Permutation rows rows' -> Permutation (group alg rows) (group alg rows').
Proof.
  unfold group. induction 1 as [|r l l' _ IH|r1 r2 l|l1 l2 l3 _ IH1 _ IH2]; simpl.
  - constructor.
  - destruct (String.eqb (algorithm r) alg); [now constructor|exact IH].
  - destruct (String.eqb (algorithm r1) alg), (String.eqb (algorithm r2) alg);
      try reflexivity. apply perm_swap.
  - etransitivity; eauto.
Qed.

Lemma sum_perm (xs ys : list Z) :
  Permutation xs ys -> fold_right Z.add 0 xs = fold_right Z.add 0 ys.
Proof.
  induction 1; simpl; lia.
Qed.

(** The integer statistics of every group, and the values its means range
    over, do not depend on the order of the rows. *)
Lemma counts_order_independent (alg : string) (rows rows' : list row) :
  Permutation rows rows' ->
  feasible_sum alg rows = feasible_sum alg rows' /\
  total alg rows = total alg rows' /\
  Permutation (costs alg rows) (costs alg rows') /\
  Permutation (times alg rows) (times alg rows').
Proof.
  intros H%(group_perm alg). unfold feasible_sum, total, costs, times.
  repeat split.
  - now apply sum_perm, Permutation_map.
  - now apply Permutation_length, Permutation_map.
  - now apply Permutation_map.
  - now apply Permutation_map.
Qed.

(** The means are another matter: binary64 addition is not associative, so
    the same three values summed in two orders can differ. *)
Example binary64_sum_depends_on_order :
  (0x1p60 + 1 + -0x1p60 = 0)%float /\ (0x1p60 + -0x1p60 + 1 = 1)%float.
Proof. split; reflexivity. Qed.

End Aggregation.

(** ** More on frames: order of the labels *)
Module FrameMore.
Import Frame.

(** Order of two labelled rows by their labels. *)
Definition before {A} (x y : nat * A) : Prop := (fst x < fst y)%nat.

Lemma enumerate_from_increasing {A} (l : list A) (i : nat) :
  StronglySorted before (enumerate_from i l).
Proof.
  revert i. induction l as [|x l IH]; intros i; simpl; constructor; auto.
  apply List.Forall_forall. intros [k y] Hin.
  apply enumerate_from_fst_lt in Hin. unfold before. simpl. lia.
Qed.

Lemma filter_increasing {A} (f : nat * A -> bool) (l : list (nat * A)) :
  StronglySorted before l -> StronglySorted before (List.filter f l).
Proof.
  induction 1 as [|x l Hl IH Hx]; simpl; [constructor|].
  destruct (f x); auto. constructor; auto.
  apply List.Forall_forall. intros y [Hy _]%filter_In.
  now apply (proj1 (List.Forall_forall _ _) Hx).
Qed.

Lemma flat_map_ext_in {A B} (f g : A -> list B) (l : list A) :
  (forall x, In x l -> f x = g x) -> flat_map f l = flat_map g l.
Proof.
  induction l as [|x l IH]; intros H; simpl; [reflexivity|].
  rewrite (H x (or_introl eq_refl)), IH; [reflexivity|].
  intros y Hy. apply H. now right.
Qed.

Lemma filter_all {A} (f : A -> bool) (l : list A) :
  (forall x, In x l -> f x = true) -> List.filter f l = l.
Proof.
  induction l as [|x l IH]; intros H; simpl; [reflexivity|].
  rewrite (H x (or_introl eq_refl)), IH; [reflexivity|].
  intros y Hy. apply H. now right.
Qed.

Lemma enumerate_from_map_snd {A} (l : list A) (i : nat) :
  map snd (enumerate_from i l) = l.
Proof.
  revert i. induction l as [|x l IH]; intros i; simpl; [reflexivity|].
  now rewrite IH.
Qed.

End FrameMore.

(** ** More on [pareto_front] *)
Module ParetoMore.
Import Frame FrameMore Pareto.
Local Open Scope float_scope.

(** The test the two loops apply to one row of the cleaned frame. *)
Definition kept (sub : list (nat * point)) (r : nat * point) : bool :=
  negb (List.existsb (fun q => dominates q (snd r)) (map snd sub)).

Lemma collect_labels (g : point -> bool) (pre sub : list (nat * point)) :
  flat_map (fun ip : nat * point =>
              if g (snd ip) then []
              else [nth (fst ip) (map fst (pre ++ sub)) 0%nat])
           (enumerate_from (length pre) (map snd sub))
  = map fst (List.filter (fun r => negb (g (snd r))) sub).
Proof.
  revert pre. induction sub as [|r sub IH]; intros pre; simpl; [reflexivity|].
  replace (pre ++ r :: sub) with ((pre ++ [r]) ++ sub)
    by (rewrite <- app_assoc; reflexivity).
  replace (S (length pre)) with (length (pre ++ [r]))
    by (rewrite length_app; simpl; lia).
  rewrite IH. destruct (g (snd r)); simpl; [reflexivity|].
  f_equal. rewrite <- app_assoc. simpl. rewrite map_app. simpl.
  rewrite app_nth2; rewrite length_map; [|lia].
  now rewrite Nat.sub_diag.
Qed.

Lemma pareto_idxs_filter (sub : list (nat * point)) :
  pareto_idxs (map snd sub) (map fst sub) = map fst (List.filter (kept sub) sub).
Proof.
  unfold pareto_idxs, enumerate.
  transitivity
    (flat_map (fun ip : nat * point =>
                 if (fun p => List.existsb (fun q => dominates q p) (map snd sub)) (snd ip)
                 then []
                 else [nth (fst ip) (map fst ([] ++ sub)) 0%nat])
              (enumerate_from (length (@nil (nat * point))) (map snd sub))).
  - apply flat_map_ext_in. intros [i p] Hin. apply in_enumerate in Hin. simpl.
    now rewrite (dominated_spec _ _ _ Hin).
  - exact (collect_labels
             (fun p => List.existsb (fun q => dominates q p) (map snd sub)) [] sub).
Qed.

Lemma loc_rows (df : list point) (l : list (nat * point)) :
  (forall k p, In (k, p) l -> nth_error df k = Some p) ->
  loc df (map fst l) = Some l.
Proof.
  induction l as [|[k p] l IH]; intros H; simpl; [reflexivity|].
  rewrite (H k p (or_introl eq_refl)), IH; [reflexivity|].
  intros k' p' Hin. apply H. now right.
Qed.

(** [pareto_front] as one pass: the rows of the cleaned frame that pass the
    test, in frame order. *)
Lemma pareto_front_filter (df : list point) :
  pareto_front df = Some (List.filter (kept (dropna df)) (dropna df)).
Proof.
  unfold pareto_front. cbv zeta. rewrite pareto_idxs_filter. apply loc_rows.
  intros k p [Hin _]%filter_In. now apply in_dropna in Hin.
Qed.

(** X1. The rows of the front come back in frame order, none twice: their
    labels are strictly increasing. *)
Theorem pareto_front_in_frame_order :
  forall (df : list point) (front : list (nat * point)),
    pareto_front df = Some front -> StronglySorted before front.
Proof.
  intros df front H. rewrite pareto_front_filter in H. injection H as <-.
  apply filter_increasing. unfold dropna. apply filter_increasing.
  apply enumerate_from_increasing.
Qed.

(** The theorem at the example of three points. *)
Lemma pareto_front_in_frame_order_witness :
  pareto_front [(1, 10); (2, 5); (3, 5)] = Some [(0%nat, (1, 10)); (1%nat, (2, 5))] /\
  StronglySorted before [(0%nat, (1, 10)); (1%nat, (2, 5))].
Proof.
  assert (H : pareto_front [(1, 10); (2, 5); (3, 5)]
              = Some [(0%nat, (1, 10)); (1%nat, (2, 5))]) by reflexivity.
  split; [exact H|]. exact (pareto_front_in_frame_order _ _ H).
Defined.

(** X2. The front is empty only when the frame has no point at all: as soon
    as one row holds no NaN, some row is returned. *)
Theorem pareto_front_empty_iff :
  forall df : list point,
    pareto_front df = Some [] <->
    (forall k p, nth_error df k = Some p ->
       notna (fst p) && notna (snd p) = false).
Proof.
  intros df. rewrite pareto_front_filter. split.
  - intros H k p Hk. injection H as H.
    destruct (notna (fst p) && notna (snd p)) eqn:E; [|reflexivity].
    apply andb_true_iff in E as [Ex Ey].
    assert (Hin : In (k, p) (dropna df)) by (apply in_dropna; auto).
    destruct (List.existsb (fun q => dominates q p) (map snd (dropna df))) eqn:Ed.
    + destruct (minimal_dominator _ _ p (Nat.le_refl _) Ed) as (q & Hq & _ & Min).
      apply in_map_iff in Hq as ([j q'] & Eq & Hj). simpl in Eq. subst q'.
      assert (In (j, q) (List.filter (kept (dropna df)) (dropna df))).
      { apply filter_In. split; [exact Hj|]. unfold kept. simpl. now rewrite Min. }
      rewrite H in H0. destruct H0.
    + assert (In (k, p) (List.filter (kept (dropna df)) (dropna df))).
      { apply filter_In. split; [exact Hin|]. unfold kept. simpl. now rewrite Ed. }
      rewrite H in H0. destruct H0.
  - intros H. f_equal. destruct (dropna df) as [|[k p] l] eqn:E; [reflexivity|].
    assert (Hin : In (k, p) (dropna df)) by (rewrite E; now left).
    apply in_dropna in Hin as (Hk & Ex & Ey). specialize (H k p Hk).
    rewrite Ex, Ey in H. discriminate.
Qed.

(** X3. The front of a front is the whole front: no returned point is
    dropped when [pareto_front] is applied to the returned points. *)
Theorem pareto_front_of_front :
  forall (df : list point) (front : list (nat * point)),
    pareto_front df = Some front ->
    pareto_front (map snd front) = Some (enumerate (map snd front)).
Proof.
  intros df front H. rewrite pareto_front_filter in H. injection H as H.
  rewrite pareto_front_filter. f_equal.
  assert (Hfront : forall p, In p (map snd front) ->
            notna (fst p) = true /\ notna (snd p) = true /\
            List.existsb (fun q => dominates q p) (map snd front) = false).
  { intros p Hp. apply in_map_iff in Hp as ([k p'] & Ep & Hin). simpl in Ep. subst p'.
    rewrite <- H in Hin. apply filter_In in Hin as [Hsub Hkept].
    pose proof Hsub as Hsub'. apply in_dropna in Hsub' as (_ & Ex & Ey).
    repeat split; auto. apply not_true_is_false. intros Ed.
    apply existsb_exists in Ed as (q & Hq & D).
    unfold kept in Hkept. simpl in Hkept. apply negb_true_iff in Hkept.
    assert (List.existsb (fun q => dominates q p) (map snd (dropna df)) = true);
      [|congruence].
    apply existsb_exists. exists q. split; [|exact D].
    apply in_map_iff in Hq as (r & <- & Hr). apply in_map.
    rewrite <- H in Hr. now apply filter_In in Hr. }
  assert (Hd : dropna (map snd front) = enumerate (map snd front)).
  { unfold dropna. apply filter_all. intros [k p] Hin.
    apply in_enumerate, nth_error_In in Hin. simpl.
    destruct (Hfront p Hin) as (-> & -> & _). reflexivity. }
  rewrite Hd. apply filter_all. intros [k p] Hin.
  apply in_enumerate, nth_error_In in Hin. unfold kept, enumerate. simpl.
  rewrite enumerate_from_map_snd. destruct (Hfront p Hin) as (_ & _ & ->). reflexivity.
Qed.

(** The theorem at the example of three points. *)
Lemma pareto_front_of_front_witness :
  pareto_front [(1, 10); (2, 5); (3, 5)] = Some [(0%nat, (1, 10)); (1%nat, (2, 5))] /\
  pareto_front [(1, 10); (2, 5)] = Some [(0%nat, (1, 10)); (1%nat, (2, 5))].
Proof.
  assert (H : pareto_front [(1, 10); (2, 5); (3, 5)]
              = Some [(0%nat, (1, 10)); (1%nat, (2, 5))]) by reflexivity.
  split; [exact H|]. exact (pareto_front_of_front _ _ H).
Defined.

End ParetoMore.

(** ** More on [visualize_solution]: the drawn edges, the statistics box and
       the shape of the load profile *)
Module LoadProfileMore.
Import LoadProfile.

(** [min(xs)] on integers, [None] for the [ValueError] on an empty list. *)
Fixpoint py_min (xs : list Z) : option Z :=
  match xs with
  | [] => None
  | x :: xs' =>
      match py_min xs' with
      | None => Some x
      | Some m => Some (Z.min x m)
      end
  end.

(** [max_load = max(load_profile) if load_profile else 0] and its twin. *)
Definition max_load (load_profile : list Z) : option Z :=
  match load_profile with
  | [] => Some 0
  | _ => py_max load_profile
  end.

Definition min_load (load_profile : list Z) : option Z :=
  match load_profile with
  | [] => Some 0
  | _ => py_min load_profile
  end.

(** The edge loop: for [i in range(len(tour))] the pair [(curr, next_node)]
    with [next_node = tour[(i + 1) % len(tour)] if i < len(tour) - 1 else 0]. *)
Definition edges (tour : list Z) : list (Z * Z) :=
  let n := length tour in
  map (fun i => (nth i tour 0,
                 if (Z.of_nat i <? Z.of_nat n - 1)
                 then nth ((i + 1) mod n) tour 0
                 else 0))
      (seq 0 n).

(** The segments the loop plots: [coords[curr]] and [coords[next_node]] of
    every edge; a node without coordinates is a [KeyError] ([None]). *)
Fixpoint segments (coords : gmap Z (float * float)) (es : list (Z * Z))
  : option (list ((float * float) * (float * float))) :=
  match es with
  | [] => Some []
  | (curr, next_node) :: rest =>
      match coords !! curr, coords !! next_node with
      | Some a, Some b =>
          match segments coords rest with
          | Some l => Some ((a, b) :: l)
          | None => None
          end
      | _, _ => None
      end
  end.

(** The sum of the demands of a stretch of the tour. *)
Definition demand_sum (demands : gmap Z Z) (nodes : list Z) : Z :=
  fold_right Z.add 0 (map (get0 demands) nodes).

Lemma py_min_spec (xs : list Z) :
  match py_min xs with
  | None => xs = []
  | Some m => In m xs /\ forall x, In x xs -> m <= x
  end.
Proof.
  induction xs as [|x xs IH]; simpl; [reflexivity|].
  destruct (py_min xs) as [m|].
  - destruct IH as [Hm Hle]. split.
    + destruct (Z.min_spec x m) as [[_ ->]|[_ ->]]; auto.
    + intros y [<-|Hy]; [lia|]. specialize (Hle y Hy). lia.
  - subst xs. split; [now left|]. intros y [<-|[]]. lia.
Qed.

Lemma load_profile_shape (tour : list Z) (demands : gmap Z Z) (profile : list Z) :
  load_profile tour demands = Some profile ->
  exists start, profile = start :: loads_spec demands start (tail tour) ++ [0].
Proof.
  intros H. destruct (py_max (keys demands)) as [mk|] eqn:Hmk;
    [|unfold load_profile in H; rewrite Hmk in H; discriminate].
  rewrite (load_profile_unfold _ _ _ Hmk) in H. injection H as <-.
  unfold profile_spec. eauto.
Qed.

Lemma last_any_default (l : list Z) (z d d' : Z) :
  List.last (z :: l) d = List.last (z :: l) d'.
Proof.
  revert z. induction l as [|y l IH]; intros z; [reflexivity|].
  change (List.last (y :: l) d = List.last (y :: l) d'). apply IH.
Qed.

Lemma loads_spec_app (demands : gmap Z Z) (load : Z) (pre post : list Z) :
  loads_spec demands load (pre ++ post) =
  loads_spec demands load pre ++
  loads_spec demands (List.last (loads_spec demands load pre) load) post.
Proof.
  revert load. induction pre as [|n pre IH]; intros load; simpl; [reflexivity|].
  rewrite IH. f_equal. f_equal.
  destruct (loads_spec demands _ pre) eqn:E; [reflexivity|].
  f_equal. apply last_any_default.
Qed.

Lemma loads_spec_length (demands : gmap Z Z) (load : Z) (nodes : list Z) :
  length (loads_spec demands load nodes) = length nodes.
Proof.
  revert load. induction nodes; intros; simpl; [|rewrite IHnodes]; reflexivity.
Qed.

Lemma loads_spec_sums (demands : gmap Z Z) (nodes : list Z) (load : Z) (i : nat) :
  ~ In 0 nodes -> (i < length nodes)%nat ->
  loads_spec demands load nodes !! i =
    Some (load + demand_sum demands (firstn (S i) nodes)).
Proof.
  revert load i. induction nodes as [|n nodes IH]; intros load i Hz Hi; simpl in *; [lia|].
  assert (Hn : n <> 0) by (intros ->; apply Hz; now left).
  rewrite decide_False by exact Hn.
  destruct i as [|i]; simpl.
  - unfold demand_sum. simpl. f_equal. lia.
  - rewrite IH; [|tauto|lia]. unfold demand_sum. simpl. f_equal. lia.
Qed.

Lemma py_max_nonempty (x : Z) (xs : list Z) : exists m, py_max (x :: xs) = Some m.
Proof. simpl. destruct (py_max xs); eauto. Qed.

Lemma py_min_nonempty (x : Z) (xs : list Z) : exists m, py_min (x :: xs) = Some m.
Proof. simpl. destruct (py_min xs); eauto. Qed.

(** X4. For a computed profile the statistics box never fails, and because
    the profile ends with the appended zero, the reported Min Load is never
    positive and the Max Load never negative; Min Load is negative exactly
    when some load of the profile is. *)
Theorem load_statistics_bracket_zero :
  forall (tour : list Z) (demands : gmap Z Z) (profile : list Z),
    load_profile tour demands = Some profile ->
    exists mx mn,
      max_load profile = Some mx /\ min_load profile = Some mn /\
      mn <= 0 <= mx /\
      (mn < 0 <-> exists x, In x profile /\ x < 0).
Proof.
  intros tour demands profile H.
  destruct (load_profile_shape _ _ _ H) as [start ->].
  set (profile := start :: loads_spec demands start (tail tour) ++ [0]).
  assert (Hz : In 0 profile).
  { unfold profile. right. apply in_app_iff. right. now left. }
  destruct (py_max_nonempty start (loads_spec demands start (tail tour) ++ [0])) as [mx Hmx].
  destruct (py_min_nonempty start (loads_spec demands start (tail tour) ++ [0])) as [mn Hmn].
  exists mx, mn. fold profile in Hmx, Hmn.
  pose proof (py_max_spec profile) as Smx. rewrite Hmx in Smx.
  pose proof (py_min_spec profile) as Smn. rewrite Hmn in Smn.
  destruct Smx as [_ Hle], Smn as [Hin Hge].
  split; [exact Hmx|]. split; [exact Hmn|]. split.
  - specialize (Hle 0 Hz). specialize (Hge 0 Hz). lia.
  - split.
    + intros Hneg. exists mn. auto.
    + intros (x & Hx & Hneg). specialize (Hge x Hx). lia.
Qed.

(** The theorem at the example of the specification. *)
Lemma load_statistics_bracket_zero_witness :
  load_profile [0; 1; 2; 3] example_demands = Some [0; 3; 0; -5; 0] /\
  exists mx mn,
    max_load [0; 3; 0; -5; 0] = Some mx /\ min_load [0; 3; 0; -5; 0] = Some mn /\
    mn <= 0 <= mx /\
    (mn < 0 <-> exists x, In x [0; 3; 0; -5; 0] /\ x < 0).
Proof.
  assert (H : load_profile [0; 1; 2; 3] example_demands = Some [0; 3; 0; -5; 0])
    by reflexivity.
  split; [exact H|]. exact (load_statistics_bracket_zero _ _ _ H).
Defined.

(** X5. A load is the sum of the signed demands picked up since the last
    depot visit: on a tour that never returns to node 0 mid-way, entry [i]
    is the starting load plus the demands of the first [i] nodes after the
    start; after a mid-tour visit to node 0, the loads are the demand sums
    counted from that visit, whatever was carried before. *)
Theorem load_is_sum_since_depot :
  forall (tour : list Z) (demands : gmap Z Z) (profile : list Z),
    load_profile tour demands = Some profile ->
    (~ In 0 (tail tour) ->
     forall i, (i <= length (tail tour))%nat ->
       exists start, profile !! 0%nat = Some start /\
         profile !! i = Some (start + demand_sum demands (firstn i (tail tour)))) /\
    (forall pre post, tail tour = pre ++ 0 :: post -> ~ In 0 post ->
     forall i, (i <= length post)%nat ->
       profile !! (S (length pre) + i)%nat = Some (demand_sum demands (firstn i post))).
Proof.
  intros tour demands profile H.
  destruct (load_profile_shape _ _ _ H) as [start ->]. split.
  - intros Hz i Hi. exists start. split; [reflexivity|].
    destruct i as [|i]; [simpl; f_equal; unfold demand_sum; simpl; lia|].
    simpl. rewrite lookup_app_l by (rewrite loads_spec_length; lia).
    apply loads_spec_sums; [exact Hz|lia].
  - intros pre post Ht Hz i Hi. rewrite Ht. simpl.
    rewrite loads_spec_app.
    change (loads_spec demands ?l (0 :: post)) with (0 :: loads_spec demands 0 post).
    rewrite <- app_assoc.
    rewrite lookup_app_r; rewrite loads_spec_length; [|lia].
    replace (length pre + i - length pre)%nat with i by lia.
    destruct i as [|i]; [reflexivity|]. simpl.
    rewrite lookup_app_l by (rewrite loads_spec_length; lia).
    rewrite loads_spec_sums; [reflexivity|exact Hz|lia].
Qed.

(** The theorem on a tour that comes back to the depot mid-way. *)
Lemma load_is_sum_since_depot_witness :
  load_profile [0; 1; 0; 2; 3] example_demands = Some [0; 3; 0; -3; -8; 0] /\
  [0; 3; 0; -3; -8; 0] !! 4%nat = Some (demand_sum example_demands [2; 3]).
Proof.
  assert (H : load_profile [0; 1; 0; 2; 3] example_demands = Some [0; 3; 0; -3; -8; 0])
    by reflexivity.
  split; [exact H|].
  refine (proj2 (load_is_sum_since_depot _ _ _ H) [1] [2; 3] eq_refl _ 2%nat _).
  - intros [E|[E|[]]]; discriminate.
  - simpl. lia.
Defined.

Lemma segments_defined (coords : gmap Z (float * float)) (es : list (Z * Z)) :
  segments coords es <> None <->
  forall e, In e es -> is_Some (coords !! fst e) /\ is_Some (coords !! snd e).
Proof.
  induction es as [|[c n] es IH]; simpl.
  - split; [intros _ e []|discriminate].
  - destruct (coords !! c) as [a|] eqn:Ec, (coords !! n) as [b|] eqn:En.
    + destruct (segments coords es) as [l|].
      * split; [|discriminate]. intros _ e [<-|He]; simpl.
        -- rewrite Ec, En. eauto.
        -- apply IH; [discriminate|exact He].
      * split; [congruence|]. intros Hall. exfalso. apply (proj2 IH); [|reflexivity].
        intros e He. apply Hall. now right.
    + split; [congruence|]. intros Hall. destruct (Hall (c, n)) as [_ [x Hx]]; [now left|].
      simpl in Hx. congruence.
    + split; [congruence|]. intros Hall. destruct (Hall (c, n)) as [[x Hx] _]; [now left|].
      simpl in Hx. congruence.
    + split; [congruence|]. intros Hall. destruct (Hall (c, n)) as [[x Hx] _]; [now left|].
      simpl in Hx. congruence.
Qed.

Lemma nth_map_seq {A : Type} (f : nat -> A) (n i : nat) (d : A) :
  (i < n)%nat -> nth i (map f (seq 0 n)) d = f i.
Proof.
  intros Hi. rewrite (nth_indep _ d (f 0%nat)) by (rewrite length_map, length_seq; lia).
  rewrite map_nth, seq_nth by lia. reflexivity.
Qed.

(** X6. The tour is drawn closed at the depot: every node is joined to its
    successor and the last node to node 0, even when the tour starts
    elsewhere (the modulo never wraps); drawing fails with a [KeyError]
    exactly when a tour node, or node 0 for a non-empty tour, has no
    coordinates. *)
Theorem tour_edges_close_at_depot :
  forall (tour : list Z) (coords : gmap Z (float * float)),
    edges tour = combine tour (tail tour ++ [0]) /\
    (segments coords (edges tour) <> None <->
     (forall node, In node tour -> is_Some (coords !! node)) /\
     (tour <> [] -> is_Some (coords !! 0))).
Proof.
  intros tour coords.
  assert (He : edges tour = combine tour (tail tour ++ [0])).
  { unfold edges. destruct tour as [|a t]; [reflexivity|].
    assert (Hlen : length (tail (a :: t) ++ [0]) = length (a :: t))
      by (rewrite length_app; cbn [length tail]; lia).
    set (tour := a :: t) in *. set (n := length tour) in *.
    assert (Hn : n = S (length t)) by reflexivity.
    apply nth_ext with (d := (0, 0)) (d' := (0, 0)).
    - rewrite length_map, length_seq, length_combine, Hlen. fold n. lia.
    - rewrite length_map, length_seq. intros i Hi.
      rewrite nth_map_seq by exact Hi.
      rewrite combine_nth by (symmetry; exact Hlen).
      f_equal. unfold tour at 2. cbn [tail].
      destruct (Z.ltb_spec (Z.of_nat i) (Z.of_nat n - 1)).
      + rewrite Nat.mod_small by lia.
        rewrite app_nth1 by lia.
        replace (i + 1)%nat with (S i) by lia. reflexivity.
      + rewrite app_nth2 by lia.
        replace (i - length t)%nat with 0%nat by lia.
        reflexivity. }
  split; [exact He|]. rewrite segments_defined, He. split.
  - intros Hall. split.
    + intros node Hn. destruct tour as [|a t]; [destruct Hn|].
      assert (Hlen : length (tail (a :: t) ++ [0]) = length (a :: t))
        by (rewrite length_app; cbn [length tail]; lia).
      apply (In_nth _ _ 0) in Hn as (i & Hi & <-).
      destruct (Hall (nth i (a :: t) 0, nth i (tail (a :: t) ++ [0]) 0)) as [Hc _];
        [|exact Hc].
      rewrite <- combine_nth by (symmetry; exact Hlen).
      apply nth_In. rewrite length_combine, Hlen. lia.
    + intros Hne. destruct (exists_last Hne) as (l & x & ->).
      destruct (Hall (x, 0)) as [_ Hc]; [|exact Hc].
      clear. induction l as [|y l IH]; [now left|].
      destruct l as [|z l]; [right; now left|].
      right. exact IH.
  - intros [Hnodes Hdepot] [c nx] Hin. simpl.
    split; [apply Hnodes; eapply in_combine_l; eauto|].
    pose proof Hin as Hin'.
    apply in_combine_r, in_app_iff in Hin as [Hin|[<-|[]]].
    + apply Hnodes. destruct tour; [destruct Hin|]. now right.
    + apply Hdepot. intros ->. destruct Hin'.
Qed.

End LoadProfileMore.

(** * More on the exact-versus-heuristic gaps

    [analyze_results.py], [plot_exact_vs_best_heuristic]: the order of the
    bars and the exact row that is used. *)

Module GapMore.
Import Gap.
Local Open Scope float_scope.

(** The order of [sorted] on instance names. *)
Definition inst_lt (a b : string) : Prop := String.compare a b = Lt.

Definition entry_lt (a b : gap_entry) : Prop := inst_lt (g_instance a) (g_instance b).

(** Exact rows with two costs for one instance, the cheaper one second. *)
Definition example_exact_rows : list exact_row :=
  [ {| eInstance := "n50mosA"; eCostFunction := "distance"; Cost := 100 |};
    {| eInstance := "n50mosA"; eCostFunction := "distance"; Cost := 90 |} ].

Lemma inst_lt_trans (a b c : string) : inst_lt a b -> inst_lt b c -> inst_lt a c.
Proof.
  unfold inst_lt. intros H1 H2.
  apply OrderedTypeEx.String_as_OT.cmp_lt in H1, H2.
  apply OrderedTypeEx.String_as_OT.cmp_lt.
  eapply OrderedTypeEx.String_as_OT.lt_trans; eauto.
Qed.

Lemma inst_lt_irrefl (a : string) : ~ inst_lt a a.
Proof.
  unfold inst_lt. intros H.
  assert (E : String.compare a a = Eq)
    by now apply OrderedTypeEx.String_as_OT.cmp_eq.
  congruence.
Qed.

Lemma inst_gt_lt (a b : string) : String.compare a b = Gt -> inst_lt b a.
Proof.
  unfold inst_lt. intros H. rewrite String.compare_antisym, H. reflexivity.
Qed.

Lemma insert_sorted_sorted (x : string) (l : list string) :
  StronglySorted inst_lt l -> StronglySorted inst_lt (insert_sorted x l).
Proof.
  induction l as [|y l IH]; intros Hs; simpl.
  - constructor; constructor.
  - inversion Hs as [|? ? Hs' Hall]; subst.
    destruct (String.compare x y) eqn:C.
    + exact Hs.
    + constructor; [exact Hs|]. constructor; [exact C|].
      rewrite List.Forall_forall in *. intros z Hz. eapply inst_lt_trans; eauto.
    + constructor; [auto|]. apply List.Forall_forall. intros z Hz.
      apply in_insert_sorted in Hz as [->|Hz]; [now apply inst_gt_lt|].
      rewrite List.Forall_forall in Hall. auto.
Qed.

Lemma sorted_set_sorted (l : list string) : StronglySorted inst_lt (sorted_set l).
Proof.
  induction l as [|x l IH]; simpl; [constructor|]. now apply insert_sorted_sorted.
Qed.

Lemma gap_loop_sorted (ed : list exact_row) (hd : list heuristic_row)
    (insts : list string) (entries : list gap_entry) :
  gap_loop ed hd insts = Some entries ->
  StronglySorted inst_lt insts ->
  StronglySorted entry_lt entries /\
  forall g, In g entries -> In (g_instance g) insts.
Proof.
  revert entries. induction insts as [|inst rest IH]; intros entries H Hs; simpl in H.
  - injection H as <-. split; [constructor|intros g []].
  - inversion Hs as [|? ? Hs' Hall]; subst. rewrite List.Forall_forall in Hall.
    destruct (exact_cost_of ed inst) as [e|]; [|discriminate].
    destruct (gap_loop ed hd rest) as [more|]; [|discriminate].
    destruct (IH more eq_refl Hs') as [Hm Hin].
    injection H as <-.
    destruct (gap_defined e (heuristic_cost_of hd inst)); simpl.
    + split.
      * constructor; [exact Hm|]. apply List.Forall_forall. intros g Hg.
        unfold entry_lt. simpl. apply Hall, Hin, Hg.
      * intros g [<-|Hg]; [now left|right; auto].
    + split; [exact Hm|]. intros g Hg. right. auto.
Qed.

Lemma sorted_NoDup {A : Type} (R : A -> A -> Prop) (l : list A) :
  (forall x, ~ R x x) -> StronglySorted R l -> List.NoDup l.
Proof.
  intros Hirr. induction 1 as [|x l Hs IH Hall]; constructor; [|exact IH].
  intros Hin. rewrite List.Forall_forall in Hall. exact (Hirr x (Hall x Hin)).
Qed.

Lemma sorted_map {A B : Type} (f : A -> B) (R : B -> B -> Prop) (l : list A) :
  StronglySorted (fun a b => R (f a) (f b)) l -> StronglySorted R (map f l).
Proof.
  induction 1 as [|x l Hs IH Hall]; simpl; constructor; [exact IH|].
  rewrite List.Forall_forall in *. intros y (a & <- & Ha)%in_map_iff. auto.
Qed.

(** X7. Whenever the gap list of a cost function is built, that is for the
    four cells of the figure, its bars come in strictly ascending order of
    instance name, so no instance has two bars, however many exact or
    heuristic rows it has; for any other cell index nothing is built. *)
Theorem gaps_sorted_by_instance :
  forall (idx : Z) (cost_func : string) (exact_df : list exact_row)
         (heuristic_df : list heuristic_row),
    (gaps_of idx cost_func exact_df heuristic_df = None <-> ~ (1 <= idx <= 4)%Z) /\
    forall entries, gaps_of idx cost_func exact_df heuristic_df = Some entries ->
      StronglySorted entry_lt entries /\
      List.NoDup (map g_instance entries).
Proof.
  intros idx cost_func exact_df heuristic_df. split; [apply gaps_of_none|].
  intros entries H. unfold gaps_of in H.
  destruct (subplot 2 2 idx); [|discriminate].
  destruct (gap_loop_sorted _ _ _ _ H) as [Hs _]; [apply sorted_set_sorted|].
  split; [exact Hs|].
  apply (sorted_NoDup inst_lt); [exact inst_lt_irrefl|].
  apply sorted_map. exact Hs.
Qed.

(** X8. The exact cost of a bar is the cost of the first row of [exact_df]
    with this cost function and instance: when the instance has several
    exact rows no minimum is taken on the exact side, unlike on the heuristic
    side. *)
Theorem gap_uses_first_exact_row :
  forall (idx : Z) (cost_func : string) (exact_df : list exact_row)
         (heuristic_df : list heuristic_row) (entries : list gap_entry) (g : gap_entry),
    gaps_of idx cost_func exact_df heuristic_df = Some entries ->
    In g entries ->
    exists pre r post,
      exact_df = pre ++ r :: post /\
      exact_match cost_func (g_instance g) r = true /\
      g_exact_cost g = Cost r /\
      forall r', In r' pre -> exact_match cost_func (g_instance g) r' = false.
Proof.
  intros idx cost_func exact_df heuristic_df entries g H Hg. unfold gaps_of in H.
  destruct (subplot 2 2 idx); [|discriminate].
  set (ed := exact_data cost_func exact_df) in *.
  set (hd := heuristic_data cost_func heuristic_df) in *.
  destruct (gap_loop_spec ed hd (common_instances ed hd)) as (entries' & E & Hent).
  { intros inst [He _]%in_common_instances. now apply exact_cost_defined. }
  rewrite E in H. injection H as ->.
  apply Hent in Hg as (_ & He & _).
  unfold exact_cost_of, ed, exact_data in He.
  rewrite filter_filter, head_map in He.
  destruct (head (List.filter _ exact_df)) as [r|] eqn:Hr; [|discriminate].
  injection He as He.
  apply head_filter_first in Hr as (pre & post & -> & Pr & Hpre).
  exists pre, r, post. split; [reflexivity|]. split; [exact Pr|].
  split; [now symmetry|]. exact Hpre.
Qed.

(** The theorem on an instance with two exact rows: the bar shows the first
    cost, 100, although the second row is cheaper. *)
Lemma gap_uses_first_exact_row_witness :
  gaps_of 1 "distance" example_exact_rows example_heuristic_rows
  = Some [ {| g_instance := "n50mosA"; g_gap := 15;
              g_exact_cost := 100; g_heuristic_cost := 115 |} ] /\
  exists pre r post,
    example_exact_rows = pre ++ r :: post /\
    exact_match "distance" "n50mosA" r = true /\
    100 = Cost r /\
    forall r', In r' pre -> exact_match "distance" "n50mosA" r' = false.
Proof.
  assert (H : gaps_of 1 "distance" example_exact_rows example_heuristic_rows
              = Some [ {| g_instance := "n50mosA"; g_gap := 15;
                          g_exact_cost := 100; g_heuristic_cost := 115 |} ])
    by reflexivity.
  split; [exact H|].
  exact (gap_uses_first_exact_row _ _ _ _ _ _ H (or_introl eq_refl)).
Defined.

End GapMore.

(** * More on the best row per alpha

    [scripts/aggregate_quadratic_results.py], lines 56-61: the order of the
    rows of [quadratic_best_by_alpha.csv] and when the selection fails. *)

Module FloatOrderMore.
Import FloatOrder.
Local Open Scope float_scope.

Lemma eqb_leb (x y : float) : (x =? y) = true -> (x <=? y) = true.
Proof.
  rewrite FloatAxioms.eqb_spec, FloatAxioms.leb_spec. unfold SFeqb, SFleb.
  destruct (SFcompare (Prim2SF x) (Prim2SF y)) as [[]|]; congruence.
Qed.

Lemma ltb_total_strict (x y : float) :
  is_nan x = false -> is_nan y = false ->
  (x =? y) = false -> (x <? y) = false -> (y <? x) = true.
Proof.
  intros Nx%is_nan_compare Ny%is_nan_compare.
  pose proof (SFcompare_total _ _ Nx Ny) as T.
  rewrite FloatAxioms.eqb_spec, !FloatAxioms.ltb_spec. unfold SFeqb, SFltb.
  destruct (SFcompare (Prim2SF x) (Prim2SF y)) as [r|] eqn:E; [|congruence].
  rewrite (SFcompare_sym _ _ _ E). destruct r; simpl; congruence.
Qed.

Lemma ltb_eqb_compat (a b a' b' : float) :
  (a <? b) = true -> (a' =? a) = true -> (b' =? b) = true -> (a' <? b') = true.
Proof.
  intros L Ea Eb.
  eapply leb_ltb_trans; [apply eqb_leb; exact Ea|].
  eapply ltb_leb_trans; [exact L|]. apply eqb_leb, eqb_sym, Eb.
Qed.

Lemma ltb_not_eqb (x y : float) : (x <? y) = true -> (x =? y) = false.
Proof.
  rewrite FloatAxioms.eqb_spec, FloatAxioms.ltb_spec. unfold SFeqb, SFltb.
  destruct (SFcompare (Prim2SF x) (Prim2SF y)) as [[]|]; congruence.
Qed.

End FloatOrderMore.

Module SensitivityMore.
Import Frame Sensitivity.
Local Open Scope float_scope.

(** Strictly ascending alpha. *)
Definition key_lt (a b : float) : Prop := (a <? b) = true.

Definition alpha_lt (r1 r2 : row) : Prop := key_lt (alpha r1) (alpha r2).

(** A group none of whose rows has an objective. *)
Definition no_objective (df : list row) (a : float) : Prop :=
  forall r, In r df -> (alpha r =? a) = true -> is_nan (objective r) = true.

Lemma insert_key_sorted (a : float) (l : list float) :
  is_nan a = false -> Forall (fun b => is_nan b = false) l ->
  StronglySorted key_lt l -> StronglySorted key_lt (insert_key a l).
Proof.
  intros Na. induction l as [|b l IH]; intros Hn Hs; simpl.
  - constructor; constructor.
  - inversion Hs as [|? ? Hs' Hall]; subst.
    inversion Hn as [|? ? Nb Hn']; subst.
    destruct (a =? b) eqn:E; [exact Hs|].
    destruct (a <? b) eqn:L.
    + constructor; [exact Hs|]. constructor; [exact L|].
      rewrite List.Forall_forall in *. intros z Hz.
      eapply FloatOrder.ltb_trans; [exact L|]. now apply Hall.
    + constructor; [auto|]. apply List.Forall_forall. intros z Hz.
      apply in_insert_key in Hz as [->|Hz].
      * now apply FloatOrderMore.ltb_total_strict.
      * rewrite List.Forall_forall in Hall. now apply Hall.
Qed.

Lemma insert_key_not_nan (a : float) (l : list float) :
  is_nan a = false -> Forall (fun b => is_nan b = false) l ->
  Forall (fun b => is_nan b = false) (insert_key a l).
Proof.
  intros Na Hl. apply List.Forall_forall. intros x [->|Hx]%in_insert_key; [exact Na|].
  rewrite List.Forall_forall in Hl. auto.
Qed.

Lemma group_keys_sorted (df : list row) :
  StronglySorted key_lt (group_keys df) /\
  Forall (fun b => is_nan b = false) (group_keys df).
Proof.
  unfold group_keys.
  assert (Hn : Forall (fun b => is_nan b = false)
                 (List.filter (fun a => negb (is_nan a)) (map alpha df))).
  { apply List.Forall_forall. intros x [_ Hx]%filter_In. now apply negb_true_iff. }
  revert Hn. generalize (List.filter (fun a => negb (is_nan a)) (map alpha df)).
  induction l as [|x xs IH]; intros Hn; simpl.
  - split; constructor.
  - inversion Hn as [|? ? Nx Hn']; subst. destruct (IH Hn') as [Hs Hk]. split.
    + now apply insert_key_sorted.
    + now apply insert_key_not_nan.
Qed.

Lemma select_all_sorted (df : list row) (ks : list float) (rs : list row) :
  select_all df ks = Some rs -> StronglySorted key_lt ks ->
  StronglySorted alpha_lt rs /\ length rs = length ks.
Proof.
  revert rs. induction ks as [|a ks IH]; simpl; intros rs H Hs.
  - injection H as <-. split; [constructor|reflexivity].
  - inversion Hs as [|? ? Hs' Hall]; subst. rewrite List.Forall_forall in Hall.
    destruct (select df a) as [r|] eqn:Ea; [|discriminate].
    destruct (select_all df ks) as [rs'|] eqn:Es; [|discriminate]. injection H as <-.
    destruct (IH rs' eq_refl Hs') as [Hr Hlen]. split; [|simpl; now rewrite Hlen].
    constructor; [exact Hr|]. apply List.Forall_forall. intros r' Hr'.
    destruct (select_all_spec _ _ _ Es) as [Hin _].
    destruct (Hin r' Hr') as (a' & Ha' & Ea').
    destruct (select_spec _ _ _ Ea) as (_ & _ & E & _).
    destruct (select_spec _ _ _ Ea') as (_ & _ & E' & _).
    unfold alpha_lt, key_lt. eapply FloatOrderMore.ltb_eqb_compat; eauto.
    now apply Hall.
Qed.

Lemma select_all_none (df : list row) (ks : list float) :
  select_all df ks = None <-> exists a, In a ks /\ select df a = None.
Proof.
  induction ks as [|a ks IH]; simpl.
  - split; [discriminate|]. intros (a & [] & _).
  - destruct (select df a) as [r|] eqn:Ea.
    + destruct (select_all df ks) as [rs|].
      * split; [discriminate|]. intros (a' & [<-|Ha'] & E); [congruence|].
        exfalso. assert (Hn : Some rs = None) by (apply IH; eauto). discriminate.
      * split; [|reflexivity]. intros _.
        destruct (proj1 IH eq_refl) as (a' & Ha' & E). eauto.
    + split; [|reflexivity]. intros _. exists a. auto.
Qed.

Lemma select_none (df : list row) (a : float) :
  select df a = None <-> no_objective df a.
Proof.
  unfold no_objective. split.
  - intros H r Hr Er. destruct (is_nan (objective r)) eqn:N; [reflexivity|].
    apply In_nth_error in Hr as [j Hj].
    destruct (select_defined df a j r Hj Er N) as [r' E]. congruence.
  - intros H. destruct (select df a) as [r|] eqn:E; [|reflexivity].
    destruct (select_spec _ _ _ E) as (k & Hk & Er & N & _).
    apply nth_error_In in Hk. rewrite (H r Hk Er) in N. discriminate.
Qed.

(** X9. The best-by-alpha table has exactly one row per distinct alpha of
    the frame, in strictly ascending alpha order, whatever the order of the
    rows of the frame. *)
Theorem best_per_alpha_ascending :
  forall (df best : list row),
    best_per_alpha df = Some best ->
    StronglySorted alpha_lt best /\ length best = length (group_keys df).
Proof.
  intros df best H. unfold best_per_alpha in H.
  apply (select_all_sorted _ _ _ H). apply group_keys_sorted.
Qed.

(** The theorem on the example sweep. *)
Lemma best_per_alpha_ascending_witness :
  exists best, best_per_alpha example_sweep = Some best /\
    StronglySorted alpha_lt best /\ length best = 2%nat.
Proof.
  eexists. split; [reflexivity|].
  exact (best_per_alpha_ascending example_sweep _ eq_refl).
Defined.

(** X10. The selection fails (no [quadratic_best_by_alpha.csv] is written)
    exactly when some alpha of the frame has no row with an objective. *)
Theorem best_per_alpha_fails_iff :
  forall df : list row,
    best_per_alpha df = None <->
    exists r0, In r0 df /\ is_nan (alpha r0) = false /\ no_objective df (alpha r0).
Proof.
  intros df. unfold best_per_alpha. rewrite select_all_none. split.
  - intros (a & Ha & E). destruct (group_keys_in _ _ Ha) as (r0 & Hr0 & <-).
    exists r0. split; [exact Hr0|]. split; [|now apply select_none].
    destruct (group_keys_sorted df) as [_ Hn]. rewrite List.Forall_forall in Hn. auto.
  - intros (r0 & Hr0 & N0 & Hno).
    destruct (group_keys_cover df r0 Hr0 N0) as (a & Ha & E).
    exists a. split; [exact Ha|]. apply select_none. intros r Hr Er.
    apply Hno; [exact Hr|]. eapply FloatOrder.eqb_trans; [exact Er|].
    now apply FloatOrder.eqb_sym.
Qed.

End SensitivityMore.

(** * More on strings: pieces of a split name, the stem of a file name *)

Module PyStrMore.
Import PyStr.
Local Open Scope string_scope.

(** [c in s] for a character [c]. *)
Fixpoint has (c : ascii) (s : string) : bool :=
  match s with
  | EmptyString => false
  | String a s' => Ascii.eqb a c || has c s'
  end.

Lemma contains_char (c : ascii) (s : string) : contains (String c "") s = has c s.
Proof.
  induction s as [|a s IH]; [reflexivity|].
  cbn [contains has String.prefix]. rewrite IH.
  destruct (ascii_dec c a) as [->|Hne].
  - rewrite Ascii.eqb_refl. now destruct s.
  - destruct (Ascii.eqb_spec a c) as [->|_]; [contradiction|reflexivity].
Qed.

Lemma split_on_no_sep (c : ascii) (s : string) :
  has c s = false -> split_on c s = [s].
Proof.
  induction s as [|a s IH]; simpl; [reflexivity|].
  destruct (Ascii.eqb a c); simpl; [discriminate|]. intros H. now rewrite IH.
Qed.

Lemma split_on_app (c : ascii) (a rest : string) :
  has c a = false -> split_on c (a ++ String c rest) = a :: split_on c rest.
Proof.
  induction a as [|x a IH]; simpl.
  - intros _. now rewrite Ascii.eqb_refl.
  - destruct (Ascii.eqb x c); simpl; [discriminate|]. intros H. now rewrite IH.
Qed.

Lemma split_on_front (c : ascii) (pre post : string) :
  exists front, front <> [] /\
    split_on c (pre ++ String c post) = (front ++ split_on c post)%list.
Proof.
  induction pre as [|x pre (front & Hne & IH)]; simpl.
  - exists [""]. split; [discriminate|]. now rewrite Ascii.eqb_refl.
  - rewrite IH. destruct (Ascii.eqb x c).
    + exists ("" :: front). split; [discriminate|reflexivity].
    + destruct front as [|w ws]; [contradiction|].
      exists (String x w :: ws). split; [discriminate|reflexivity].
Qed.

Lemma last_app_nonempty {A : Type} (l1 l2 : list A) (d : A) :
  l2 <> [] -> List.last (l1 ++ l2)%list d = List.last l2 d.
Proof.
  intros Hne. destruct (exists_last Hne) as (l & x & ->).
  now rewrite app_assoc, !last_last.
Qed.

Lemma split_on_last (c : ascii) (pre post : string) :
  List.last (split_on c (pre ++ String c post)) "" = List.last (split_on c post) "".
Proof.
  destruct (split_on_front c pre post) as (front & _ & ->).
  apply last_app_nonempty, split_on_nonempty.
Qed.

Lemma split_on_head (c : ascii) (s : string) :
  exists w ws, split_on c s = w :: ws /\ has c w = false /\ String.prefix w s = true.
Proof.
  induction s as [|a s (w & ws & IH & Hw & Hp)]; simpl.
  - exists "", []. auto.
  - destruct (Ascii.eqb a c) eqn:E.
    + exists "", (split_on c s). auto.
    + rewrite IH. exists (String a w), ws. split; [reflexivity|]. simpl. rewrite E, Hw.
      split; [reflexivity|]. destruct (ascii_dec a a); [exact Hp|contradiction].
Qed.

Lemma length_append (a b : string) :
  String.length (a ++ b) = (String.length a + String.length b)%nat.
Proof. induction a as [|x a IH]; simpl; [reflexivity|now rewrite IH]. Qed.

Lemma substring_append (a b : string) :
  String.substring 0 (String.length a) (a ++ b) = a.
Proof.
  induction a as [|x a IH]; simpl; [now destruct b|now rewrite IH].
Qed.

Lemma rfind_none (c : ascii) (s : string) : has c s = false -> rfind c s = None.
Proof.
  induction s as [|a s IH]; simpl; [reflexivity|].
  destruct (Ascii.eqb a c); simpl; [discriminate|]. intros H. now rewrite IH.
Qed.

Lemma rfind_app (c : ascii) (a b : string) :
  has c b = false -> rfind c (a ++ String c b) = Some (String.length a).
Proof.
  intros Hb. induction a as [|x a IH]; simpl.
  - now rewrite (rfind_none _ _ Hb), Ascii.eqb_refl.
  - now rewrite IH.
Qed.

(** The stem of [tag.ext] is [tag], dots inside [tag] notwithstanding. *)
Lemma path_stem_ext (tag ext : string) :
  tag <> "" -> ext <> "" -> has "." ext = false ->
  path_stem (tag ++ String "." ext) = tag.
Proof.
  intros Ht He Hd. unfold path_stem. rewrite (rfind_app _ _ _ Hd), length_append.
  destruct tag as [|x tag]; [contradiction|]. destruct ext as [|y ext]; [contradiction|].
  assert (H1 : (0 <? String.length (String x tag))%nat = true)
    by (apply Nat.ltb_lt; simpl; lia).
  assert (H2 : (String.length (String x tag)
                <? String.length (String x tag) + String.length (String "." (String y ext)) - 1)%nat
               = true) by (apply Nat.ltb_lt; simpl; lia).
  rewrite H1, H2. apply substring_append.
Qed.

End PyStrMore.

(** * More on the result normalisation

    [scripts/aggregate_results.py], lines 13-41: the row is always built,
    and what the folder loop does with the artifact's own file name. *)

Module NormalizerMore.
Import PyStr PyStrMore Normalizer.
Local Open Scope string_scope.

(** The explicit cost-function field of the payload. *)
Definition explicit (j : gmap string json) : json :=
  py_or (get j "cost_function") (get j "costFunction").

Lemma suffix_guess_truthy (stem : string) : truthy (suffix_guess stem) = true.
Proof.
  unfold suffix_guess. destruct (endswith stem "_quadratic"); [reflexivity|].
  now destruct (endswith stem "_linear-load" || endswith stem "_linear_load").
Qed.

Lemma cost_function_truthy (parts : list string) (j : gmap string json) :
  truthy (cost_function parts j) = true.
Proof.
  unfold cost_function.
  match goal with |- truthy (if truthy ?c then _ else _) = true =>
    destruct (truthy c) eqn:E; [exact E|apply suffix_guess_truthy] end.
Qed.

Lemma alg_defined (j : gmap string json) (stem : string) :
  exists a, alg j stem = Some a.
Proof.
  unfold alg. destruct (contains "_" stem) eqn:C; [|eauto].
  destruct (truthy (py_or (get j "algorithm") (get j "Algorithm"))); [eauto|].
  destruct (split_on_second "_" stem C) as [w ->]. eauto.
Qed.

(** When the artifact's own file name passes the folder test, the loop stops
    at it and takes the part after its last underscore. *)
Lemma folder_guess_file (dirs : list string) (name pre last : string) :
  name = pre ++ String "_" last -> has "_" last = false ->
  startswith name "n" = true ->
  folder_guess (dirs ++ [name]) = Some last.
Proof.
  intros -> Hl Hn. unfold folder_guess. rewrite rev_app_distr. simpl.
  assert (Hq : qualifies (pre ++ String "_" last) = true).
  { unfold qualifies. rewrite Hn, andb_true_r, contains_char.
    clear. induction pre as [|x pre IH]; simpl; [reflexivity|].
    rewrite IH. apply orb_true_r. }
  rewrite Hq. f_equal. rewrite split_on_last, (split_on_no_sep _ _ Hl). reflexivity.
Qed.

(** X11. For every file path and every payload that is a JSON object the
    row is built (the index [split('_')[1]] is never out of range); its cost
    function is never empty or missing, its feasibility is 0 or 1, and its
    instance is the part of the stem before the first underscore. *)
Theorem normalize_total :
  forall (parts : list string) (j : gmap string json),
    exists row, normalize parts j = Some row /\
      truthy (r_cost_function row) = true /\
      (r_feasible row = 0 \/ r_feasible row = 1) /\
      has "_" (r_instance row) = false /\
      String.prefix (r_instance row) (stem_of parts) = true /\
      (has "_" (stem_of parts) = true ->
       String.prefix (r_instance row ++ "_") (stem_of parts) = true) /\
      (has "_" (stem_of parts) = false -> r_instance row = stem_of parts).
Proof.
  intros parts j. unfold normalize.
  destruct (alg_defined j (stem_of parts)) as [a ->].
  destruct (split_on_head "_" (stem_of parts)) as (w & ws & E & Hw & Hp).
  rewrite E. simpl. eexists. split; [reflexivity|]. simpl.
  split; [apply cost_function_truthy|].
  split; [unfold feasible; destruct (truthy (get j "feasible")); auto|].
  split; [exact Hw|]. split; [exact Hp|]. split.
  - intros Hs. clear -E Hs. revert w ws E.
    induction (stem_of parts) as [|x s IH]; intros w ws E; simpl in *; [discriminate|].
    destruct (Ascii.eqb_spec x "_") as [->|Hne]; simpl in *.
    + injection E as <- _. simpl. now destruct s.
    + destruct (split_on_head "_" s) as (w' & ws' & E' & _). rewrite E' in E.
      injection E as <- <-. simpl.
      destruct (ascii_dec x x); [|contradiction]. now apply (IH Hs w' ws').
  - intros Hs. rewrite (split_on_no_sep _ _ Hs) in E. now injection E as <-.
Qed.

(** X12. The folder loop scans the path from its end and so meets the
    artifact's own file name first: when that name starts with [n] and holds
    an underscore, and the payload names no cost function, the cost function
    becomes the part of the file name after its last underscore, extension
    included; neither the enclosing folders nor the suffix of the stem are
    looked at. *)
Theorem file_name_taken_for_folder :
  forall (dirs : list string) (pre last : string) (j : gmap string json),
    truthy (explicit j) = false ->
    startswith (pre ++ String "_" last) "n" = true ->
    has "_" last = false ->
    last <> "" ->
    cost_function (dirs ++ [pre ++ String "_" last]) j = JStr last.
Proof.
  intros dirs pre last j He Hn Hl Hne. unfold cost_function. fold (explicit j).
  rewrite He, (folder_guess_file dirs _ pre last eq_refl Hl Hn). simpl.
  destruct (String.eqb_spec last ""); [contradiction|reflexivity].
Qed.

(** The theorem at an artifact of a quadratic run: the row says
    [run0.json], not [quadratic]. *)
Lemma file_name_taken_for_folder_witness :
  cost_function ["results"; "n100q45_quadratic"; "n100q45A_nn_run0.json"] ∅
  = JStr "run0.json".
Proof.
  refine (file_name_taken_for_folder ["results"; "n100q45_quadratic"]
            "n100q45A_nn" "run0.json" ∅ eq_refl eq_refl eq_refl _).
  discriminate.
Defined.

End NormalizerMore.

(** * More on the benchmark runner

    [scripts/run_benchmarks.py], [main]: the algorithm list, the build step,
    the jobs of the four nested loops, their run tags and command lines, and
    what [scripts/aggregate_results.py] reads back from a run tag. *)

Module RunnerMore.
Import PyStr PyStrMore Runner.
Local Open Scope string_scope.

Definition ALGORITHMS : list string :=
  ["nn"; "greedy"; "savings"; "sweep"; "regret"; "cluster-first"; "multi-start";
   "profit-density"; "two-opt"; "vnd"; "sa"; "tabu"; "ils"; "ga"; "memetic";
   "aco"; "mmas"; "hybrid"; "exact"].

(** [algs]: [exact] is dropped unless one of the two flags is set. *)
Definition algs (build_gurobi include_exact : bool) : list string :=
  if negb build_gurobi && negb include_exact
  then List.filter (fun a => negb (String.eqb a "exact")) ALGORITHMS
  else ALGORITHMS.

(** The build step: the [cargo] command that is run first, if any. *)
Definition gurobi_build : list string :=
  ["cargo"; "build"; "--release"; "--features"; "gurobi"].

Definition build (build_gurobi include_exact exe_exists : bool) : option (list string) :=
  if build_gurobi then Some gurobi_build
  else if include_exact then Some gurobi_build
  else if negb exe_exists then Some ["cargo"; "build"; "--release"]
  else None.

(** [str(run_id)] for [run_id] in [range(...)]. *)
Definition str_nat (n : nat) : string := NilZero.string_of_uint (Nat.to_uint n).

(** [run_tag = f'{inst.stem}_{alg}_run{run_id}'] *)
Definition run_tag (stem alg : string) (run_id : nat) : string :=
  stem ++ "_" ++ alg ++ "_run" ++ str_nat run_id.

(** The alias of line 104. *)
Definition resolve (mode : string) : string :=
  if String.eqb mode "linear" then "linear-load" else mode.

(** The options [main] reads. *)
Record args := {
  groups : list string;
  cost_modes : list string;
  runs : Z;
  opt_time_limit : Z;
  opt_alpha : float;
  build_gurobi : bool;
  include_exact : bool
}.

Section Main.

(** [str] of a path given by its parts (it depends on the platform), the
    parts of [RESULTS], [str(EXE)] and the directory listing behind
    [find_instances], which yields the instance paths of a group. *)
Variable path_str : list string -> string.
Variable RESULTS : list string.
Variable EXE : string.
Variable find_instances : string -> list (list string).

(** [out_dir / f'{run_tag}{ext}'] with [out_dir = RESULTS / f'{group}_{mode}']. *)
Definition artifact (group mode : string) (instance : list string) (alg : string)
    (run_id : nat) (ext : string) : list string :=
  (RESULTS ++ [(group ++ "_" ++ mode)%string;
               (run_tag (Normalizer.stem_of instance) alg run_id ++ ext)%string])%list.

(** The job of the innermost loop body; [mode] is the resolved mode. *)
Definition job_of (o : args) (group mode : string) (instance : list string)
    (alg : string) (run_id : nat) : job :=
  {| exe := EXE; inst := path_str instance; Runner.alg := alg; Runner.mode := mode;
     time_limit := opt_time_limit o; alpha := opt_alpha o;
     json_out := path_str (artifact group mode instance alg run_id ".json");
     log_out := path_str (artifact group mode instance alg run_id ".log") |}.

(** [for mode in args.cost_modes: ...] for one group with its instances. *)
Definition jobs_of_mode (o : args) (group : string) (instances : list (list string))
    (mode : string) : list job :=
  let mode := resolve mode in
  flat_map (fun instance =>
    flat_map (fun alg =>
      map (job_of o group mode instance alg) (seq 0 (Z.to_nat (runs o))))
      (algs (build_gurobi o) (include_exact o)))
    instances.

(** [for group in args.groups: ...]: a group without instances is skipped. *)
Definition jobs_of_group (o : args) (group : string) : list job :=
  let instances := find_instances group in
  match instances with
  | [] => []
  | _ => flat_map (jobs_of_mode o group instances) (cost_modes o)
  end.

(** The jobs [main] launches, in order. *)
Definition main_jobs (o : args) : list job := flat_map (jobs_of_group o) (groups o).

(** The cost-function arguments a requested mode is expected to give, alias
    included; the command line of a job is compared with it below. *)
Definition cost_flags (requested : string) (alpha : float) : list arg :=
  if String.eqb requested "quadratic" then
    [ArgStr "--cost-function"; ArgStr "quadratic"; ArgStr "--alpha"; ArgFloat alpha]
  else if String.eqb requested "linear-load" || String.eqb requested "linear" then
    [ArgStr "--cost-function"; ArgStr "linear-load"; ArgStr "--alpha"; ArgFloat alpha]
  else [ArgStr "--cost-function"; ArgStr "distance"].

Lemma in_main_jobs (o : args) (j : job) :
  In j (main_jobs o) <->
  exists group mode instance alg run_id,
    In group (groups o) /\ In instance (find_instances group) /\
    In mode (cost_modes o) /\ In alg (algs (build_gurobi o) (include_exact o)) /\
    (run_id < Z.to_nat (runs o))%nat /\
    j = job_of o group (resolve mode) instance alg run_id.
Proof.
  unfold main_jobs. rewrite in_flat_map. split.
  - intros (group & Hg & Hj). unfold jobs_of_group in Hj.
    assert (Hj' : In j (flat_map (jobs_of_mode o group (find_instances group))
                          (cost_modes o)))
      by (destruct (find_instances group); [destruct Hj|exact Hj]).
    apply in_flat_map in Hj' as (mode & Hm & Hj'). unfold jobs_of_mode in Hj'.
    apply in_flat_map in Hj' as (instance & Hi & Hj').
    apply in_flat_map in Hj' as (alg & Ha & Hj').
    apply in_map_iff in Hj' as (run_id & <- & Hr). apply in_seq in Hr.
    exists group, mode, instance, alg, run_id. repeat split; auto. lia.
  - intros (group & mode & instance & alg & run_id & Hg & Hi & Hm & Ha & Hr & ->).
    exists group. split; [exact Hg|]. unfold jobs_of_group.
    assert (Hj : In (job_of o group (resolve mode) instance alg run_id)
                    (flat_map (jobs_of_mode o group (find_instances group))
                       (cost_modes o))).
    { apply in_flat_map. exists mode. split; [exact Hm|]. unfold jobs_of_mode.
      apply in_flat_map. exists instance. split; [exact Hi|].
      apply in_flat_map. exists alg. split; [exact Ha|].
      apply in_map, in_seq. lia. }
    destruct (find_instances group); [destruct Hi|exact Hj].
Qed.

Lemma flat_map_length_const {A B : Type} (f : A -> list B) (l : list A) (n : nat) :
  (forall x, In x l -> length (f x) = n) -> length (flat_map f l) = (length l * n)%nat.
Proof.
  induction l as [|x l IH]; intros H; simpl; [reflexivity|].
  rewrite length_app, IH, (H x); [reflexivity|now left|].
  intros y Hy. apply H. now right.
Qed.

Lemma jobs_of_group_length (o : args) (group : string) :
  length (jobs_of_group o group) =
  (length (cost_modes o) *
   (length (find_instances group) *
    (length (algs (build_gurobi o) (include_exact o)) * Z.to_nat (runs o))))%nat.
Proof.
  unfold jobs_of_group.
  assert (H : length (flat_map (jobs_of_mode o group (find_instances group)) (cost_modes o))
              = (length (cost_modes o) *
                 (length (find_instances group) *
                  (length (algs (build_gurobi o) (include_exact o)) * Z.to_nat (runs o))))%nat).
  { apply flat_map_length_const. intros mode _. unfold jobs_of_mode.
    apply flat_map_length_const. intros instance _.
    apply flat_map_length_const. intros alg _. now rewrite length_map, length_seq. }
  destruct (find_instances group) eqn:E; [simpl; lia|exact H].
Qed.

(** X13. The number of solver runs of a batch: for every group, its
    instances times the requested cost modes times the algorithms times
    [--runs]; 19 algorithms when [--build-gurobi] or [--include-exact] is
    given and 18 otherwise; a negative [--runs] launches nothing. *)
Theorem main_jobs_count :
  forall o : args,
    length (main_jobs o) =
    (fold_right Nat.add 0 (map (fun g => length (find_instances g)) (groups o)) *
     length (cost_modes o) *
     (if build_gurobi o || include_exact o then 19 else 18) *
     Z.to_nat (runs o))%nat.
Proof.
  intros o. unfold main_jobs.
  assert (Ha : length (algs (build_gurobi o) (include_exact o)) =
               if build_gurobi o || include_exact o then 19%nat else 18%nat)
    by (destruct (build_gurobi o), (include_exact o); reflexivity).
  induction (groups o) as [|g gs IH]; simpl; [reflexivity|].
  rewrite length_app, IH, jobs_of_group_length, Ha. nia.
Qed.

(** X14. Every job of the batch stems from a requested cost mode and gets
    the cost function that mode selects: [quadratic] for [quadratic],
    [linear-load] for [linear-load] and its alias [linear], both with
    [--alpha]; any other mode name runs the plain [distance] cost without
    [--alpha].  The command line is otherwise fixed: solver, instance,
    algorithm, time limit, [--max-profit 100] and the output file. *)
Theorem job_command_line :
  forall (o : args) (j : job),
    In j (main_jobs o) ->
    exists requested,
      In requested (cost_modes o) /\
      Runner.mode j = resolve requested /\
      In (Runner.alg j) (algs (build_gurobi o) (include_exact o)) /\
      cmd_of j =
        ([ArgStr EXE; ArgStr "solve"; ArgStr "-i"; ArgStr (inst j);
          ArgStr "-a"; ArgStr (Runner.alg j); ArgStr "-t"; ArgInt (opt_time_limit o);
          ArgStr "--max-profit"; ArgStr "100"]
         ++ cost_flags requested (opt_alpha o)
         ++ [ArgStr "--output"; ArgStr (json_out j)])%list.
Proof.
  intros o j (group & mode & instance & alg & run_id & _ & _ & Hm & Ha & _ & ->)%in_main_jobs.
  exists mode. split; [exact Hm|]. split; [reflexivity|]. split; [exact Ha|].
  unfold cmd_of, cost_flags, resolve. simpl.
  destruct (String.eqb_spec mode "linear") as [->|Hl]; [reflexivity|].
  destruct (String.eqb mode "quadratic"); [reflexivity|].
  rewrite orb_false_r. reflexivity.
Qed.

End Main.

(** A batch of one instance, two modes and two runs. *)
Definition example_args : args :=
  {| groups := ["n100q45"]; cost_modes := ["linear"; "fast"]; runs := 2;
     opt_time_limit := 60; opt_alpha := 0.5%float;
     build_gurobi := false; include_exact := false |}.

Definition example_listing (group : string) : list (list string) :=
  if String.eqb group "n100q45" then [["benchmark_work"; "n100q45"; "n100q45A.tsp"]]
  else [].

Definition example_path_str (parts : list string) : string :=
  String.concat "/" parts.

Definition example_main_job : job :=
  job_of example_path_str ["results"] "pd-tsp-solver.exe" example_args
    "n100q45" "fast" ["benchmark_work"; "n100q45"; "n100q45A.tsp"] "ils" 1.

(** The theorem at a job of a mode name the runner does not know. *)
Lemma job_command_line_witness :
  exists requested,
    In requested (cost_modes example_args) /\
    Runner.mode example_main_job = resolve requested /\
    In (Runner.alg example_main_job) (algs false false) /\
    cmd_of example_main_job =
      ([ArgStr "pd-tsp-solver.exe"; ArgStr "solve"; ArgStr "-i";
        ArgStr "benchmark_work/n100q45/n100q45A.tsp";
        ArgStr "-a"; ArgStr "ils"; ArgStr "-t"; ArgInt 60;
        ArgStr "--max-profit"; ArgStr "100"]
       ++ cost_flags requested 0.5%float
       ++ [ArgStr "--output"; ArgStr "results/n100q45_fast/n100q45A_ils_run1.json"])%list.
Proof.
  refine (job_command_line example_path_str ["results"] "pd-tsp-solver.exe"
            example_listing example_args example_main_job _).
  vm_compute. do 61 right. left. reflexivity.
Defined.

(** *** Run tags *)

Lemma digits_no_underscore (d : Decimal.uint) :
  has "_" (NilEmpty.string_of_uint d) = false.
Proof. induction d; simpl; auto. Qed.

Lemma str_nat_no_underscore (n : nat) : has "_" (str_nat n) = false.
Proof.
  unfold str_nat, NilZero.string_of_uint.
  destruct (Nat.to_uint n); try reflexivity; apply digits_no_underscore.
Qed.

Lemma to_uint_nonnil (n : nat) : Nat.to_uint n <> Decimal.Nil.
Proof.
  rewrite <- (DecimalNat.Unsigned.of_to n) at 1. rewrite DecimalNat.Unsigned.to_of.
  apply DecimalFacts.unorm_nonnil.
Qed.

Lemma str_nat_inj (m n : nat) : str_nat m = str_nat n -> m = n.
Proof.
  unfold str_nat. intros H.
  assert (E : Some (Nat.to_uint m) = Some (Nat.to_uint n)).
  { rewrite <- (NilZero.usu (Nat.to_uint m)) by apply to_uint_nonnil.
    rewrite <- (NilZero.usu (Nat.to_uint n)) by apply to_uint_nonnil.
    now rewrite H. }
  injection E as E. now apply DecimalNat.Unsigned.to_uint_inj.
Qed.

Lemma has_app (c : ascii) (a b : string) : has c (a ++ b) = has c a || has c b.
Proof. induction a as [|x a IH]; simpl; [reflexivity|]. now rewrite IH, orb_assoc. Qed.

Lemma append_assoc (a b c : string) : (a ++ b) ++ c = a ++ b ++ c.
Proof.
  induction a as [|x a IH]; [reflexivity|].
  change (String x ((a ++ b) ++ c) = String x (a ++ b ++ c)). now rewrite IH.
Qed.

(** A string is cut at its last separator in one way only. *)
Lemma last_sep_unique (c : ascii) (p1 p2 l1 l2 : string) :
  p1 ++ String c l1 = p2 ++ String c l2 ->
  has c l1 = false -> has c l2 = false -> p1 = p2 /\ l1 = l2.
Proof.
  revert p2. induction p1 as [|x p1 IH]; intros [|y p2]; simpl; intros E H1 H2.
  - injection E as ->. auto.
  - injection E as -> ->. rewrite has_app in H1. simpl in H1.
    rewrite Ascii.eqb_refl, orb_true_r in H1. discriminate.
  - injection E as -> <-. rewrite has_app in H2. simpl in H2.
    rewrite Ascii.eqb_refl, orb_true_r in H2. discriminate.
  - injection E as -> E. destruct (IH p2 E H1 H2) as [-> ->]. auto.
Qed.

Lemma algorithms_no_underscore (alg : string) :
  In alg ALGORITHMS -> has "_" alg = false.
Proof.
  intros H. unfold ALGORITHMS in H. repeat (destruct H as [<-|H]; [reflexivity|]).
  destruct H.
Qed.

Lemma run_tag_cut (stem alg : string) (run_id : nat) :
  run_tag stem alg run_id = (stem ++ String "_" alg) ++ String "_" ("run" ++ str_nat run_id).
Proof. unfold run_tag. now rewrite append_assoc. Qed.

(** The stem and the pieces of an artifact's file name. *)
Lemma run_tag_stem (dirs : list string) (stem alg : string) (run_id : nat) :
  Normalizer.stem_of (dirs ++ [run_tag stem alg run_id ++ ".json"]) =
  run_tag stem alg run_id.
Proof.
  unfold Normalizer.stem_of. rewrite Normalizer.name_of_snoc.
  apply path_stem_ext; [|discriminate|reflexivity].
  unfold run_tag. destruct stem; discriminate.
Qed.

Lemma run_tag_split (stem alg : string) (run_id : nat) :
  has "_" stem = false -> has "_" alg = false ->
  split_on "_" (run_tag stem alg run_id) = [stem; alg; "run" ++ str_nat run_id].
Proof.
  intros Hs Ha. unfold run_tag.
  change (stem ++ "_" ++ alg ++ "_run" ++ str_nat run_id)
    with (stem ++ String "_" (alg ++ String "_" ("run" ++ str_nat run_id))).
  rewrite (split_on_app _ _ _ Hs), (split_on_app _ _ _ Ha).
  rewrite split_on_no_sep; [reflexivity|]. simpl. apply str_nat_no_underscore.
Qed.

(** X15. Run tags are unambiguous: two jobs of one output folder write the
    same file only if they agree on the instance stem, the algorithm and
    the run number, whatever underscores the instance stems hold. *)
Theorem run_tag_injective :
  forall (stem1 stem2 alg1 alg2 : string) (run1 run2 : nat),
    In alg1 ALGORITHMS -> In alg2 ALGORITHMS ->
    run_tag stem1 alg1 run1 = run_tag stem2 alg2 run2 ->
    stem1 = stem2 /\ alg1 = alg2 /\ run1 = run2.
Proof.
  intros stem1 stem2 alg1 alg2 run1 run2 H1 H2 E.
  rewrite !run_tag_cut in E.
  apply last_sep_unique in E as [E Er];
    [|simpl; apply str_nat_no_underscore|simpl; apply str_nat_no_underscore].
  apply last_sep_unique in E as [-> ->]; [|now apply algorithms_no_underscore..].
  injection Er as Er. apply str_nat_inj in Er. auto.
Qed.

(** The theorem at two tags of an instance whose stem holds an underscore. *)
Lemma run_tag_injective_witness :
  run_tag "n100_q45A" "two-opt" 12 = "n100_q45A_two-opt_run12" /\
  "n100_q45A" = "n100_q45A" /\ "two-opt" = "two-opt" /\ 12%nat = 12%nat.
Proof.
  split; [reflexivity|].
  refine (run_tag_injective "n100_q45A" "n100_q45A" "two-opt" "two-opt" 12 12 _ _ eq_refl).
  - do 8 right. left. reflexivity.
  - do 8 right. left. reflexivity.
Defined.

(** X16. What the aggregation reads back from an artifact the runner wrote:
    for an instance stem without underscore the row's instance is that stem,
    and the row's algorithm is the payload's [algorithm] (or [Algorithm])
    when that is true in Python's sense and the runner's algorithm name
    otherwise. *)
Theorem run_tag_round_trip :
  forall (dirs : list string) (stem alg : string) (run_id : nat)
         (j : gmap string Normalizer.json),
    has "_" stem = false -> In alg ALGORITHMS ->
    let named := Normalizer.py_or (Normalizer.get j "algorithm")
                                  (Normalizer.get j "Algorithm") in
    exists row,
      Normalizer.normalize (dirs ++ [run_tag stem alg run_id ++ ".json"]) j = Some row /\
      Normalizer.r_instance row = stem /\
      Normalizer.r_algorithm row =
        if Normalizer.truthy named then named else Normalizer.JStr alg.
Proof.
  intros dirs stem alg run_id j Hs Ha named.
  pose proof (algorithms_no_underscore _ Ha) as Hu.
  unfold Normalizer.normalize, Normalizer.alg.
  rewrite run_tag_stem, (run_tag_split _ _ _ Hs Hu).
  assert (Hc : contains "_" (run_tag stem alg run_id) = true).
  { rewrite contains_char. unfold run_tag. rewrite has_app. simpl. apply orb_true_r. }
  rewrite Hc. fold named. simpl.
  destruct (Normalizer.truthy named); eexists; split; reflexivity || (split; reflexivity).
Qed.

(** The theorem at an artifact whose payload names no algorithm. *)
Lemma run_tag_round_trip_witness :
  exists row,
    Normalizer.normalize ["results"; "x"; "n100q45A_nn_run0.json"] ∅ = Some row /\
    Normalizer.r_instance row = "n100q45A" /\
    Normalizer.r_algorithm row = Normalizer.JStr "nn".
Proof.
  refine (run_tag_round_trip ["results"; "x"] "n100q45A" "nn" 0 ∅ eq_refl _).
  left. reflexivity.
Defined.

(** X17. The exact solver is among the algorithms of a batch exactly when
    the build step of this invocation builds the solver with the [gurobi]
    feature; the eighteen other algorithms always run. *)
Theorem exact_needs_gurobi_build :
  forall build_gurobi include_exact exe_exists : bool,
    (In "exact" (algs build_gurobi include_exact) <->
     build build_gurobi include_exact exe_exists = Some gurobi_build) /\
    (forall alg, In alg ALGORITHMS -> alg <> "exact" ->
                 In alg (algs build_gurobi include_exact)).
Proof.
  intros bg ie ex. split.
  - destruct bg, ie, ex; simpl; split; intros H; try reflexivity; try discriminate;
      try (do 18 right; left; reflexivity);
      repeat (destruct H as [H|H]; [discriminate|]); destruct H.
  - intros alg Ha Hne. unfold algs.
    destruct (negb bg && negb ie); [|exact Ha].
    apply filter_In. split; [exact Ha|].
    destruct (String.eqb_spec alg "exact"); [contradiction|reflexivity].
Qed.

End RunnerMore.

(** * More on the algorithm names

    Names of the form [base-run<k>], as the benchmark table holds them:
    [alg_short] of [scripts/compare_linear_quadratic.py] (line 20) and
    [base_alg] of [analyze_benchmark.py] (line 147); the categories of
    [classify_algorithm] ([analyze_benchmark.py], lines 21-31). *)

Module CanonMore.
Import PyStr PyStrMore Canon.
Local Open Scope string_scope.



(** Decimal digits only. *)
Fixpoint all_digits (s : string) : bool :=
  match s with
  | EmptyString => true
  | String c s' => is_digit c && all_digits s'
  end.

(** The run-tag test with explicit character comparisons. *)
Definition run_tag_chars (s : string) : bool :=
  match s with
  | String c1 (String c2 (String c3 (String c4 (String d _)))) =>
      Ascii.eqb c1 "-" && Ascii.eqb c2 "r" && Ascii.eqb c3 "u" && Ascii.eqb c4 "n"
      && is_digit d
  | _ => false
  end.

Ltac by_bits c := destruct c as [[] [] [] [] [] [] [] []]; try reflexivity.

Lemma run_tag_here_chars (s : string) : run_tag_here s = run_tag_chars s.
Proof.
  destruct s as [|c1 [|c2 [|c3 [|c4 [|d t]]]]]; unfold run_tag_here, run_tag_chars.
  - reflexivity.
  - by_bits c1.
  - by_bits c1; by_bits c2.
  - by_bits c1; by_bits c2; by_bits c3.
  - by_bits c1; by_bits c2; by_bits c3; by_bits c4.
  - by_bits c1; by_bits c2; by_bits c3; by_bits c4.
Qed.

(** A run tag cannot begin inside [b] and end behind it when a hyphen
    follows [b]. *)
Lemma run_tag_here_app (c : ascii) (b r : string) :
  run_tag_here (String c b ++ String "-" r) = run_tag_here (String c b).
Proof.
  rewrite !run_tag_here_chars.
  destruct b as [|c2 [|c3 [|c4 [|d t]]]], r as [|r1 [|r2 [|r3 r]]]; simpl;
    rewrite ?andb_false_r; reflexivity.
Qed.

Lemma sub_run_tags_app (b r : string) :
  has_run_tag b = false ->
  sub_run_tags Scan (b ++ String "-" r) = b ++ sub_run_tags Scan (String "-" r).
Proof.
  induction b as [|c b IH]; [reflexivity|].
  change (has_run_tag (String c b)) with (run_tag_here (String c b) || has_run_tag b).
  intros [Hr Hb]%orb_false_iff.
  change (String c b ++ String "-" r) with (String c (b ++ String "-" r)) at 1.
  rewrite sub_run_tags_no_match.
  - rewrite (IH Hb). reflexivity.
  - change (String c (b ++ String "-" r)) with (String c b ++ String "-" r).
    now rewrite run_tag_here_app.
Qed.

Lemma drop_all_digits (ds : string) : all_digits ds = true -> drop_digits ds = "".
Proof.
  induction ds as [|d ds IH]; simpl; [reflexivity|].
  intros [Hd Hds]%andb_true_iff. rewrite Hd. auto.
Qed.


(** The run tag at the end of a clean name is what [alg_short] removes. *)
Lemma alg_short_run (base digits : string) :
  has_run_tag base = false -> quote_free base = true -> strip base = base ->
  digits <> "" -> all_digits digits = true ->
  alg_short (base ++ "-run" ++ digits) = base.
Proof.
  intros Ht Hq Hs Hne Hd.
  unfold alg_short. change ("-run" ++ digits) with (String "-" ("run" ++ digits)).
  rewrite (sub_run_tags_app _ _ Ht).
  destruct digits as [|d ds]; [contradiction|].
  simpl in Hd. apply andb_true_iff in Hd as [Hd Hds].
  change (String "-" ("run" ++ String d ds))
    with (String "-" (String "r" (String "u" (String "n" (String d ds))))).
  rewrite (sub_run_tags_match _ _ Hd), (drop_all_digits _ Hds).
  change (sub_run_tags Scan "") with "".
  replace (base ++ "") with base by (clear; induction base as [|c b IH];
    [reflexivity|change (String c b ++ "") with (String c (b ++ "")); now rewrite <- IH]).
  now rewrite (remove_quotes_id _ Hq).
Qed.



End CanonMore.

Module Classify.
Import PyStr.
Local Open Scope string_scope.

Inductive category := Constructive | LocalSearch | Metaheuristic | Exact | Other.

(** [any(x in alg for x in words)] *)
Definition any_in (words : list string) (alg : string) : bool :=
  existsb (fun x => contains x alg) words.

(** [classify_algorithm] of [analyze_benchmark.py]. *)
Definition classify_algorithm (alg : string) : category :=
  if any_in ["NearestNeighbor"; "GreedyInsertion"; "FarthestInsertion";
             "Savings"; "Sweep"; "Regret"; "ClusterFirst"] alg then Constructive
  else if any_in ["2-Opt"; "Swap"; "Relocation"; "Or-Opt"; "VND"] alg then LocalSearch
  else if any_in ["SA-"; "TabuSearch"; "ILS-"; "GA-"; "MA-"; "ACO-"; "MMAS-"] alg
       then Metaheuristic
  else if contains "Gurobi" alg then Exact
  else Other.

(** The place of a category in the order of the tests. *)
Definition rank (c : category) : nat :=
  match c with
  | Constructive => 0
  | LocalSearch => 1
  | Metaheuristic => 2
  | Exact => 3
  | Other => 4
  end.

Lemma append_cons (c : ascii) (s t : string) : String c s ++ t = String c (s ++ t).
Proof. reflexivity. Qed.

Lemma prefix_empty (s : string) : String.prefix "" s = true.
Proof. now destruct s. Qed.

Lemma prefix_app (x s post : string) :
  String.prefix x s = true -> String.prefix x (s ++ post) = true.
Proof.
  revert s. induction x as [|a x IH]; intros s H; [apply prefix_empty|].
  destruct s as [|b s]; [discriminate|]. rewrite append_cons. simpl in *.
  destruct (ascii_dec a b); [auto|discriminate].
Qed.

Lemma contains_app_r (x s post : string) :
  contains x s = true -> contains x (s ++ post) = true.
Proof.
  induction s as [|b s IH].
  - simpl. rewrite orb_false_r. intros H. destruct x; [|discriminate].
    destruct post; reflexivity.
  - rewrite append_cons.
    change (contains x (String b s)) with (String.prefix x (String b s) || contains x s).
    change (contains x (String b (s ++ post)))
      with (String.prefix x (String b (s ++ post)) || contains x (s ++ post)).
    intros [H|H]%orb_true_iff.
    + rewrite <- append_cons, (prefix_app _ _ post H). reflexivity.
    + rewrite (IH H). apply orb_true_r.
Qed.

Lemma contains_app_l (x pre s : string) :
  contains x s = true -> contains x (pre ++ s) = true.
Proof.
  intros H. induction pre as [|b pre IH]; [exact H|].
  rewrite append_cons.
  change (contains x (String b (pre ++ s)))
    with (String.prefix x (String b (pre ++ s)) || contains x (pre ++ s)).
  rewrite IH. apply orb_true_r.
Qed.

Lemma any_in_app (words : list string) (pre alg post : string) :
  any_in words alg = true -> any_in words (pre ++ alg ++ post) = true.
Proof.
  unfold any_in. rewrite !existsb_exists. intros (x & Hx & Hc).
  exists x. split; [exact Hx|]. now apply contains_app_l, contains_app_r.
Qed.

(** X19. Text added around a name, such as a run suffix, never moves it to
    a category that is tested later: a name that is recognised stays
    recognised, and a constructive name stays constructive whatever is
    appended. *)
Theorem classify_superstring :
  forall pre alg post : string,
    (rank (classify_algorithm (pre ++ alg ++ post)) <= rank (classify_algorithm alg))%nat.
Proof.
  intros pre alg post. unfold classify_algorithm.
  repeat match goal with
  | |- context [any_in ?w alg] =>
      let E := fresh "E" in
      destruct (any_in w alg) eqn:E;
      [rewrite ?(any_in_app w pre alg post E)|]
  end;
  try (destruct (contains "Gurobi" alg) eqn:G;
       [rewrite ?(contains_app_l _ pre _ (contains_app_r _ _ post G))|]);
  repeat match goal with
  | |- context [if ?b then _ else _] => destruct b
  end; simpl; lia.
Qed.

End Classify.

(** * The instance file reader

    [scripts/visualize_solution.py], [parse_tsp_file] (lines 9-51): the
    coordinates and the demands of a TSPLIB-style file, from which the load
    profile is computed. *)

Module TspFile.
Import PyStr PyStrMore.
Local Open Scope string_scope.

(** [line.split()]: the maximal runs of non-blank characters. *)
Fixpoint split_ws (s : string) : list string :=
  match s with
  | EmptyString => []
  | String c s' =>
      if is_space c then split_ws s'
      else match s' with
           | EmptyString => [String c EmptyString]
           | String c' _ =>
               if is_space c' then String c EmptyString :: split_ws s'
               else match split_ws s' with
                    | w :: ws => String c w :: ws
                    | [] => [String c EmptyString]
                    end
           end
  end.

(** [int(s)] on an ASCII string without blanks: an optional sign, then
    decimal digits, single underscores allowed between digits.  [None] is
    the [ValueError]. *)
Definition digit_value (c : ascii) : Z := Z.of_nat (nat_of_ascii c) - 48.

Fixpoint parse_digits (acc : Z) (after_digit : bool) (s : string) : option Z :=
  match s with
  | EmptyString => if after_digit then Some acc else None
  | String c s' =>
      if Canon.is_digit c then parse_digits (10 * acc + digit_value c) true s'
      else if Ascii.eqb c "_" && after_digit then parse_digits acc false s'
      else None
  end.

Definition py_int (s : string) : option Z :=
  match s with
  | String "+" r => parse_digits 0 false r
  | String "-" r => option_map Z.opp (parse_digits 0 false r)
  | _ => parse_digits 0 false s
  end.

(** [str(n)] of an integer. *)
Definition str_Z (n : Z) : string := NilZero.string_of_int (Z.to_int n).

Inductive section := Coords | Demands | Display.

(** The three variables of the loop. *)
Record state := {
  coords : gmap Z (float * float);
  demands : gmap Z Z;
  current : option section
}.

Definition enter (st : state) (s : section) : state :=
  {| coords := coords st; demands := demands st; current := Some s |}.

Section Reader.

(** [float(s)]; [None] is its [ValueError]. *)
Variable py_float : string -> option float.

(** The body of the [coords] and of the [display] branch. *)
Definition coord_line (st : state) (line : string) : option state :=
  match split_ws line with
  | p0 :: p1 :: p2 :: _ =>
      match py_int p0, py_float p1, py_float p2 with
      | Some n, Some x, Some y =>
          Some {| coords := <[n - 1 := (x, y)]> (coords st);
                  demands := demands st; current := current st |}
      | _, _, _ => None
      end
  | _ => Some st
  end.

(** The body of the [demands] branch. *)
Definition demand_line (st : state) (line : string) : option state :=
  match split_ws line with
  | p0 :: p1 :: _ =>
      match py_int p0, py_int p1 with
      | Some n, Some demand =>
          Some {| coords := coords st;
                  demands := <[n - 1 := demand]> (demands st); current := current st |}
      | _, _ => None
      end
  | _ => Some st
  end.

(** One turn of [for line in lines]. *)
Definition step (st : state) (raw : string) : option state :=
  let line := strip raw in
  if String.eqb line "" || String.eqb line "EOF" then Some st
  else if contains "NODE_COORD_SECTION" line then Some (enter st Coords)
  else if contains "DEMAND_SECTION" line then Some (enter st Demands)
  else if contains "DISPLAY_DATA_SECTION" line then Some (enter st Display)
  else match current st with
       | Some Coords => coord_line st line
       | Some Demands => demand_line st line
       | Some Display => coord_line st line
       | None => Some st
       end.

Fixpoint run (st : state) (lines : list string) : option state :=
  match lines with
  | [] => Some st
  | raw :: rest =>
      match step st raw with
      | Some st' => run st' rest
      | None => None
      end
  end.

Definition start : state := {| coords := ∅; demands := ∅; current := None |}.

(** [parse_tsp_file] on the lines of the file. *)
Definition parse_tsp_file (lines : list string)
  : option (gmap Z (float * float) * gmap Z Z) :=
  match run start lines with
  | Some st => Some (coords st, demands st)
  | None => None
  end.

End Reader.

(** The line [id demand] of a demand section, as a writer prints it. *)
Definition demand_record (r : Z * Z) : string := str_Z (fst r) ++ " " ++ str_Z (snd r).

(** What the records of a demand section do to the demand table. *)
Definition record_demands (records : list (Z * Z)) (demands : gmap Z Z) : gmap Z Z :=
  fold_left (fun m r => <[fst r - 1 := snd r]> m) records demands.

(** A line that names no section. *)
Definition names_section (raw : string) : bool :=
  contains "NODE_COORD_SECTION" (strip raw) || contains "DEMAND_SECTION" (strip raw)
  || contains "DISPLAY_DATA_SECTION" (strip raw).

Example py_int_examples :
  py_int "12" = Some 12 /\ py_int "-7" = Some (-7) /\ py_int "+007" = Some 7 /\
  py_int "1_000" = Some 1000 /\ py_int "1__0" = None /\ py_int "_1" = None /\
  py_int "4.0" = None /\ py_int "" = None /\ py_int "-" = None.
Proof. repeat split. Qed.

Example split_ws_examples :
  split_ws " 12   -5 " = ["12"; "-5"] /\ split_ws "a" = ["a"] /\ split_ws "  " = [].
Proof. repeat split. Qed.

(** *** Printing and reading back an integer *)

Fixpoint uint_value (acc : Z) (d : Decimal.uint) : Z :=
  match d with
  | Decimal.Nil => acc
  | Decimal.D0 d => uint_value (10 * acc + 0) d
  | Decimal.D1 d => uint_value (10 * acc + 1) d
  | Decimal.D2 d => uint_value (10 * acc + 2) d
  | Decimal.D3 d => uint_value (10 * acc + 3) d
  | Decimal.D4 d => uint_value (10 * acc + 4) d
  | Decimal.D5 d => uint_value (10 * acc + 5) d
  | Decimal.D6 d => uint_value (10 * acc + 6) d
  | Decimal.D7 d => uint_value (10 * acc + 7) d
  | Decimal.D8 d => uint_value (10 * acc + 8) d
  | Decimal.D9 d => uint_value (10 * acc + 9) d
  end.

Lemma parse_digits_uint (d : Decimal.uint) (acc : Z) :
  parse_digits acc true (NilEmpty.string_of_uint d) = Some (uint_value acc d).
Proof.
  revert acc. induction d; intros acc; simpl; [reflexivity|..]; apply IHd.
Qed.

Lemma parse_digits_first (d : Decimal.uint) :
  d <> Decimal.Nil ->
  parse_digits 0 false (NilEmpty.string_of_uint d) = Some (uint_value 0 d).
Proof.
  destruct d; intros H; [contradiction|..]; simpl; apply parse_digits_uint.
Qed.

Lemma uint_value_pos (d : Decimal.uint) (p : positive) :
  uint_value (Z.pos p) d = Z.pos (Pos.of_uint_acc d p).
Proof.
  revert p. induction d; intros p; simpl; [reflexivity|..];
    match goal with
    | |- uint_value ?a _ = Z.pos (Pos.of_uint_acc _ ?q) =>
        replace a with (Z.pos q) by lia; apply IHd
    end.
Qed.

Lemma uint_value_of_uint (d : Decimal.uint) : uint_value 0 d = Z.of_uint d.
Proof.
  unfold Z.of_uint. induction d; simpl; [reflexivity|exact IHd|..];
    match goal with
    | |- uint_value ?a _ = _ => change a with (Z.pos (Pos.of_succ_nat (Z.to_nat a - 1)))
    end; simpl; apply uint_value_pos.
Qed.

Lemma py_int_uint (d : Decimal.uint) :
  d <> Decimal.Nil ->
  py_int (NilZero.string_of_uint d) = Some (Z.of_uint d) /\
  py_int (String "-" (NilZero.string_of_uint d)) = Some (- Z.of_uint d).
Proof.
  intros H. rewrite <- uint_value_of_uint.
  destruct d; [contradiction|..]; split; simpl; rewrite parse_digits_uint; reflexivity.
Qed.

Lemma py_int_str (n : Z) : py_int (str_Z n) = Some n.
Proof.
  unfold str_Z. destruct n as [|p|p]; [reflexivity| |];
    destruct (py_int_uint _ (DecimalPos.Unsigned.to_uint_nonnil p)) as [E1 E2].
  - change (NilZero.string_of_int (Z.to_int (Z.pos p)))
      with (NilZero.string_of_uint (Pos.to_uint p)).
    rewrite E1. unfold Z.of_uint. now rewrite DecimalPos.Unsigned.of_to.
  - change (NilZero.string_of_int (Z.to_int (Z.neg p)))
      with (String "-" (NilZero.string_of_uint (Pos.to_uint p))).
    rewrite E2. unfold Z.of_uint. now rewrite DecimalPos.Unsigned.of_to.
Qed.

(** *** The characters of a printed integer *)

Definition int_char (c : ascii) : bool := Canon.is_digit c || Ascii.eqb c "-".

Fixpoint all_chars (P : ascii -> bool) (s : string) : bool :=
  match s with
  | EmptyString => true
  | String c s' => P c && all_chars P s'
  end.

(** A printed field: not empty, digits and the minus sign only. *)
Definition token (s : string) : bool :=
  negb (String.eqb s "") && all_chars int_char s.

(** A line that the loop passes over: blank, or the [EOF] mark. *)
Definition skipped (raw : string) : bool :=
  String.eqb (strip raw) "" || String.eqb (strip raw) "EOF".

Lemma uint_chars (d : Decimal.uint) :
  all_chars int_char (NilEmpty.string_of_uint d) = true.
Proof. induction d; simpl; auto. Qed.

Lemma str_Z_token (n : Z) : token (str_Z n) = true.
Proof.
  unfold str_Z. destruct n as [|p|p]; [reflexivity| |].
  - change (NilZero.string_of_int (Z.to_int (Z.pos p)))
      with (NilZero.string_of_uint (Pos.to_uint p)).
    pose proof (DecimalPos.Unsigned.to_uint_nonnil p) as Hn.
    pose proof (uint_chars (Pos.to_uint p)) as Hc.
    unfold token, NilZero.string_of_uint.
    destruct (Pos.to_uint p); [contradiction|..]; exact Hc.
  - change (NilZero.string_of_int (Z.to_int (Z.neg p)))
      with (String "-" (NilZero.string_of_uint (Pos.to_uint p))).
    pose proof (DecimalPos.Unsigned.to_uint_nonnil p) as Hn.
    pose proof (uint_chars (Pos.to_uint p)) as Hc.
    unfold token, NilZero.string_of_uint.
    destruct (Pos.to_uint p); [contradiction|..]; exact Hc.
Qed.

Lemma int_char_not_space (c : ascii) : int_char c = true -> is_space c = false.
Proof. destruct c as [[] [] [] [] [] [] [] []]; simpl; intros H; solve [reflexivity|discriminate]. Qed.

Lemma token_cons (t : string) :
  token t = true ->
  exists c t', t = String c t' /\ int_char c = true /\ all_chars int_char t' = true.
Proof.
  destruct t as [|c t']; [discriminate|]. unfold token. simpl.
  intros [Hc Ht]%andb_true_iff. eauto.
Qed.

Lemma rstrip_chars (t : string) : all_chars int_char t = true -> rstrip t = t.
Proof.
  induction t as [|c t IH]; [reflexivity|]. simpl.
  intros [Hc Ht]%andb_true_iff. rewrite (IH Ht), (int_char_not_space _ Hc).
  now destruct t.
Qed.

Lemma rstrip_app_token (s t : string) : token t = true -> rstrip (s ++ t) = s ++ t.
Proof.
  intros Ht. destruct (token_cons _ Ht) as (c & t' & -> & Hc & Ht').
  induction s as [|x s IH].
  - apply rstrip_chars. simpl. now rewrite Hc, Ht'.
  - change (String x s ++ String c t') with (String x (s ++ String c t')).
    simpl. rewrite IH. now destruct s.
Qed.

Lemma split_ws_chars (c : ascii) (t : string) :
  int_char c = true -> all_chars int_char t = true ->
  split_ws (String c t) = [String c t].
Proof.
  revert c. induction t as [|c' t IH]; intros c Hc Ht.
  - simpl. now rewrite (int_char_not_space _ Hc).
  - simpl in Ht. apply andb_true_iff in Ht as [Hc' Ht].
    change (split_ws (String c (String c' t)))
      with (if is_space c then split_ws (String c' t)
            else if is_space c' then String c EmptyString :: split_ws (String c' t)
                 else match split_ws (String c' t) with
                      | w :: ws => String c w :: ws
                      | [] => [String c EmptyString]
                      end).
    now rewrite (int_char_not_space _ Hc), (int_char_not_space _ Hc'), (IH c' Hc' Ht).
Qed.

Lemma split_ws_token (t : string) : token t = true -> split_ws t = [t].
Proof.
  intros Ht. destruct (token_cons _ Ht) as (c & t' & -> & Hc & Ht').
  now apply split_ws_chars.
Qed.

Lemma split_ws_token_then (c : ascii) (t rest : string) :
  int_char c = true -> all_chars int_char t = true ->
  split_ws (String c t ++ String " " rest) = String c t :: split_ws (String " " rest).
Proof.
  revert c. induction t as [|c' t IH]; intros c Hc Ht.
  - change (String c "" ++ String " " rest) with (String c (String " " rest)).
    change (split_ws (String c (String " " rest)))
      with (if is_space c then split_ws (String " " rest)
            else String c EmptyString :: split_ws rest).
    now rewrite (int_char_not_space _ Hc).
  - simpl in Ht. apply andb_true_iff in Ht as [Hc' Ht].
    change (String c (String c' t) ++ String " " rest)
      with (String c (String c' t ++ String " " rest)).
    change (String c' t ++ String " " rest)
      with (String c' (t ++ String " " rest)) at 1.
    change (split_ws (String c (String c' (t ++ String " " rest))))
      with (if is_space c then split_ws (String c' (t ++ String " " rest))
            else if is_space c' then
                   String c EmptyString :: split_ws (String c' (t ++ String " " rest))
                 else match split_ws (String c' (t ++ String " " rest)) with
                      | w :: ws => String c w :: ws
                      | [] => [String c EmptyString]
                      end).
    rewrite (int_char_not_space _ Hc), (int_char_not_space _ Hc').
    change (String c' (t ++ String " " rest)) with (String c' t ++ String " " rest).
    now rewrite (IH c' Hc' Ht).
Qed.

(** A word can only occur in a string that holds its first character. *)
Lemma contains_first (k : ascii) (x s : string) :
  has k s = false -> contains (String k x) s = false.
Proof.
  induction s as [|c s IH]; [reflexivity|]. simpl.
  intros [Hc Hs]%orb_false_iff. rewrite (IH Hs), orb_false_r.
  destruct (ascii_dec k c) as [->|]; [|reflexivity].
  now rewrite Ascii.eqb_refl in Hc.
Qed.

Lemma has_chars (P : ascii -> bool) (k : ascii) (s : string) :
  P k = false -> all_chars P s = true -> has k s = false.
Proof.
  intros Hk. induction s as [|c s IH]; [reflexivity|]. simpl.
  intros [Hc Hs]%andb_true_iff. rewrite (IH Hs), orb_false_r.
  destruct (Ascii.eqb_spec c k) as [->|]; [congruence|reflexivity].
Qed.

(** Digits, minus signs and blanks. *)
Definition record_char (c : ascii) : bool := int_char c || Ascii.eqb c " ".

Lemma all_chars_app (P : ascii -> bool) (a b : string) :
  all_chars P (a ++ b) = all_chars P a && all_chars P b.
Proof.
  induction a as [|c a IH]; [reflexivity|].
  change (String c a ++ b) with (String c (a ++ b)). simpl. now rewrite IH, andb_assoc.
Qed.

Lemma all_chars_weaken (P Q : ascii -> bool) (s : string) :
  (forall c, P c = true -> Q c = true) -> all_chars P s = true -> all_chars Q s = true.
Proof.
  intros HPQ. induction s as [|c s IH]; [reflexivity|]. simpl.
  intros [Hc Hs]%andb_true_iff. now rewrite (HPQ c Hc), IH.
Qed.

(** What the loop sees of a printed record. *)
Lemma record_line (a b : string) :
  token a = true -> token b = true ->
  let line := a ++ " " ++ b in
  strip line = line /\ skipped line = false /\ names_section line = false /\
  split_ws line = [a; b].
Proof.
  intros Ha Hb line.
  destruct (token_cons _ Ha) as (c & a' & -> & Hc & Ha').
  assert (Hstrip : strip line = line).
  { unfold strip, line.
    rewrite Canon.lstrip_id by (simpl; now apply int_char_not_space).
    rewrite <- (RunnerMore.append_assoc (String c a') " " b).
    now apply rstrip_app_token. }
  assert (Hchars : all_chars record_char line = true).
  { unfold line. rewrite !all_chars_app.
    assert (W : forall s, all_chars int_char s = true ->
                          all_chars record_char s = true).
    { intros s. apply all_chars_weaken. intros x Hx. unfold record_char.
      now rewrite Hx. }
    pose proof Hb as Hb'. apply andb_true_iff in Hb' as [_ Hb'].
    rewrite (W (String c a')), (W b); [reflexivity|exact Hb'|].
    simpl. now rewrite Hc, Ha'. }
  split; [exact Hstrip|]. split; [|split].
  - unfold skipped. rewrite Hstrip. unfold line.
    change (String c a' ++ " " ++ b) with (String c (a' ++ " " ++ b)).
    destruct (String.eqb_spec (String c (a' ++ " " ++ b)) "EOF") as [E|_];
      [|reflexivity].
    injection E as -> _. discriminate.
  - unfold names_section. rewrite Hstrip.
    rewrite !contains_first; [reflexivity|..];
      apply (has_chars record_char); auto.
  - unfold line. change (String c a' ++ " " ++ b) with (String c a' ++ String " " b).
    rewrite (split_ws_token_then _ _ _ Hc Ha').
    change (split_ws (String " " b)) with (split_ws b).
    now rewrite (split_ws_token _ Hb).
Qed.

Section ReaderFacts.

Variable py_float : string -> option float.

Lemma run_app (st : state) (a b : list string) :
  run py_float st (a ++ b) =
  match run py_float st a with
  | Some st' => run py_float st' b
  | None => None
  end.
Proof.
  revert st. induction a as [|raw a IH]; intros st; simpl; [reflexivity|].
  destruct (step py_float st raw); [apply IH|reflexivity].
Qed.

Lemma run_cons (st : state) (raw : string) (rest : list string) :
  run py_float st (raw :: rest) =
  match step py_float st raw with
  | Some st' => run py_float st' rest
  | None => None
  end.
Proof. reflexivity. Qed.

Lemma step_skipped (st : state) (raw : string) :
  skipped raw = true -> step py_float st raw = Some st.
Proof. unfold skipped, step. cbv zeta. now intros ->. Qed.

Lemma run_skipped (st : state) (lines : list string) :
  forallb skipped lines = true -> run py_float st lines = Some st.
Proof.
  induction lines as [|raw lines IH]; simpl; [reflexivity|].
  intros [Hr Hl]%andb_true_iff. rewrite (step_skipped _ _ Hr). auto.
Qed.

Lemma step_outside (st : state) (raw : string) :
  current st = None -> names_section raw = false -> step py_float st raw = Some st.
Proof.
  unfold names_section, step. cbv zeta. intros Hc H.
  apply orb_false_iff in H as [H H3]. apply orb_false_iff in H as [H1 H2].
  rewrite H1, H2, H3, Hc.
  now destruct (String.eqb (strip raw) "" || String.eqb (strip raw) "EOF").
Qed.

Lemma step_header (st : state) (raw : string) :
  strip raw = "DEMAND_SECTION" -> step py_float st raw = Some (enter st Demands).
Proof. unfold step. cbv zeta. now intros ->. Qed.

Lemma step_record (st : state) (r : Z * Z) :
  current st = Some Demands ->
  step py_float st (demand_record r) =
  Some {| coords := coords st; demands := <[fst r - 1 := snd r]> (demands st);
          current := Some Demands |}.
Proof.
  intros Hc. unfold demand_record.
  destruct (record_line _ _ (str_Z_token (fst r)) (str_Z_token (snd r)))
    as (Hs & Hk & Hn & Hw).
  unfold skipped in Hk. unfold names_section in Hn. rewrite Hs in Hk, Hn.
  apply orb_false_iff in Hn as [Hn H3]. apply orb_false_iff in Hn as [H1 H2].
  unfold step. cbv zeta. rewrite Hs, Hk, H1, H2, H3, Hc.
  unfold demand_line. rewrite Hw, !py_int_str, Hc. reflexivity.
Qed.

Lemma run_records (records : list (Z * Z)) (st : state) :
  current st = Some Demands ->
  run py_float st (map demand_record records) =
  Some {| coords := coords st; demands := record_demands records (demands st);
          current := Some Demands |}.
Proof.
  revert st. induction records as [|r records IH]; intros st Hc; simpl.
  - destruct st; simpl in *. now subst.
  - rewrite (step_record _ _ Hc). now rewrite IH.
Qed.

End ReaderFacts.

(** X20. A demand section is read back as it was written: after any lines
    that parse, a [DEMAND_SECTION] header followed by the printed records
    [id demand] and by blank or [EOF] lines leaves the coordinates as they
    were and stores each demand under [id - 1], a later record of a node
    replacing an earlier one. *)
Theorem demand_section_round_trip :
  forall (py_float : string -> option float) (pre post : list string)
         (records : list (Z * Z)),
    forallb skipped post = true ->
    parse_tsp_file py_float
      (pre ++ "DEMAND_SECTION" :: map demand_record records ++ post) =
    match parse_tsp_file py_float pre with
    | Some (coords, demands) => Some (coords, record_demands records demands)
    | None => None
    end.
Proof.
  intros py_float pre post records Hpost. unfold parse_tsp_file.
  rewrite run_app. destruct (run py_float start pre) as [st|]; [|reflexivity].
  rewrite run_cons, (step_header py_float st "DEMAND_SECTION" eq_refl), run_app.
  rewrite run_records by reflexivity. now rewrite (run_skipped _ _ _ Hpost).
Qed.

(** The theorem on a file of three nodes, node 2 listed twice. *)
Lemma demand_section_round_trip_witness :
  parse_tsp_file (fun _ => None)
    ["NAME: x"; "DEMAND_SECTION"; "1 5"; "2 3"; "3 -8"; "2 4"; "EOF"; ""] =
  Some (∅, record_demands [(1, 5); (2, 3); (3, -8); (2, 4)] ∅).
Proof.
  exact (demand_section_round_trip (fun _ => None) ["NAME: x"] ["EOF"; ""]
           [(1, 5); (2, 3); (3, -8); (2, 4)] eq_refl).
Defined.

(** X21. Lines ahead of the first section header are not read as data: a
    preamble none of whose lines names a section changes nothing, whatever
    it holds. *)
Theorem preamble_ignored :
  forall (py_float : string -> option float) (pre rest : list string),
    forallb (fun raw => negb (names_section raw)) pre = true ->
    parse_tsp_file py_float (pre ++ rest) = parse_tsp_file py_float rest.
Proof.
  intros py_float pre rest Hpre. unfold parse_tsp_file. rewrite run_app.
  assert (E : run py_float start pre = Some start).
  { induction pre as [|raw pre IH]; [reflexivity|]. simpl in *.
    apply andb_true_iff in Hpre as [Hr Hp]. apply negb_true_iff in Hr.
    rewrite (step_outside py_float start raw eq_refl Hr). auto. }
  now rewrite E.
Qed.

(** The theorem on a preamble with a line that would not parse as data. *)
Lemma preamble_ignored_witness :
  parse_tsp_file (fun _ => None)
    ["NAME: n5"; "1 2 x"; "CAPACITY : 10"; "DEMAND_SECTION"; "1 5"] =
  parse_tsp_file (fun _ => None) ["DEMAND_SECTION"; "1 5"].
Proof.
  exact (preamble_ignored (fun _ => None) ["NAME: n5"; "1 2 x"; "CAPACITY : 10"]
           ["DEMAND_SECTION"; "1 5"] eq_refl).
Defined.

End TspFile.

(** * The shape of a Pareto front

    [report/analyze_and_plot.py]: the front is plotted as a line through its
    points sorted by time. *)

Module ParetoShape.
Import Frame Pareto.
Local Open Scope float_scope.

Lemma ltb_of_not_leb (x y : float) :
  is_nan x = false -> is_nan y = false -> (x <=? y) = false -> (y <? x) = true.
Proof.
  intros Nx Ny H. destruct (y <? x) eqn:L; [reflexivity|].
  rewrite (FloatOrder.leb_total y x Ny Nx L) in H. discriminate.
Qed.

Lemma front_not_dominated (df : list point) (front : list (nat * point))
    (k j : nat) (p q : point) :
  pareto_front df = Some front -> In (k, p) front -> In (j, q) front ->
  dominates q p = false /\
  is_nan (fst p) = false /\ is_nan (snd p) = false.
Proof.
  intros H Hp Hq. destruct (pareto_front_rows df) as (front' & E & Hfront).
  rewrite E in H. injection H as ->.
  apply Hfront in Hp as [Hp Hd]. apply Hfront in Hq as [Hq _].
  apply in_dropna in Hp as (_ & Nx & Ny).
  unfold notna in Nx, Ny. apply negb_true_iff in Nx, Ny.
  split; [|auto]. destruct (dominates q p) eqn:D; [|reflexivity].
  assert (List.existsb (fun q => dominates q p) (map snd (dropna df)) = true);
    [|congruence].
  apply existsb_exists. exists q. split; [|exact D].
  apply in_map_iff. exists (j, q). auto.
Qed.

(** X22. The front is a descending staircase: of two returned points the
    one with the smaller time has the strictly greater cost, and two
    returned points with equal times have equal costs; so the dashed line
    drawn through the front sorted by time never rises. *)
Theorem pareto_front_staircase :
  forall (df : list point) (front : list (nat * point)) (k j : nat) (p q : point),
    pareto_front df = Some front -> In (k, p) front -> In (j, q) front ->
    ((fst p <? fst q) = true -> (snd q <? snd p) = true) /\
    ((fst p =? fst q) = true -> (snd p =? snd q) = true).
Proof.
  intros df front k j p q H Hp Hq.
  destruct (front_not_dominated df front k j p q H Hp Hq) as (Dqp & Npx & Npy).
  destruct (front_not_dominated df front j k q p H Hq Hp) as (Dpq & Nqx & Nqy).
  unfold dominates in Dqp, Dpq. split.
  - intros L. rewrite (FloatOrder.ltb_leb _ _ L), L in Dpq. simpl in Dpq.
    rewrite andb_true_r in Dpq. now apply ltb_of_not_leb.
  - intros E.
    assert (L1 : (fst p <? fst q) = false).
    { destruct (fst p <? fst q) eqn:L; [|reflexivity].
      rewrite (FloatOrderMore.ltb_not_eqb _ _ L) in E. discriminate. }
    assert (L2 : (fst q <? fst p) = false).
    { destruct (fst q <? fst p) eqn:L; [|reflexivity].
      apply FloatOrderMore.ltb_not_eqb in L.
      rewrite (FloatOrder.eqb_sym _ _ E) in L. discriminate. }
    rewrite (FloatOrderMore.eqb_leb _ _ E), L1 in Dpq.
    rewrite (FloatOrderMore.eqb_leb _ _ (FloatOrder.eqb_sym _ _ E)), L2 in Dqp.
    simpl in Dpq, Dqp.
    assert (M1 : (snd p <? snd q) = false).
    { destruct (snd p <? snd q) eqn:L; [|reflexivity].
      rewrite (FloatOrder.ltb_leb _ _ L) in Dpq. discriminate. }
    assert (M2 : (snd q <? snd p) = false).
    { destruct (snd q <? snd p) eqn:L; [|reflexivity].
      rewrite (FloatOrder.ltb_leb _ _ L) in Dqp. discriminate. }
    destruct (snd p =? snd q) eqn:Ey; [reflexivity|].
    rewrite (FloatOrderMore.ltb_total_strict _ _ Npy Nqy Ey M1) in M2. discriminate.
Qed.

(** The theorem at the two front points of the example. *)
Lemma pareto_front_staircase_witness :
  pareto_front [(1, 10); (2, 5); (3, 5)] = Some [(0%nat, (1, 10)); (1%nat, (2, 5))] /\
  (5 <? 10) = true.
Proof.
  assert (H : pareto_front [(1, 10); (2, 5); (3, 5)]
              = Some [(0%nat, (1, 10)); (1%nat, (2, 5))]) by reflexivity.
  split; [exact H|].
  exact (proj1 (pareto_front_staircase _ _ 0%nat 1%nat (1, 10) (2, 5) H
                  (or_introl eq_refl) (or_intror (or_introl eq_refl))) eq_refl).
Defined.

End ParetoShape.

(** * Labels and letter case

    [normalize_algo] of [report/analyze_and_plot.py] (lines 36-55) tests the
    lower-cased name and returns the name itself when no test applies. *)

Module CanonCase.
Import PyStr Canon.
Local Open Scope string_scope.

(** X23. Two spellings of a name that differ in letter case only get the
    same label when the name is recognised; when it is not, each spelling
    is returned as it is, so the two stay apart. *)
Theorem normalize_algo_case :
  forall n1 n2 : string,
    lower n1 = lower n2 ->
    normalize_algo (Some n1) = normalize_algo (Some n2) \/
    (normalize_algo (Some n1) = Some n1 /\ normalize_algo (Some n2) = Some n2).
Proof.
  intros n1 n2 H. unfold normalize_algo, normalize_str. cbv zeta. rewrite H.
  repeat match goal with
  | |- context [if ?b then _ else _] => destruct b
  end; auto.
Qed.

(** The theorem at two spellings of a recognised and of an unknown name. *)
Lemma normalize_algo_case_witness :
  (normalize_algo (Some "aco-RUN1") = normalize_algo (Some "ACO-run1") \/
   (normalize_algo (Some "aco-RUN1") = Some "aco-RUN1" /\
    normalize_algo (Some "ACO-run1") = Some "ACO-run1")) /\
  normalize_algo (Some "TabuSearch") <> normalize_algo (Some "tabusearch").
Proof.
  split; [exact (normalize_algo_case "aco-RUN1" "ACO-run1" eq_refl)|discriminate].
Defined.

End CanonCase.

(** * The linear-versus-quadratic comparison

    [scripts/compare_linear_quadratic.py], lines 20-39: for each algorithm
    of interest, the best benchmark cost over the rows whose short name
    contains the algorithm, the quadratic row at alpha 0.1, and the relative
    change of the cost. *)

Module Compare.
Import PyStr Canon CanonMore.
Local Open Scope float_scope.

(** A row of the benchmark table [b] and a row of the sweep summary [q];
    a missing number is NaN. *)
Record bench_row := { b_algorithm : string; b_cost : float }.

Record quad_row := {
  q_algorithm : string;
  q_alpha : float;
  q_cost : float;
  q_profit : float;
  q_objective : float
}.

Definition algs : list string :=
  ["ILS"; "ACO"; "MMAS"; "GeneticAlgorithm"; "GreedyInsertion"]%string.

(** [b[b['alg_short'].str.contains(alg, regex=False)]] *)
Definition sub (b : list bench_row) (alg : string) : list bench_row :=
  List.filter (fun r => contains alg (alg_short (b_algorithm r))) b.

(** [q[(q['algorithm'] == alg) & (q['alpha'] == 0.1)]] *)
Definition qsub (q : list quad_row) (alg : string) : list quad_row :=
  List.filter (fun r => String.eqb (q_algorithm r) alg
                        && (q_alpha r =? Sensitivity.one_tenth)) q.

(** Truth of [None] or of a number: zero is false, NaN is true. *)
Definition truth (x : option float) : bool :=
  match x with
  | None => false
  | Some v => negb (v =? 0)
  end.

(** One element of [rows]. *)
Record comparison := {
  c_algorithm : string;
  bench_cost : option float;
  quad_cost : option float;
  profit : option float;
  bench_objective : option float;
  quad_objective : option float;
  pct_cost_change : option float
}.

(** The body of [for alg in algs]. *)
Definition compare (b : list bench_row) (q : list quad_row) (alg : string) : comparison :=
  let bench_cost :=
    match sub b alg with
    | [] => None
    | rs => Some (Gap.series_min (map b_cost rs))
    end in
  let quad_cost := head (map q_cost (qsub q alg)) in
  let profit := head (map q_profit (qsub q alg)) in
  let bench_obj :=
    match profit, bench_cost with
    | Some p, Some c => Some (p - c)
    | _, _ => None
    end in
  let quad_obj := head (map q_objective (qsub q alg)) in
  let pct_change_cost :=
    match bench_cost, quad_cost with
    | Some bc, Some qc =>
        if truth bench_cost && truth quad_cost then Some ((qc - bc) / bc * 100) else None
    | _, _ => None
    end in
  {| c_algorithm := alg; bench_cost := bench_cost; quad_cost := quad_cost;
     profit := profit; bench_objective := bench_obj; quad_objective := quad_obj;
     pct_cost_change := pct_change_cost |}.

Definition rows (b : list bench_row) (q : list quad_row) : list comparison :=
  map (compare b q) algs.

(** Three runs of ILS. *)
Definition example_bench : list bench_row :=
  [ {| b_algorithm := "ILS-run0"; b_cost := 120 |};
    {| b_algorithm := "ILS-run1"; b_cost := 110 |};
    {| b_algorithm := "ILS-run2"; b_cost := 115 |} ].

(** A run of one of the five algorithms is among the rows selected for it. *)
Lemma run_selected (b : list bench_row) (alg digits : string) (r : bench_row) :
  In alg algs -> In r b ->
  b_algorithm r = (alg ++ "-run" ++ digits)%string ->
  digits <> ""%string -> all_digits digits = true ->
  In r (sub b alg).
Proof.
  intros Ha Hr Hn Hne Hd. unfold sub. apply filter_In. split; [exact Hr|].
  rewrite Hn. unfold algs in Ha.
  repeat (destruct Ha as [<-|Ha];
          [rewrite alg_short_run; [reflexivity..|exact Hne|exact Hd]|]).
  destruct Ha.
Qed.

(** X24. Every run of an algorithm counts towards its linear cost: for a
    benchmark row named [alg-run<k>] of one of the five algorithms whose
    cost is present, the reported benchmark cost exists, is a number and is
    at most the cost of that row. *)
Theorem bench_cost_over_runs :
  forall (b : list bench_row) (q : list quad_row) (alg digits : string) (r : bench_row),
    In alg algs -> In r b ->
    b_algorithm r = (alg ++ "-run" ++ digits)%string ->
    digits <> ""%string -> all_digits digits = true ->
    is_nan (b_cost r) = false ->
    exists m, bench_cost (compare b q alg) = Some m /\
              is_nan m = false /\ (m <=? b_cost r) = true.
Proof.
  intros b q alg digits r Ha Hr Hn Hne Hd Nr.
  pose proof (run_selected b alg digits r Ha Hr Hn Hne Hd) as Hin.
  unfold compare. simpl.
  destruct (sub b alg) as [|r0 rs] eqn:E; [destruct Hin|].
  eexists. split; [reflexivity|].
  assert (Hc : In (b_cost r) (map b_cost (r0 :: rs))) by now apply in_map.
  destruct (Gap.series_min_spec (map b_cost (r0 :: rs))) as [[_ Hall]|(Nm & _ & Hle)].
  - rewrite (Hall _ Hc) in Nr. discriminate.
  - split; [exact Nm|]. now apply Hle.
Qed.

(** The theorem at the second of three runs of ILS. *)
Lemma bench_cost_over_runs_witness :
  exists m, bench_cost (compare example_bench [] "ILS") = Some m /\
            is_nan m = false /\ (m <=? 110) = true.
Proof.
  refine (bench_cost_over_runs example_bench [] "ILS" "1"
            {| b_algorithm := "ILS-run1"; b_cost := 110 |}
            (or_introl eq_refl) (or_intror (or_introl eq_refl)) eq_refl _ eq_refl eq_refl).
  discriminate.
Defined.

End Compare.

(** * The artifacts of the alpha sweep

    [scripts/run_quadratic_sensitivity.py] (lines 38-48) names the outputs
    of the sweep; [scripts/aggregate_quadratic_results.py] (line 25) reads
    the algorithm back. *)

Module SweepTag.
Import PyStr PyStrMore.
Local Open Scope string_scope.

Definition ALGS : list string := ["greedy"; "ils"; "aco"; "mmas"; "ga"].

(** [tag = f'n100mosA_{alg}_alpha{alpha}'], with [alpha] standing for
    [str(alpha)]. *)
Definition tag (alg alpha : string) : string :=
  "n100mosA_" ++ alg ++ "_alpha" ++ alpha.

(** [alg = data.get('algorithm', j.stem.split('_')[1] if '_' in j.stem
    else 'unknown')]: the default is computed before the lookup; [None] is
    the [IndexError] of its index. *)
Definition alg (data : gmap string Normalizer.json) (stem : string)
  : option Normalizer.json :=
  let default :=
    if contains "_" stem then nth_error (split_on "_" stem) 1 else Some "unknown" in
  match default with
  | None => None
  | Some d =>
      Some match data !! "algorithm" with
           | Some v => v
           | None => Normalizer.JStr d
           end
  end.

Lemma tag_stem (a alpha : string) : path_stem (tag a alpha ++ ".json") = tag a alpha.
Proof. apply path_stem_ext; [discriminate|discriminate|reflexivity]. Qed.

Lemma tag_second (a alpha : string) :
  has "_" a = false -> nth_error (split_on "_" (tag a alpha)) 1 = Some a.
Proof.
  intros Ha. unfold tag.
  change ("n100mosA_" ++ a ++ "_alpha" ++ alpha)
    with ("n100mosA" ++ String "_" (a ++ String "_" ("alpha" ++ alpha))).
  rewrite (split_on_app "_" "n100mosA" _ eq_refl), (split_on_app _ _ _ Ha).
  reflexivity.
Qed.

Lemma algs_no_underscore (a : string) : In a ALGS -> has "_" a = false.
Proof.
  intros H. unfold ALGS in H. repeat (destruct H as [<-|H]; [reflexivity|]).
  destruct H.
Qed.

(** X25. For an artifact of the sweep the summary takes the algorithm from
    the payload whenever the payload has an [algorithm] entry, a null one
    included, and from the file name otherwise, where it finds the sweep's
    own algorithm name; the lookup never fails.  [aggregate_results.py]
    differs on a null entry: it falls back to the file name. *)
Theorem sweep_algorithm_read_back :
  forall (data : gmap string Normalizer.json) (a alpha : string),
    In a ALGS ->
    let stem := path_stem (tag a alpha ++ ".json") in
    alg data stem =
      Some match data !! "algorithm" with
           | Some v => v
           | None => Normalizer.JStr a
           end /\
    (data !! "algorithm" = Some Normalizer.JNull -> data !! "Algorithm" = None ->
     alg data stem = Some Normalizer.JNull /\
     Normalizer.alg data stem = Some (Normalizer.JStr a)).
Proof.
  intros data a alpha Ha stem. unfold stem. rewrite tag_stem.
  pose proof (algs_no_underscore _ Ha) as Hu.
  assert (Hc : contains "_" (tag a alpha) = true)
    by (rewrite contains_char; unfold tag; now rewrite RunnerMore.has_app).
  assert (E : alg data (tag a alpha) =
              Some match data !! "algorithm" with
                   | Some v => v
                   | None => Normalizer.JStr a
                   end).
  { unfold alg. rewrite Hc, (tag_second _ alpha Hu). reflexivity. }
  split; [exact E|]. intros H1 H2. split; [now rewrite E, H1|].
  unfold Normalizer.alg, Normalizer.get.
  rewrite Hc, (tag_second _ alpha Hu), H1, H2. reflexivity.
Qed.

(** The theorem at the artifact of [ils] for alpha 0.01, without payload
    entry. *)
Lemma sweep_algorithm_read_back_witness :
  alg ∅ (path_stem "n100mosA_ils_alpha0.01.json") = Some (Normalizer.JStr "ils").
Proof.
  exact (proj1 (sweep_algorithm_read_back ∅ "ils" "0.01"
                  (or_intror (or_introl eq_refl)))).
Defined.

End SweepTag.
